(** * Car-inspection API: a shallow embedding of [main.py]

    The development follows the layout of the source file:
    - [PyStr]: the few [str] methods the handlers use ([strip], truthiness);
    - [Float64]: Python's [float] (IEEE 754 binary64) on top of the standard
      library's executable specification [SpecFloat], and [round(x, 2)];
    - [Customer], [Vehicle], [LineItem], [Invoice]: the documents of
      [schemas.py];
    - [Driver]: what the handlers consume from [bson] and from the store's
      regular expressions, as two interfaces;
    - the handler monad, then [to_obj_id], [serialize], [search], the
      invoice part of [create_inspection], and [pay_invoice];
    - [Decimal]: the amounts as the specification words them;
    - the other handlers: [serialize] on dictionaries ([Dict]),
      [seed_demo], [create_inspection] as a whole, and [test_database];
    - [Hex24], [LiteralRegex], [Sample], [Demo]: one instance of the
      interfaces and the data of [seed_demo], on which the results are run.

    Handlers that talk to the store run in a small monad that threads the
    collections and a log of the store operations issued, and may raise.
    The properties come second: counting, binary64 arithmetic on the
    amounts, [search], [pay_invoice], then what more the handlers show
    ([search], [pay_invoice], [serialize], [seed_demo], [create_inspection],
    [test_database]), and the results on the sample data. *)

From Stdlib Require Import ZArith QArith Qround SpecFloat Ascii String.
From Stdlib Require Import DecimalString.
From stdpp Require Import gmap strings list.

Local Open Scope Z_scope.
Local Open Scope string_scope.
Local Open Scope list_scope.

(** ** Python strings

    A [str] is modelled by [string]; its characters are read as the code
    points 0..255. *)
Module PyStr.

(** [str.isspace] on one character: the white space code points below 256
    (TAB..CR, FS..US, SPACE, NEL, NBSP). *)
Definition isspace (c : ascii) : bool :=
  let n := nat_of_ascii c in
  ((9 <=? n) && (n <=? 13) || (28 <=? n) && (n <=? 32)
   || (n =? 133) || (n =? 160))%nat.

Fixpoint lstrip (s : string) : string :=
  match s with
  | String c s' => if isspace c then lstrip s' else s
  | EmptyString => EmptyString
  end.

(** [rstrip] walks to the end and drops a white space character when all
    that follows it has been dropped. *)
Fixpoint rstrip (s : string) : string :=
  match s with
  | String c s' =>
      match rstrip s' with
      | EmptyString => if isspace c then EmptyString else String c EmptyString
      | r => String c r
      end
  | EmptyString => EmptyString
  end.

(** [s.strip()] *)
Definition strip (s : string) : string := rstrip (lstrip s).

(** Truthiness of a [str]: [not s] holds for the empty string only. *)
Definition truthy (s : string) : bool :=
  match s with EmptyString => false | _ => true end.

(** White space only (the empty string included). *)
Fixpoint blank (s : string) : bool :=
  match s with
  | String c s' => isspace c && blank s'
  | EmptyString => true
  end.

(** ASCII lower-casing, and the case-insensitive substring test the
    specification speaks of. *)
Definition lower_ascii (c : ascii) : ascii :=
  let n := nat_of_ascii c in
  if ((65 <=? n) && (n <=? 90))%nat then ascii_of_nat (n + 32) else c.

Fixpoint lower (s : string) : string :=
  match s with
  | String c s' => String (lower_ascii c) (lower s')
  | EmptyString => EmptyString
  end.

Fixpoint prefix_ci (p s : string) : bool :=
  match p, s with
  | EmptyString, _ => true
  | String a p', String b s' =>
      Ascii.eqb (lower_ascii a) (lower_ascii b) && prefix_ci p' s'
  | String _ _, EmptyString => false
  end.

Fixpoint contains_ci (p s : string) : bool :=
  prefix_ci p s ||
  match s with
  | String _ s' => contains_ci p s'
  | EmptyString => false
  end.

End PyStr.

(** ** Python floats

    A [float] is an IEEE 754 binary64 number: [spec_float] at precision 53
    and maximal exponent 1024, with the correctly rounded operations of
    [SpecFloat]. *)
Module Float64.

Definition prec : Z := 53.
Definition emax : Z := 1024.

Abbreviation float := spec_float.

(** [float(n)] for an [int] [n]: round to nearest, ties to even (exact
    below 2^53). Python raises [OverflowError] where this gives an
    infinity, for integers of more than a thousand bits. *)
Definition float_of_Z (n : Z) : float := binary_normalize prec emax n 0 false.

(** [x * y], [x + y] on floats. *)
Definition fmul : float -> float -> float := SFmul prec emax.
Definition fadd : float -> float -> float := SFadd prec emax.

(** [n * x] for an [int] [n] and a [float] [x]: the integer is converted
    first. *)
Definition int_mul_float (n : Z) (x : float) : float := fmul (float_of_Z n) x.

(** The literal [0.08]: the double nearest to 8/100. *)
Definition lit_0_08 : float := S754_finite false 5764607523034235 (-56).

(** [sum(xs)] over floats: the accumulator starts at the integer 0, which
    becomes [0.0] at the first float, and each item is added in turn.
    Recent interpreters also carry a correction for the bits lost by the
    additions; it is zero as long as every partial sum is exact. *)
Definition fsum (xs : list float) : float :=
  fold_left fadd xs (S754_zero false).

(** Quotient and remainder rounded to the nearest integer, ties to even;
    [d] is positive. *)
Definition div_half_even (n d : Z) : Z :=
  let q := n / d in
  let r := n mod d in
  match 2 * r ?= d with
  | Lt => q
  | Gt => q + 1
  | Eq => if Z.even q then q else q + 1
  end.

(** The number of hundredths nearest to the exact value [m * 2^e] of a
    float (ties to even): the digits that the correctly rounded
    float-to-decimal conversion of [round] produces at two places. *)
Definition cents_of (m : positive) (e : Z) : Z :=
  match e with
  | Zneg p => div_half_even (100 * Zpos m) (2 ^ Zpos p)
  | _ => 100 * Zpos m * 2 ^ e
  end.

(** The double nearest to [k / 100]: the correctly rounded quotient of the
    two integers, which is what reading the decimal string back gives. *)
Definition float_of_cents (s : bool) (k : Z) : float :=
  match k with
  | Zpos k' => SFdiv prec emax (S754_finite s k' 0) (S754_finite false 100 0)
  | _ => S754_zero s
  end.

(** [round(x, 2)]: zeros, infinities and NaN are returned as they are; a
    finite [x] is converted to the nearest decimal with two places and
    back. *)
Definition round2 (x : float) : float :=
  match x with
  | S754_finite s m e => float_of_cents s (cents_of m e)
  | _ => x
  end.

(** The exact rational value of a float (0 for infinities and NaN, which
    have none). *)
Definition to_Q (x : float) : Q :=
  match x with
  | S754_finite s m e =>
      let v := match e with
               | Zneg p => Zpos m # (2 ^ p)
               | _ => inject_Z (Zpos m * 2 ^ e)
               end in
      if s then Qopp v else v
  | _ => 0%Q
  end.

(** [x] is the normalized double whose value is the integer [n]. *)
Definition holds (x : float) (n : Z) : Prop :=
  exists m e, x = S754_finite false m e /\ 2 ^ 52 <= Zpos m < 2 ^ 53 /\
              e <= 0 /\ Zpos m = n * 2 ^ (- e).

End Float64.

(** ** The documents of [schemas.py]

    A stored document carries the [_id] the store assigned; [Id] is the type
    of that field: the store's identifier type while the document is in the
    store, [string] once [serialize] has run. *)
Module Customer.
Record doc {Id : Type} := mk
  { _id : Id; name : string; phone : string; email : string }.
Arguments doc : clear implicits.
Arguments mk {Id}.
End Customer.

Module Vehicle.
(** [customer_id] is read with [v.get("customer_id")]: [None] stands for a
    document without the field. *)
Record doc {Id : Type} := mk
  { _id : Id; customer_id : option string;
    vin : string; plate : string; make : string; model : string;
    year : Z; color : option string }.
Arguments doc : clear implicits.
Arguments mk {Id}.
End Vehicle.

Module LineItem.
Record t := mk { name : string; qty : Z; price : Float64.float }.
End LineItem.

Module Invoice.
(** The [Invoice] model: what [create_inspection] builds. *)
Record t := mk
  { inspection_id : string; line_items : list LineItem.t;
    subtotal : Float64.float; taxes : Float64.float; total : Float64.float;
    paid : bool }.

(** An invoice in the store. *)
Record doc {Id : Type} := mkdoc { _id : Id; body : t }.
Arguments doc : clear implicits.
Arguments mkdoc {Id}.
End Invoice.

(** ** What the handlers consume from outside the repository *)
Module Driver.

(** [bson.ObjectId]: [ObjectId(s)] either yields an identifier or raises
    (here [None]); [str(oid)] prints it as a non-empty string, and
    printing then parsing gives the identifier back. *)
Class Bson := {
  ObjectId : Type;
  ObjectId_eq_dec :: EqDecision ObjectId;
  ObjectId_of_str : string -> option ObjectId;
  str_of_ObjectId : ObjectId -> string;
  ObjectId_of_str_of : forall o, ObjectId_of_str (str_of_ObjectId o) = Some o;
  str_of_ObjectId_nonempty : forall o, str_of_ObjectId o <> ""
}.

(** The store's regular expressions: [regex_i p] is the meaning of the
    filter [{"$regex": p, "$options": "i"}] on a string field, or [None]
    when the store rejects the pattern. *)
Class Regex := { regex_i : string -> option (string -> bool) }.

End Driver.

(** ** The store and the handler monad *)
Section Handlers.
Context `{bson : Driver.Bson} `{regex : Driver.Regex}.
Import Driver.

(** The collections [db["customer"]], [db["vehicle"]] and [db["invoice"]],
    in the store's natural order. *)
Record Db := mkDb
  { db_customer : list (Customer.doc ObjectId);
    db_vehicle : list (Vehicle.doc ObjectId);
    db_invoice : list (Invoice.doc ObjectId) }.

(** One entry per call on a collection. *)
Inductive StoreOp :=
| FindRegex (coll : string) (fields : list string) (pattern : string)
| FindIdIn (coll : string) (ids : list ObjectId)
| FindEq (coll : string) (field : string) (value : string)
| UpdateOne (coll : string) (id : ObjectId)
| FindOne (coll : string) (id : ObjectId).

Inductive exn :=
| HTTPException (status_code : Z) (detail : string)
| OperationFailure.

Record World := mkWorld { db : Db; ops : list StoreOp }.

Definition M (A : Type) : Type := World -> (exn + A) * World.

Definition ret {A} (a : A) : M A := fun w => (inr a, w).

Definition bind {A B} (m : M A) (k : A -> M B) : M B :=
  fun w => match m w with
           | (inr a, w') => k a w'
           | (inl e, w') => (inl e, w')
           end.

Definition raise {A} (e : exn) : M A := fun w => (inl e, w).

(** A call on the store is logged before it runs. *)
Definition call (op : StoreOp) : M unit :=
  fun w => (inr tt, mkWorld (db w) (ops w ++ [op])).

Definition get_db : M Db := fun w => (inr (db w), w).
Definition put_db (d : Db) : M unit := fun w => (inr tt, mkWorld d (ops w)).

End Handlers.

Arguments M {bson} A.

Declare Scope handler_scope.
Delimit Scope handler_scope with handler.
Notation "'let!' x ':=' m 'in' k" := (bind m (fun x => k))
  (at level 10, x name, m at level 100, k at level 200) : handler_scope.
Notation "'run!' m 'in' k" := (bind m (fun _ => k))
  (at level 10, m at level 100, k at level 200) : handler_scope.

(** ** [main.py] *)

(** A value of [grouped] in [search]: [{"customer": ..., "vehicles": [...]}]. *)
Record Group {Id : Type} := mkGroup
  { customer : option (Customer.doc Id);
    vehicles : list (Vehicle.doc Id) }.
Arguments Group : clear implicits.
Arguments mkGroup {Id}.

(** [grouped] is a [dict] that is iterated at the end: an association list
    in insertion order, its keys the values of [v.get("customer_id")]. *)
Abbreviation Grouped := (list (option string * Group Driver.ObjectId)).

(** [checks: Dict[str, Dict[str, str]]], section -> item -> status; a [dict]
    iterates in insertion order. *)
Abbreviation Checks := (list (string * list (string * string))).

Section Main.
Context `{bson : Driver.Bson} `{regex : Driver.Regex}.
Import Driver.
Local Open Scope handler_scope.

(** *** Utilities *)

(** [to_obj_id]: any exception of [ObjectId(id_str)] becomes a 400. *)
Definition to_obj_id (id_str : string) : exn + ObjectId :=
  match ObjectId_of_str id_str with
  | Some o => inr o
  | None => inl (HTTPException 400 "Invalid ObjectId")
  end.

Definition lift {A} (r : exn + A) : M A :=
  match r with inr a => ret a | inl e => raise e end.

(** [serialize]: [doc["_id"] = str(doc.get("_id"))], one function per
    collection. A stored document is never empty, so the [if not doc]
    branch is not taken. *)
Definition serialize_customer (doc : Customer.doc ObjectId)
  : Customer.doc string :=
  Customer.mk (str_of_ObjectId (Customer._id doc)) (Customer.name doc)
    (Customer.phone doc) (Customer.email doc).

Definition serialize_vehicle (doc : Vehicle.doc ObjectId)
  : Vehicle.doc string :=
  Vehicle.mk (str_of_ObjectId (Vehicle._id doc)) (Vehicle.customer_id doc)
    (Vehicle.vin doc) (Vehicle.plate doc) (Vehicle.make doc)
    (Vehicle.model doc) (Vehicle.year doc) (Vehicle.color doc).

Definition serialize_invoice (doc : Invoice.doc ObjectId)
  : Invoice.doc string :=
  Invoice.mkdoc (str_of_ObjectId (Invoice._id doc)) (Invoice.body doc).

(** *** Store calls

    [find] returns the documents that satisfy the filter, in the order of
    the collection. *)

(** [db["customer"].find({"$or": [{"name": regex}, {"phone": regex},
    {"email": regex}]})] *)
Definition customer_matches (m : string -> bool) (c : Customer.doc ObjectId)
  : bool :=
  m (Customer.name c) || m (Customer.phone c) || m (Customer.email c).

(** [db["vehicle"].find({"$or": [{"vin": regex}, {"plate": regex},
    {"make": regex}, {"model": regex}]})] *)
Definition vehicle_matches (m : string -> bool) (v : Vehicle.doc ObjectId)
  : bool :=
  m (Vehicle.vin v) || m (Vehicle.plate v) || m (Vehicle.make v)
  || m (Vehicle.model v).

(** A filter with a pattern the store rejects makes the call fail. *)
Definition find_regex {D} (coll : string) (fields : list string)
    (get : Db -> list D) (matches : (string -> bool) -> D -> bool)
    (pattern : string) : M (list D) :=
  run! call (FindRegex coll fields pattern) in
  match regex_i pattern with
  | None => raise OperationFailure
  | Some m =>
      let! d := get_db in
      ret (filter (λ doc, matches m doc) (get d))
  end.

(** [db["customer"].find({"_id": {"$in": ids}})] *)
Definition find_customers_in (ids : list ObjectId)
  : M (list (Customer.doc ObjectId)) :=
  run! call (FindIdIn "customer" ids) in
  let! d := get_db in
  ret (filter (λ c, Customer._id c ∈ ids) (db_customer d)).

(** [db["vehicle"].find({"customer_id": cid})] *)
Definition find_vehicles_of (cid : string)
  : M (list (Vehicle.doc ObjectId)) :=
  run! call (FindEq "vehicle" "customer_id" cid) in
  let! d := get_db in
  ret (filter (λ v, Vehicle.customer_id v = Some cid) (db_vehicle d)).

(** *** [search] *)

Definition has_key (cid : option string) (grouped : Grouped) : bool :=
  existsb (fun kv => bool_decide (kv.1 = cid)) grouped.

(** [grouped.setdefault(cid, default)] *)
Definition setdefault (cid : option string) (default : Group ObjectId)
    (grouped : Grouped) : Grouped :=
  if has_key cid grouped then grouped else grouped ++ [(cid, default)].

(** [grouped[cid]["vehicles"].append(v)] *)
Definition append_vehicle (cid : option string) (v : Vehicle.doc ObjectId)
    (grouped : Grouped) : Grouped :=
  (λ kv, if bool_decide (kv.1 = cid)
         then (kv.1, mkGroup (customer kv.2) (vehicles kv.2 ++ [v]))
         else kv) <$> grouped.

(** [cust_map = {str(c["_id"]): c for c in customers}], and the same
    assignments for the customers fetched later. *)
Definition add_customers (customers : list (Customer.doc ObjectId))
    (cust_map : gmap string (Customer.doc ObjectId))
  : gmap string (Customer.doc ObjectId) :=
  fold_left (fun m c => <[str_of_ObjectId (Customer._id c) := c]> m)
    customers cust_map.

(** [cust_map.get(cid)] *)
Definition cust_map_get (cust_map : gmap string (Customer.doc ObjectId))
    (cid : option string) : option (Customer.doc ObjectId) :=
  match cid with Some s => cust_map !! s | None => None end.

(** [{v.get("customer_id") for v in vehicles} - set(cust_map.keys())] *)
Definition missing_ids (vehicles : list (Vehicle.doc ObjectId))
    (cust_map : gmap string (Customer.doc ObjectId)) : gset (option string) :=
  list_to_set (Vehicle.customer_id <$> vehicles)
  ∖ set_map Some (dom cust_map).

(** [if cid] on a value of [v.get("customer_id")] *)
Definition truthy_id (cid : option string) : option string :=
  match cid with
  | Some s => if PyStr.truthy s then Some s else None
  | None => None
  end.

(** [[to_obj_id(cid) for cid in missing_cust_ids if cid]]: the first
    malformed identifier raises. *)
Fixpoint to_obj_ids (cids : list (option string)) : exn + list ObjectId :=
  match cids with
  | [] => inr []
  | cid :: rest =>
      match truthy_id cid with
      | None => to_obj_ids rest
      | Some s =>
          match to_obj_id s with
          | inl e => inl e
          | inr o =>
              match to_obj_ids rest with
              | inl e => inl e
              | inr os => inr (o :: os)
              end
          end
      end
  end.

(** The first loop: every matched vehicle goes under its [customer_id]. *)
Definition group_vehicles (cust_map : gmap string (Customer.doc ObjectId))
    (vehicles : list (Vehicle.doc ObjectId)) (grouped : Grouped) : Grouped :=
  fold_left
    (fun grouped v =>
       let cid := Vehicle.customer_id v in
       let grouped :=
         setdefault cid (mkGroup (cust_map_get cust_map cid) []) grouped in
       append_vehicle cid v grouped)
    vehicles grouped.

(** The second loop. The default of [setdefault] is evaluated before the
    call, so the store is asked for the vehicles of every matched
    customer. *)
Fixpoint group_customers (customers : list (Customer.doc ObjectId))
    (grouped : Grouped) : M Grouped :=
  match customers with
  | [] => ret grouped
  | c :: rest =>
      let cid := str_of_ObjectId (Customer._id c) in
      let! vs := find_vehicles_of cid in
      group_customers rest
        (setdefault (Some cid) (mkGroup (Some c) vs) grouped)
  end.

(** The last loop: one result per key of [grouped], in insertion order. *)
Definition results_of (grouped : Grouped) : list (Group string) :=
  (λ kv, mkGroup (serialize_customer <$> customer kv.2)
           (serialize_vehicle <$> vehicles kv.2)) <$> grouped.

(** The part of [search] after the two text queries. *)
Definition search_group (customers : list (Customer.doc ObjectId))
    (vehicles : list (Vehicle.doc ObjectId)) : M (list (Group string)) :=
  let cust_map := add_customers customers ∅ in
  let missing_cust_ids := missing_ids vehicles cust_map in
  let! cust_map :=
    if bool_decide (missing_cust_ids = ∅) then ret cust_map
    else
      let! ids := lift (to_obj_ids (elements missing_cust_ids)) in
      let! extra_customers := find_customers_in ids in
      ret (add_customers extra_customers cust_map) in
  let grouped := group_vehicles cust_map vehicles [] in
  let! grouped := group_customers customers grouped in
  ret (results_of grouped).

(** The two text queries of [search]. *)
Definition search_text (query : string)
  : M (list (Customer.doc ObjectId) * list (Vehicle.doc ObjectId)) :=
  let! customers :=
    find_regex "customer" ["name"; "phone"; "email"] db_customer
      customer_matches query in
  let! vehicles :=
    find_regex "vehicle" ["vin"; "plate"; "make"; "model"] db_vehicle
      vehicle_matches query in
  ret (customers, vehicles).

Definition search (q : string) : M (list (Group string)) :=
  let query := PyStr.strip q in
  if negb (PyStr.truthy query) then ret []
  else
    let! found := search_text query in
    search_group found.1 found.2.

(** *** [create_inspection]: the invoice built from the checks *)

(** [counts = {"attention": 0, "fail": 0}] *)
Record Counts := mkCounts { attention : Z; fail : Z }.

(** The body of the inner loop. *)
Definition count_status (counts : Counts) (v : string) : Counts :=
  let counts :=
    if String.eqb v "attention"
    then mkCounts (attention counts + 1) (fail counts) else counts in
  let counts :=
    if String.eqb v "fail"
    then mkCounts (attention counts) (fail counts + 1) else counts in
  counts.

(** [for section in checks.values(): for v in section.values(): ...] *)
Definition count_checks (checks : Checks) : Counts :=
  fold_left
    (fun counts section => fold_left count_status (snd <$> section) counts)
    (snd <$> checks) (mkCounts 0 0).

Definition build_line_items (counts : Counts) : list LineItem.t :=
  let line_items := [] in
  let line_items :=
    if negb (Z.eqb (attention counts) 0)
    then line_items ++ [LineItem.mk "Preventive maintenance items"
                          (attention counts) (Float64.float_of_Z 25)]
    else line_items in
  let line_items :=
    if negb (Z.eqb (fail counts) 0)
    then line_items ++ [LineItem.mk "Critical repair items"
                          (fail counts) (Float64.float_of_Z 60)]
    else line_items in
  line_items ++ [LineItem.mk "Base inspection fee" 1 (Float64.float_of_Z 49)].

(** Lines 139-166: from the checks to the [Invoice] object. *)
Definition build_invoice (ins_id : string) (checks : Checks) : Invoice.t :=
  let counts := count_checks checks in
  let line_items := build_line_items counts in
  let subtotal :=
    Float64.fsum
      ((λ li, Float64.int_mul_float (LineItem.qty li) (LineItem.price li))
         <$> line_items) in
  let taxes := Float64.round2 (Float64.fmul subtotal Float64.lit_0_08) in
  let total := Float64.round2 (Float64.fadd subtotal taxes) in
  Invoice.mk ins_id line_items subtotal taxes total false.

(** *** [pay_invoice] *)

Definition set_paid (d : Invoice.doc ObjectId) : Invoice.doc ObjectId :=
  let b := Invoice.body d in
  Invoice.mkdoc (Invoice._id d)
    (Invoice.mk (Invoice.inspection_id b) (Invoice.line_items b)
       (Invoice.subtotal b) (Invoice.taxes b) (Invoice.total b) true).

(** [update_one({"_id": inv_id}, {"$set": {"paid": True}})] on a list of
    documents: the first match is updated; the second component is
    [matched_count]. *)
Fixpoint update_one_paid (inv_id : ObjectId)
    (docs : list (Invoice.doc ObjectId))
  : list (Invoice.doc ObjectId) * Z :=
  match docs with
  | [] => ([], 0)
  | d :: rest =>
      if bool_decide (Invoice._id d = inv_id) then (set_paid d :: rest, 1)
      else let '(rest', n) := update_one_paid inv_id rest in (d :: rest', n)
  end.

Definition update_invoice_paid (inv_id : ObjectId) : M Z :=
  run! call (UpdateOne "invoice" inv_id) in
  let! d := get_db in
  let '(docs, matched_count) := update_one_paid inv_id (db_invoice d) in
  run! put_db (mkDb (db_customer d) (db_vehicle d) docs) in
  ret matched_count.

(** [db["invoice"].find_one({"_id": inv_id})] *)
Definition find_one_invoice (inv_id : ObjectId)
  : M (option (Invoice.doc ObjectId)) :=
  run! call (FindOne "invoice" inv_id) in
  let! d := get_db in
  ret (List.find (fun i => bool_decide (Invoice._id i = inv_id))
         (db_invoice d)).

(** [serialize(doc)] returns a missing document as it is. *)
Definition pay_invoice (invoice_id : string)
  : M (option (Invoice.doc string)) :=
  let! inv_id := lift (to_obj_id invoice_id) in
  let! matched_count := update_invoice_paid inv_id in
  if Z.eqb matched_count 0
  then raise (HTTPException 404 "Invoice not found")
  else
    let! doc := find_one_invoice inv_id in
    ret (serialize_invoice <$> doc).

End Main.

(** ** Notions used to state the properties of [search] *)
Section SearchModel.
Context `{bson : Driver.Bson}.
Import Driver.

(** The group stored under a key. *)
Fixpoint glookup (cid : option string) (grouped : Grouped)
  : option (Group ObjectId) :=
  match grouped with
  | [] => None
  | kv :: rest =>
      if bool_decide (kv.1 = cid) then Some kv.2 else glookup cid rest
  end.

(** The vehicles of a list that carry a given [customer_id]. *)
Definition with_cid (cid : option string) (vs : list (Vehicle.doc ObjectId))
  : list (Vehicle.doc ObjectId) :=
  filter (λ v, Vehicle.customer_id v = cid) vs.

(** The second loop, on a fixed store. *)
Definition vehicles_of (d : Db) (cid : string) : list (Vehicle.doc ObjectId) :=
  filter (λ v, Vehicle.customer_id v = Some cid) (db_vehicle d).

Definition group_customers_db (d : Db)
    (customers : list (Customer.doc ObjectId)) (grouped : Grouped) : Grouped :=
  fold_left
    (fun grouped c =>
       let cid := str_of_ObjectId (Customer._id c) in
       setdefault (Some cid) (mkGroup (Some c) (vehicles_of d cid)) grouped)
    customers grouped.

(** [cust_map] once the owners named by the vehicles have been fetched. *)
Definition final_cust_map (d : Db) (customers : list (Customer.doc ObjectId))
    (ids : list ObjectId) : gmap string (Customer.doc ObjectId) :=
  add_customers (filter (λ c, Customer._id c ∈ ids) (db_customer d))
    (add_customers customers ∅).

Definition final_grouped (d : Db) (customers : list (Customer.doc ObjectId))
    (vehicles : list (Vehicle.doc ObjectId)) (ids : list ObjectId) : Grouped :=
  group_customers_db d customers
    (group_vehicles (final_cust_map d customers ids) vehicles []).

(** The store assigns each customer its own identifier. *)
Definition unique_ids (d : Db) : Prop :=
  NoDup (Customer._id <$> db_customer d).

(** Every non-empty [customer_id] of a matched vehicle parses as an
    identifier. *)
Definition owner_ids_well_formed (m : string -> bool) (d : Db) : Prop :=
  forall v s, v ∈ db_vehicle d -> vehicle_matches m v ->
              Vehicle.customer_id v = Some s -> s <> "" ->
              is_Some (ObjectId_of_str s).

End SearchModel.

(** What the two text queries of a request return, and what they would
    return if matching meant that the query occurs in a field, whatever the
    case. *)
Section TextMatches.
Context `{bson : Driver.Bson} `{regex : Driver.Regex}.
Import Driver.

Definition text_matches (q : string) (w : World)
  : exn + list (Customer.doc ObjectId) * list (Vehicle.doc ObjectId) :=
  (search_text (PyStr.strip q) w).1.

Definition substring_matches (q : string) (d : Db)
  : exn + list (Customer.doc ObjectId) * list (Vehicle.doc ObjectId) :=
  inr (filter (λ c, customer_matches (PyStr.contains_ci q) c) (db_customer d),
       filter (λ v, vehicle_matches (PyStr.contains_ci q) v) (db_vehicle d)).

End TextMatches.

(** ** The amounts of the specification

    The specification asks for exact decimal arithmetic: the subtotal is the
    sum of quantity times price, taxes are 8 percent of it rounded half up
    to two places, and the total is their sum rounded the same way. *)
Module Decimal.

(** Rounding to two decimal places, halves upwards. *)
Definition round_half_up_2 (x : Q) : Q :=
  (Qfloor (x * 100 + (1 # 2)) # 100)%Q.

Definition subtotal (line_items : list LineItem.t) : Q :=
  fold_right
    (fun li acc =>
       (inject_Z (LineItem.qty li) * Float64.to_Q (LineItem.price li) + acc)%Q)
    0%Q line_items.

Definition taxes (subtotal : Q) : Q := round_half_up_2 (subtotal * (8 # 100)).

Definition total (subtotal taxes : Q) : Q := round_half_up_2 (subtotal + taxes).

(** The claim that the stored amounts are these decimals. *)
Definition exact (inv : Invoice.t) : Prop :=
  let s := subtotal (Invoice.line_items inv) in
  (Float64.to_Q (Invoice.subtotal inv) == s)%Q /\
  (Float64.to_Q (Invoice.taxes inv) == taxes s)%Q /\
  (Float64.to_Q (Invoice.total inv) == total s (taxes s))%Q.

End Decimal.

(** The statuses of a checklist, section by section, and how often one
    occurs among them. *)
Definition statuses (checks : Checks) : list string :=
  concat
    ((λ section : string * list (string * string), snd <$> section.2)
       <$> checks).

Definition occurrences (status : string) (l : list string) : Z :=
  Z.of_nat (length (filter (λ s, s = status) l)).

(** Two checklists with the same sections and the same items, inserted in
    another order: the sections are permuted, and so are the items inside
    each section. *)
Definition same_section (s1 s2 : string * list (string * string)) : Prop :=
  s1.1 = s2.1 /\ s1.2 ≡ₚ s2.2.

Definition same_checks (c1 c2 : Checks) : Prop :=
  exists c, Forall2 same_section c1 c /\ c ≡ₚ c2.

(** ** The other handlers of [main.py] *)

(** *** [serialize] on dictionaries

    [serialize] takes any [Dict[str, Any]]. A dictionary is a finite map
    from field names to values. The values whose [str] is fixed by the
    language or by [bson] are spelled out; every other value (a float, a
    list, a nested document, a date) is an [Other], which comes with its
    own [str]. *)
Module Dict.
Section Dict.
Context `{bson : Driver.Bson} {Other : Type} (str_other : Other -> string).
Import Driver.

Inductive value :=
| VNone
| VBool (b : bool)
| VInt (n : Z)
| VStr (s : string)
| VOid (o : ObjectId)
| VOther (x : Other).

(** [str(v)] *)
Definition str (v : value) : string :=
  match v with
  | VNone => "None"
  | VBool true => "True"
  | VBool false => "False"
  | VInt n => NilZero.string_of_int (Z.to_int n)
  | VStr s => s
  | VOid o => str_of_ObjectId o
  | VOther x => str_other x
  end.

(** [doc.get(key)] *)
Definition get (doc : gmap string value) (key : string) : value :=
  default VNone (doc !! key).

(** [serialize]: [None] and the empty dictionary are falsy and returned as
    they are. The function assigns into [doc] and returns it; the model
    returns the dictionary after the assignment. *)
Definition serialize (doc : option (gmap string value))
  : option (gmap string value) :=
  match doc with
  | None => None
  | Some d =>
      if (size d =? 0)%nat then Some d
      else Some (<["_id" := VStr (str (get d "_id"))]> d)
  end.

End Dict.

Arguments value {bson} Other.
Arguments VNone {bson Other}.
Arguments VBool {bson Other}.
Arguments VInt {bson Other}.
Arguments VStr {bson Other}.
Arguments VOid {bson Other}.
Arguments VOther {bson Other}.

Section Documents.
Context `{bson : Driver.Bson} {Other : Type}.
Import Driver.

(** The documents of the three collections as dictionaries; [id] says how
    the [_id] is held: [VOid] in the store, [VStr] once serialized. *)
Definition of_customer {Id} (id : Id -> value Other) (c : Customer.doc Id)
  : gmap string (value Other) :=
  <["_id" := id (Customer._id c)]>
    (<["name" := VStr (Customer.name c)]>
       (<["phone" := VStr (Customer.phone c)]>
          (<["email" := VStr (Customer.email c)]> ∅))).

Definition of_vehicle {Id} (id : Id -> value Other) (v : Vehicle.doc Id)
  : gmap string (value Other) :=
  let d :=
    <["_id" := id (Vehicle._id v)]>
      (<["vin" := VStr (Vehicle.vin v)]>
         (<["plate" := VStr (Vehicle.plate v)]>
            (<["make" := VStr (Vehicle.make v)]>
               (<["model" := VStr (Vehicle.model v)]>
                  (<["year" := VInt (Vehicle.year v)]>
                     (<["color" := from_option VStr VNone (Vehicle.color v)]>
                        ∅)))))) in
  match Vehicle.customer_id v with
  | Some cid => <["customer_id" := VStr cid]> d
  | None => d
  end.

(** An invoice: its [_id] and the fields of the [Invoice] model, however
    these are held. *)
Definition of_invoice {Id} (fields : Invoice.t -> gmap string (value Other))
    (id : Id -> value Other) (i : Invoice.doc Id)
  : gmap string (value Other) :=
  <["_id" := id (Invoice._id i)]> (fields (Invoice.body i)).

End Documents.
End Dict.

(** *** [seed_demo] *)

Module SeedResponse.
(** [{"status": ..., "message": ...}] *)
Record t := mk { status : string; message : string }.
End SeedResponse.

Section Seed.
Context `{bson : Driver.Bson}.
Import Driver.

(** The identifiers that the driver gives to the five documents that
    [seed_demo] inserts, in the order of insertion. They are generated
    outside the program and are an input of the model. *)
Record Fresh := mkFresh
  { fresh_alex : ObjectId; fresh_maria : ObjectId;
    fresh_civic : ObjectId; fresh_f150 : ObjectId; fresh_legend : ObjectId }.

(** [db["customer"].insert_one(doc).inserted_id]: the document gets its
    [_id] and goes to the end of the collection. A document that has no
    [_id] yet is a [doc unit]. *)
Definition insert_one_customer (new_id : ObjectId) (doc : Customer.doc unit)
    (d : Db) : ObjectId * Db :=
  (new_id,
   mkDb (db_customer d
         ++ [Customer.mk new_id (Customer.name doc) (Customer.phone doc)
               (Customer.email doc)])
     (db_vehicle d) (db_invoice d)).

(** [db["vehicle"].insert_many(docs)] *)
Definition insert_many_vehicles (docs : list (ObjectId * Vehicle.doc unit))
    (d : Db) : Db :=
  mkDb (db_customer d)
    (db_vehicle d
     ++ ((λ new : ObjectId * Vehicle.doc unit,
            Vehicle.mk new.1 (Vehicle.customer_id new.2) (Vehicle.vin new.2)
              (Vehicle.plate new.2) (Vehicle.make new.2)
              (Vehicle.model new.2) (Vehicle.year new.2)
              (Vehicle.color new.2)) <$> docs))
    (db_invoice d).

(** The handler, as a function of the store: it returns the response and
    the store it leaves. *)
Definition seed_demo (ids : Fresh) (d : Db) : SeedResponse.t * Db :=
  let existing := take 1 (db_customer d) in
  match existing with
  | _ :: _ => (SeedResponse.mk "ok" "Already seeded", d)
  | [] =>
      let '(alex_id, d) :=
        insert_one_customer (fresh_alex ids)
          (Customer.mk tt "Alex Johnson" "+1 555-101-2020"
             "alex.j@example.com") d in
      let '(maria_id, d) :=
        insert_one_customer (fresh_maria ids)
          (Customer.mk tt "Maria Gomez" "+1 555-303-4040"
             "maria.g@example.com") d in
      let d :=
        insert_many_vehicles
          [(fresh_civic ids,
            Vehicle.mk tt (Some (str_of_ObjectId alex_id))
              "1HGCM82633A004352" "AJX-4521" "Honda" "Civic" 2018
              (Some "Blue"));
           (fresh_f150 ids,
            Vehicle.mk tt (Some (str_of_ObjectId alex_id))
              "1FTFW1ET1EKE12345" "TRK-9087" "Ford" "F-150" 2014
              (Some "Black"));
           (fresh_legend ids,
            Vehicle.mk tt (Some (str_of_ObjectId maria_id))
              "JH4KA4650MC123456" "MGM-2277" "Acura" "Legend" 1991
              (Some "Red"))] d in
      (SeedResponse.mk "ok" "Seeded", d)
  end.

(** The documents that a seeding adds, once they have their [_id]. *)
Definition seeded_customers (ids : Fresh) : list (Customer.doc ObjectId) :=
  [Customer.mk (fresh_alex ids) "Alex Johnson" "+1 555-101-2020"
     "alex.j@example.com";
   Customer.mk (fresh_maria ids) "Maria Gomez" "+1 555-303-4040"
     "maria.g@example.com"].

Definition seeded_vehicles (ids : Fresh) : list (Vehicle.doc ObjectId) :=
  [Vehicle.mk (fresh_civic ids) (Some (str_of_ObjectId (fresh_alex ids)))
     "1HGCM82633A004352" "AJX-4521" "Honda" "Civic" 2018 (Some "Blue");
   Vehicle.mk (fresh_f150 ids) (Some (str_of_ObjectId (fresh_alex ids)))
     "1FTFW1ET1EKE12345" "TRK-9087" "Ford" "F-150" 2014 (Some "Black");
   Vehicle.mk (fresh_legend ids) (Some (str_of_ObjectId (fresh_maria ids)))
     "JH4KA4650MC123456" "MGM-2277" "Acura" "Legend" 1991 (Some "Red")].

End Seed.

(** *** [create_inspection], the whole handler *)

Module Inspection.
(** The [Inspection] model of [schemas.py]. *)
Record t := mk
  { customer_id : string; vehicle_id : string; checks : Checks;
    notes : option string; photos : list string; status : string }.
End Inspection.

Module InspectionPayload.
Record t := mk
  { customer_id : string; vehicle_id : string; checks : Checks;
    notes : option string; photos : option (list string) }.
End InspectionPayload.

Module InspectionResponse.
(** [{"inspection_id": ..., "invoice_id": ..., "invoice": ...}] *)
Record t := mk
  { inspection_id : string; invoice_id : string; invoice : Invoice.t }.
End InspectionResponse.

(** What [create_document] is given: an object of one of the models. *)
Inductive Document :=
| DInspection (i : Inspection.t)
| DInvoice (i : Invoice.t).

(** [Inspection(customer_id=payload.customer_id, ...)]: [photos] is
    [payload.photos or []], and [status] takes the default of the model. *)
Definition inspection_of (payload : InspectionPayload.t) : Inspection.t :=
  Inspection.mk (InspectionPayload.customer_id payload)
    (InspectionPayload.vehicle_id payload)
    (InspectionPayload.checks payload) (InspectionPayload.notes payload)
    (match InspectionPayload.photos payload with
     | Some (p :: ps) => p :: ps
     | _ => []
     end)
    "inspection_complete".

Section CreateInspection.
Context `{bson : Driver.Bson}.
Import Driver.
Local Open Scope handler_scope.

(** [create_document] is imported from [database.py], which is not among
    the sources at hand: the handler is modelled over any function that
    takes a collection name and an object, may use the store and may raise,
    and returns a string. *)
Variable create_document : string -> Document -> M string.

Definition create_inspection (payload : InspectionPayload.t)
  : M InspectionResponse.t :=
  run! lift (to_obj_id (InspectionPayload.customer_id payload)) in
  run! lift (to_obj_id (InspectionPayload.vehicle_id payload)) in
  let inspection := inspection_of payload in
  let! ins_id := create_document "inspection" (DInspection inspection) in
  let invoice := build_invoice ins_id (Inspection.checks inspection) in
  let! inv_id := create_document "invoice" (DInvoice invoice) in
  ret (InspectionResponse.mk ins_id inv_id invoice).

End CreateInspection.

(** *** [pay_invoice]: what may change in an invoice *)
Section PaidOnly.
Context `{bson : Driver.Bson}.
Import Driver.

(** What a request for the invoice [target] may do to an invoice: nothing
    but [paid] differs between the two versions, and [paid] differs only in
    an invoice with the identifier asked for, where it is then set. *)
Definition paid_only (target : option ObjectId)
    (old new : Invoice.doc ObjectId) : Prop :=
  Invoice._id new = Invoice._id old /\
  Invoice.inspection_id (Invoice.body new)
  = Invoice.inspection_id (Invoice.body old) /\
  Invoice.line_items (Invoice.body new)
  = Invoice.line_items (Invoice.body old) /\
  Invoice.subtotal (Invoice.body new) = Invoice.subtotal (Invoice.body old) /\
  Invoice.taxes (Invoice.body new) = Invoice.taxes (Invoice.body old) /\
  Invoice.total (Invoice.body new) = Invoice.total (Invoice.body old) /\
  (Invoice.paid (Invoice.body new) = Invoice.paid (Invoice.body old) \/
   (target = Some (Invoice._id old) /\
    Invoice.paid (Invoice.body new) = true)).

End PaidOnly.

(** *** [test_database] *)

Module DbHandle.
(** Reading an attribute of an object: it is missing, has a value, or the
    access raises. *)
Inductive attr := Missing | Value (v : string) | Raises (e : string).

(** What [test_database] uses of the imported [db] when it is not [None]:
    its attribute [name], and [list_collection_names()], which returns the
    names or raises. An exception is held by its [str]. *)
Record t := mk
  { name : attr; list_collection_names : string + list string }.
End DbHandle.

Module TestResponse.
Record t := mk
  { backend : string; database : string;
    database_url : option string; database_name : option string;
    connection_status : string; collections : list string }.

(** [response[key] = v], key by key. *)
Definition set_database (v : string) (r : t) : t :=
  mk (backend r) v (database_url r) (database_name r) (connection_status r)
    (collections r).
Definition set_database_url (v : option string) (r : t) : t :=
  mk (backend r) (database r) v (database_name r) (connection_status r)
    (collections r).
Definition set_database_name (v : option string) (r : t) : t :=
  mk (backend r) (database r) (database_url r) v (connection_status r)
    (collections r).
Definition set_connection_status (v : string) (r : t) : t :=
  mk (backend r) (database r) (database_url r) (database_name r) v
    (collections r).
Definition set_collections (v : list string) (r : t) : t :=
  mk (backend r) (database r) (database_url r) (database_name r)
    (connection_status r) v.
End TestResponse.

Section TestDatabase.
Import TestResponse.

(** [s[:n]] *)
Fixpoint slice_to (n : nat) (s : string) : string :=
  match n, s with
  | S n', String c s' => String c (slice_to n' s')
  | _, _ => EmptyString
  end.

(** [os.getenv(key)] is truthy: the variable is set and not empty. *)
Definition getenv_truthy (env : gmap string string) (key : string) : bool :=
  match env !! key with
  | Some v => PyStr.truthy v
  | None => false
  end.

(** The handler, as a function of the imported [db] and of the
    environment. The string literals are those of the source, in UTF-8.
    An exception raised by [db.name] is caught by the outer [except], one
    raised by [list_collection_names()] by the inner one. *)
Definition test_database (db : option DbHandle.t) (env : gmap string string)
  : TestResponse.t :=
  let response :=
    mk "✅ Running" "❌ Not Available" None None "Not Connected" [] in
  let response :=
    match db with
    | Some db =>
        let response := set_database "✅ Available" response in
        let response := set_database_url (Some "✅ Configured") response in
        match DbHandle.name db with
        | DbHandle.Raises e =>
            set_database ("❌ Error: " ++ slice_to 50 e) response
        | name =>
            let response :=
              set_database_name
                (Some (match name with
                       | DbHandle.Value v => v
                       | _ => "✅ Connected"
                       end)) response in
            let response := set_connection_status "Connected" response in
            match DbHandle.list_collection_names db with
            | inr collections =>
                let response :=
                  set_collections (take 10 collections) response in
                set_database "✅ Connected & Working" response
            | inl e =>
                set_database
                  ("⚠️  Connected but Error: " ++ slice_to 50 e) response
            end
        end
    | None => set_database "⚠️  Available but not initialized" response
    end in
  let response :=
    set_database_url
      (Some (if getenv_truthy env "DATABASE_URL"
             then "✅ Set" else "❌ Not Set")) response in
  let response :=
    set_database_name
      (Some (if getenv_truthy env "DATABASE_NAME"
             then "✅ Set" else "❌ Not Set")) response in
  response.

(** The handle answers: reading [name] does not raise and the collections
    can be listed. *)
Definition working (db : option DbHandle.t) : Prop :=
  exists name cs,
    db = Some (DbHandle.mk name (inr cs)) /\
    forall e, name <> DbHandle.Raises e.

End TestDatabase.

(** ** A concrete driver

    Identifiers that print as 24 lower-case hexadecimal digits and parse
    from 24 hexadecimal digits of either case, and regular expressions made
    of ordinary characters and [.] only. They instantiate the results below
    on sample data. *)
Module Hex24.

Definition is_lower_hex (c : ascii) : bool :=
  let n := nat_of_ascii c in
  ((48 <=? n) && (n <=? 57) || (97 <=? n) && (n <=? 102))%nat.

Fixpoint all_lower_hex (s : string) : bool :=
  match s with
  | String c s' => is_lower_hex c && all_lower_hex s'
  | EmptyString => true
  end.

Definition canonical (s : string) : bool :=
  (String.length s =? 24)%nat && all_lower_hex s.

Definition oid : Type := { s : string | Is_true (canonical s) }.

Definition print (o : oid) : string := proj1_sig o.

Definition parse (s : string) : option oid :=
  let s' := PyStr.lower s in
  match decide (Is_true (canonical s')) with
  | left H => Some (exist _ s' H)
  | right _ => None
  end.

Lemma lower_ascii_lower_hex c :
  Is_true (is_lower_hex c) -> PyStr.lower_ascii c = c.
Proof.
  destruct c as [[] [] [] [] [] [] [] []]; vm_compute; done.
Qed.

Lemma lower_all_lower_hex s : Is_true (all_lower_hex s) -> PyStr.lower s = s.
Proof.
  induction s as [|c s IH]; cbn; [done|].
  intros [Hc Hs]%andb_True. by rewrite lower_ascii_lower_hex, IH.
Qed.

Lemma parse_print o : parse (print o) = Some o.
Proof.
  destruct o as [s Hs]. unfold parse, print. cbn [proj1_sig].
  assert (PyStr.lower s = s) as ->.
  { apply lower_all_lower_hex. by apply andb_True in Hs as [_ ?]. }
  destruct (decide (Is_true (canonical s))) as [H|H]; [|done].
  do 2 f_equal. apply proof_irrel.
Qed.

Lemma print_nonempty o : print o <> "".
Proof.
  destruct o as [[|c s] Hs]; [|done]. by vm_compute in Hs.
Qed.

#[export] Instance bson : Driver.Bson :=
  {| Driver.ObjectId := oid;
     Driver.ObjectId_of_str := parse;
     Driver.str_of_ObjectId := print;
     Driver.ObjectId_of_str_of := parse_print;
     Driver.str_of_ObjectId_nonempty := print_nonempty |}.

End Hex24.

Module LiteralRegex.

(** The characters with a special meaning in a pattern. *)
Definition is_meta (c : ascii) : bool :=
  existsb (Ascii.eqb c) (list_ascii_of_string "\^$.|?*+()[]{}").

Definition supported (p : string) : bool :=
  forallb (fun c => negb (is_meta c) || Ascii.eqb c ".")
    (list_ascii_of_string p).

(** [.] matches any character but a line feed; another character matches
    itself, whatever the case. *)
Definition match_char (a b : ascii) : bool :=
  if Ascii.eqb a "." then negb (Ascii.eqb b "010")
  else Ascii.eqb (PyStr.lower_ascii a) (PyStr.lower_ascii b).

Fixpoint match_here (p s : string) : bool :=
  match p, s with
  | EmptyString, _ => true
  | String a p', String b s' => match_char a b && match_here p' s'
  | String _ _, EmptyString => false
  end.

(** An unanchored search. *)
Fixpoint search_in (p s : string) : bool :=
  match_here p s ||
  match s with
  | String _ s' => search_in p s'
  | EmptyString => false
  end.

Definition compile (p : string) : option (string -> bool) :=
  if supported p then Some (search_in p) else None.

#[export] Instance regex : Driver.Regex := {| Driver.regex_i := compile |}.

End LiteralRegex.

(** ** Sample data

    The two customers and three vehicles of [seed_demo], a vehicle whose
    [customer_id] is not an identifier, one whose [customer_id] is empty, a
    checklist, and an invoice. *)
Module Sample.
Import Hex24 LiteralRegex.

Definition alex_id : oid := exist _ "650000000000000000000001" I.
Definition maria_id : oid := exist _ "650000000000000000000002" I.

Definition alex : Customer.doc oid :=
  Customer.mk alex_id "Alex Johnson" "+1 555-101-2020" "alex.j@example.com".
Definition maria : Customer.doc oid :=
  Customer.mk maria_id "Maria Gomez" "+1 555-303-4040" "maria.g@example.com".

Definition civic : Vehicle.doc oid :=
  Vehicle.mk (exist _ "650000000000000000000011" I) (Some (print alex_id))
    "1HGCM82633A004352" "AJX-4521" "Honda" "Civic" 2018 (Some "Blue").
Definition f150 : Vehicle.doc oid :=
  Vehicle.mk (exist _ "650000000000000000000012" I) (Some (print alex_id))
    "1FTFW1ET1EKE12345" "TRK-9087" "Ford" "F-150" 2014 (Some "Black").
Definition legend : Vehicle.doc oid :=
  Vehicle.mk (exist _ "650000000000000000000013" I) (Some (print maria_id))
    "JH4KA4650MC123456" "MGM-2277" "Acura" "Legend" 1991 (Some "Red").
Definition walk_in : Vehicle.doc oid :=
  Vehicle.mk (exist _ "650000000000000000000014" I) (Some "walk-in")
    "JM1BK32F781234567" "TMP-0001" "Mazda" "3" 2008 None.
Definition unowned : Vehicle.doc oid :=
  Vehicle.mk (exist _ "650000000000000000000015" I) (Some "")
    "JN1AZ4EH7FM730841" "TMP-0002" "Nissan" "370Z" 2015 None.

Definition seeded : World :=
  mkWorld (mkDb [alex; maria] [civic; f150; legend] []) [].
Definition with_walk_in : World :=
  mkWorld (mkDb [alex; maria] [civic; f150; legend; walk_in] []) [].
Definition with_unowned : World :=
  mkWorld (mkDb [alex; maria] [civic; f150; legend; unowned] []) [].

Definition invoice_id : oid := exist _ "650000000000000000000021" I.
Definition checks : Checks :=
  [("brakes", [("pads", "attention"); ("discs", "ok"); ("fluid", "fail")]);
   ("lights", [("low beam", "attention"); ("horn", "n/a")])].
Definition checks' : Checks :=
  [("lights", [("horn", "n/a"); ("low beam", "attention")]);
   ("brakes", [("fluid", "fail"); ("pads", "attention"); ("discs", "ok")])].
Definition invoice : Invoice.doc oid :=
  Invoice.mkdoc invoice_id (build_invoice "650000000000000000000031" checks).
Definition billed : World :=
  mkWorld (mkDb [alex; maria] [civic; f150; legend] [invoice]) [].
End Sample.

(** More sample data: the identifiers for [seed_demo], a payload for
    [create_inspection], and a [create_document] that files the sample
    invoice. *)
Module Demo.
Import Hex24 LiteralRegex Sample.
Local Open Scope handler_scope.

(** The identifiers of the sample documents, as the driver would have
    generated them for [seed_demo]. *)
Definition fresh : Fresh :=
  mkFresh alex_id maria_id (Vehicle._id civic) (Vehicle._id f150)
    (Vehicle._id legend).

Definition inspection_id : oid := exist _ "650000000000000000000031" I.

(** A [create_document] for the sample data: an invoice is filed under
    [invoice_id]; an inspection is answered with [inspection_id]. *)
Definition create_document (collection_name : string) (data : Document)
  : M string :=
  match data with
  | DInspection _ => ret (print inspection_id)
  | DInvoice i =>
      let! d := get_db in
      run! put_db (mkDb (db_customer d) (db_vehicle d)
                     (db_invoice d ++ [Invoice.mkdoc invoice_id i])) in
      ret (print invoice_id)
  end.

Definition payload : InspectionPayload.t :=
  InspectionPayload.mk (print alex_id) (print (Vehicle._id civic)) checks
    None None.

End Demo.


(** * Properties *)

(** ** Counting statuses *)
Section Counting.

Lemma occurrences_nil status : occurrences status [] = 0.
Proof. reflexivity. Qed.

Lemma occurrences_cons status v l :
  occurrences status (v :: l) =
  (if String.eqb v status then 1 else 0) + occurrences status l.
Proof.
  unfold occurrences. rewrite filter_cons.
  destruct (String.eqb_spec v status) as [->|Hne].
  - rewrite decide_True by done. cbn [length]. lia.
  - rewrite decide_False by done. lia.
Qed.

Lemma occurrences_app status l1 l2 :
  occurrences status (l1 ++ l2) =
  occurrences status l1 + occurrences status l2.
Proof.
  unfold occurrences. rewrite filter_app, length_app. lia.
Qed.

Lemma occurrences_nonneg status l : 0 <= occurrences status l.
Proof. unfold occurrences. lia. Qed.

Lemma occurrences_perm status l1 l2 :
  l1 ≡ₚ l2 -> occurrences status l1 = occurrences status l2.
Proof. intros H. unfold occurrences. by rewrite H. Qed.

(** The inner loop adds the occurrences found in one section. *)
Lemma count_section l : forall counts,
  fold_left count_status l counts =
  mkCounts (attention counts + occurrences "attention" l)
           (fail counts + occurrences "fail" l).
Proof.
  induction l as [|v l IH]; intros [a f]; cbn [fold_left attention fail].
  - rewrite !occurrences_nil. f_equal; lia.
  - rewrite IH, !occurrences_cons. unfold count_status.
    destruct (String.eqb_spec v "attention") as [Ea|Ea],
             (String.eqb_spec v "fail") as [Ef|Ef];
      try (rewrite Ea in Ef; discriminate Ef);
      cbn [attention fail]; f_equal; lia.
Qed.

Lemma count_sections checks : forall counts,
  fold_left
    (fun counts section => fold_left count_status (snd <$> section) counts)
    (snd <$> checks) counts =
  mkCounts (attention counts + occurrences "attention" (statuses checks))
           (fail counts + occurrences "fail" (statuses checks)).
Proof.
  induction checks as [|[name section] checks IH]; intros [a f].
  - cbn. rewrite !occurrences_nil. f_equal; lia.
  - rewrite fmap_cons. cbn [fold_left snd]. rewrite count_section, IH.
    unfold statuses. rewrite fmap_cons. cbn [concat snd attention fail].
    rewrite !occurrences_app. f_equal; lia.
Qed.

Lemma count_checks_occurrences checks :
  count_checks checks =
  mkCounts (occurrences "attention" (statuses checks))
           (occurrences "fail" (statuses checks)).
Proof. unfold count_checks. by rewrite count_sections. Qed.

Lemma same_section_statuses s1 s2 :
  same_section s1 s2 -> snd <$> s1.2 ≡ₚ snd <$> s2.2.
Proof. intros [_ H]. by rewrite H. Qed.

Lemma same_checks_statuses c1 c2 :
  same_checks c1 c2 -> statuses c1 ≡ₚ statuses c2.
Proof.
  intros (c & Hsec & Hperm). transitivity (statuses c); unfold statuses.
  - clear Hperm. induction Hsec as [|s1 s2 l1 l2 Hs _ IH]; [done|].
    rewrite !fmap_cons. cbn [concat]. apply Permutation_app; [|exact IH].
    by apply same_section_statuses.
  - by rewrite Hperm.
Qed.

End Counting.

(** ** The invoice *)

(** C1. The two counters hold the number of [attention] and of [fail]
    statuses over all sections (any other status string is not counted), and
    the line items are, in this order: the preventive item when the first
    counter is positive, the critical item when the second is, and the base
    fee, nothing else. *)
Theorem line_items_from_counts (ins_id : string) (checks : Checks) :
  let a := occurrences "attention" (statuses checks) in
  let f := occurrences "fail" (statuses checks) in
  count_checks checks = mkCounts a f /\
  Invoice.line_items (build_invoice ins_id checks) =
    (if decide (0 < a)
     then [LineItem.mk "Preventive maintenance items" a (Float64.float_of_Z 25)]
     else [])
    ++ (if decide (0 < f)
        then [LineItem.mk "Critical repair items" f (Float64.float_of_Z 60)]
        else [])
    ++ [LineItem.mk "Base inspection fee" 1 (Float64.float_of_Z 49)].
Proof.
  intros a f. split; [apply count_checks_occurrences|].
  cbn [build_invoice Invoice.line_items]. rewrite count_checks_occurrences.
  fold a f. unfold build_line_items. cbn [attention fail].
  pose proof (occurrences_nonneg "attention" (statuses checks)) as Ha.
  pose proof (occurrences_nonneg "fail" (statuses checks)) as Hf.
  fold a in Ha. fold f in Hf.
  destruct (Z.eqb_spec a 0) as [Ea|Ea], (Z.eqb_spec f 0) as [Ef|Ef];
    repeat case_decide; try lia; cbn [negb app]; reflexivity.
Qed.

(** ** Binary64 arithmetic on amounts *)
Section Binary64.
Import Float64.

(** *** Digits and shifts *)

(** Name a power of two, keeping that it is positive. *)
Ltac pow_var e :=
  let x := fresh "pw" in
  let H := fresh "Hpw" in
  assert (0 < 2 ^ e) as H by (apply Z.pow_pos_nonneg; lia);
  set (x := 2 ^ e) in *; clearbody x.

Lemma digits2_pos_bounds p :
  2 ^ (Zpos (digits2_pos p) - 1) <= Zpos p < 2 ^ Zpos (digits2_pos p).
Proof.
  induction p as [p IH|p IH|]; cbn [digits2_pos].
  - rewrite Pos2Z.inj_succ, (Pos2Z.inj_xI p).
    replace (Z.succ (Zpos (digits2_pos p)) - 1)
      with (Z.succ (Zpos (digits2_pos p) - 1)) by lia.
    rewrite !Z.pow_succ_r by lia.
    pow_var (Zpos (digits2_pos p) - 1). pow_var (Zpos (digits2_pos p)). lia.
  - rewrite Pos2Z.inj_succ, (Pos2Z.inj_xO p).
    replace (Z.succ (Zpos (digits2_pos p)) - 1)
      with (Z.succ (Zpos (digits2_pos p) - 1)) by lia.
    rewrite !Z.pow_succ_r by lia.
    pow_var (Zpos (digits2_pos p) - 1). pow_var (Zpos (digits2_pos p)). lia.
  - cbn. lia.
Qed.

Lemma digits2_pos_unique p k :
  2 ^ (k - 1) <= Zpos p < 2 ^ k -> Zpos (digits2_pos p) = k.
Proof.
  intros [Hlo Hhi]. pose proof (digits2_pos_bounds p) as [Hlo' Hhi'].
  set (d := Zpos (digits2_pos p)) in *.
  assert (0 < d) by (unfold d; lia).
  destruct (Z.lt_trichotomy d k) as [Hlt|[Heq|Hgt]]; [|done|].
  - assert (2 ^ d <= 2 ^ (k - 1)) by (apply Z.pow_le_mono_r; lia). lia.
  - destruct (Z.le_gt_cases k 0) as [Hk|Hk].
    + assert (2 ^ k <= 2 ^ 0) by (apply Z.pow_le_mono_r; lia).
      change (2 ^ 0) with 1 in *. lia.
    + assert (2 ^ k <= 2 ^ (d - 1)) by (apply Z.pow_le_mono_r; lia). lia.
Qed.

Lemma iter_pos_nat {A} (f : A -> A) p : forall x,
  SpecFloat.iter_pos f p x = Nat.iter (Pos.to_nat p) f x.
Proof.
  induction p as [p IH|p IH|]; intros x; cbn [SpecFloat.iter_pos].
  - rewrite !IH, Pos2Nat.inj_xI.
    replace (S (2 * Pos.to_nat p))%nat
      with (Pos.to_nat p + S (Pos.to_nat p))%nat by lia.
    by rewrite Nat.iter_add, Nat.iter_succ_r.
  - rewrite !IH, Pos2Nat.inj_xO.
    replace (2 * Pos.to_nat p)%nat
      with (Pos.to_nat p + Pos.to_nat p)%nat by lia.
    by rewrite Nat.iter_add.
  - done.
Qed.

Lemma shr_1_fields mrs :
  0 <= shr_m mrs ->
  shr_m (shr_1 mrs) = shr_m mrs / 2 /\
  shr_r (shr_1 mrs) = Z.odd (shr_m mrs) /\
  shr_s (shr_1 mrs) = shr_r mrs || shr_s mrs.
Proof.
  destruct mrs as [m r s]. cbn [shr_m shr_r shr_s]. intros Hm.
  destruct m as [|[p|p|]|p]; cbn [shr_1 shr_m shr_r shr_s]; try lia.
  - done.
  - split_and!; [|done|done]. rewrite Pos2Z.inj_xI.
    apply (Z.div_unique _ _ _ 1); lia.
  - split_and!; [|done|done]. rewrite Pos2Z.inj_xO.
    apply (Z.div_unique _ _ _ 0); lia.
  - done.
Qed.

(** [n] right shifts divide by [2^n]; from an exact position, no bit is
    lost when [2^n] divides the mantissa. *)
Lemma shr_iter (n : nat) mrs :
  0 <= shr_m mrs ->
  let res := Nat.iter n shr_1 mrs in
  shr_m res = shr_m mrs / 2 ^ Z.of_nat n /\
  (shr_r mrs = false -> shr_s mrs = false ->
   shr_m mrs mod 2 ^ Z.of_nat n = 0 ->
   shr_r res = false /\ shr_s res = false).
Proof.
  intros Hm. induction n as [|n [IHm IHx]].
  - cbn. rewrite Z.div_1_r. by auto.
  - cbv zeta in *. rewrite Nat.iter_succ.
    set (res := Nat.iter n shr_1 mrs) in *.
    assert (0 <= shr_m res) as Hres.
    { rewrite IHm. apply Z.div_pos; lia. }
    destruct (shr_1_fields res Hres) as (-> & -> & ->).
    rewrite Nat2Z.inj_succ, Z.pow_succ_r by lia. split.
    + rewrite IHm, Z.div_div by lia. f_equal. lia.
    + intros Hr Hs Hmod.
      apply Z.mod_divide in Hmod as [k Hk]; [|lia].
      assert (shr_m mrs mod 2 ^ Z.of_nat n = 0) as Hmod'.
      { rewrite Hk. replace (k * (2 * 2 ^ Z.of_nat n))
          with (k * 2 * 2 ^ Z.of_nat n) by lia.
        apply Z_mod_mult. }
      destruct (IHx Hr Hs Hmod') as [-> ->]. split; [|done].
      rewrite IHm, Hk.
      replace (k * (2 * 2 ^ Z.of_nat n)) with (k * 2 * 2 ^ Z.of_nat n) by lia.
      rewrite Z_div_mult by lia.
      rewrite Z.odd_mul. cbn. apply andb_false_r.
  Qed.

Lemma round_nearest_even_bounds m l :
  m <= round_nearest_even m l <= m + 1.
Proof.
  destruct l as [|[]]; cbn; try lia. destruct (Z.even m); lia.
Qed.

Lemma loc_of_shr_record_of_loc m l :
  loc_of_shr_record (shr_record_of_loc m l) = l.
Proof. by destruct l as [|[]]. Qed.

Lemma shr_record_of_loc_m m l : shr_m (shr_record_of_loc m l) = m.
Proof. by destruct l as [|[]]. Qed.

Lemma pos_iter_xO p k : Zpos (Pos.iter xO p k) = Zpos p * 2 ^ Zpos k.
Proof.
  induction k as [|k IH] using Pos.peano_ind.
  - cbn. lia.
  - rewrite Pos.iter_succ, Pos2Z.inj_xO, IH, Pos2Z.inj_succ, Z.pow_succ_r; lia.
Qed.

Lemma fexp_normal e : -1074 <= e - 53 -> fexp 53 1024 e = e - 53.
Proof. unfold fexp, emin. lia. Qed.

Lemma shr_spec mrs e n :
  0 <= shr_m mrs -> 0 <= n ->
  (shr mrs e n).2 = e + n /\
  shr_m (shr mrs e n).1 = shr_m mrs / 2 ^ n /\
  (shr_r mrs = false -> shr_s mrs = false -> shr_m mrs mod 2 ^ n = 0 ->
   loc_of_shr_record (shr mrs e n).1 = loc_Exact).
Proof.
  intros Hm Hn. destruct n as [|p|p]; [| |lia]; cbn [shr fst snd].
  - rewrite Z.div_1_r. split_and!; [lia|done|].
    destruct mrs as [m r s]. cbn. by intros -> ->.
  - rewrite iter_pos_nat.
    destruct (shr_iter (Pos.to_nat p) mrs Hm) as [Hdiv Hexact].
    rewrite positive_nat_Z in Hdiv, Hexact. split_and!; [done|done|].
    intros Hr Hs Hmod. destruct (Hexact Hr Hs Hmod) as [Hr' Hs'].
    destruct (Nat.iter _ _ _) as [m' r' s']. cbn in Hr', Hs'. by subst.
Qed.

(** Rounding a mantissa of at least 53 bits, away from the subnormal and
    overflow ranges: the result is a 53-bit mantissa, within one unit of
    the dropped position of the exact value, and equal to it when the
    dropped bits are zero. *)
Lemma binary_round_aux_spec p ex lx :
  let n := Zpos (digits2_pos p) - 53 in
  0 <= n -> -1074 <= ex + n <= 970 ->
  exists m' e',
    binary_round_aux 53 1024 false (Zpos p) ex lx = S754_finite false m' e' /\
    2 ^ 52 <= Zpos m' < 2 ^ 53 /\
    ex + n <= e' <= ex + n + 1 /\
    Zpos p - 2 ^ n <= Zpos m' * 2 ^ (e' - ex) <= Zpos p + 2 ^ n /\
    (lx = loc_Exact -> Zpos p mod 2 ^ n = 0 ->
     Zpos m' * 2 ^ (e' - ex) = Zpos p).
Proof.
  intros n Hn Hex. unfold binary_round_aux. unfold shr_fexp at 1.
  cbn [Zdigits2].
  rewrite fexp_normal by (fold n; lia).
  replace (Zpos (digits2_pos p) + ex - 53 - ex) with n by (unfold n; lia).
  pose proof (shr_spec (shr_record_of_loc (Zpos p) lx) ex n) as Hshr.
  rewrite shr_record_of_loc_m in Hshr.
  destruct Hshr as (He1 & Hq & Hexact); [lia|lia|].
  destruct (shr (shr_record_of_loc (Zpos p) lx) ex n) as [mrs1 e1].
  cbn [fst snd] in *. subst e1.
  pose proof (digits2_pos_bounds p) as [Hlo Hhi].
  replace (Zpos (digits2_pos p) - 1) with (52 + n) in Hlo by (unfold n; lia).
  replace (Zpos (digits2_pos p)) with (53 + n) in Hhi by (unfold n; lia).
  rewrite Z.pow_add_r in Hlo, Hhi by lia.
  pose proof (Z.div_mod (Zpos p) (2 ^ n)) as Hdm.
  pose proof (Z.mod_pos_bound (Zpos p) (2 ^ n)) as Hmb.
  assert (0 < 2 ^ n) as Hpw by (apply Z.pow_pos_nonneg; lia).
  specialize (Hdm ltac:(lia)). specialize (Hmb Hpw).
  set (q := Zpos p / 2 ^ n) in *. set (r := Zpos p mod 2 ^ n) in *.
  assert (2 ^ 52 <= q < 2 ^ 53) as Hqb by nia.
  pose proof (round_nearest_even_bounds q (loc_of_shr_record mrs1)) as Hrb.
  rewrite Hq.
  set (r1 := round_nearest_even q (loc_of_shr_record mrs1)) in *.
  assert (lx = loc_Exact -> r = 0 -> r1 = q) as Hr1.
  { intros -> Hr0. unfold r1. rewrite Hexact; done. }
  clearbody r1. clear Hexact Hq mrs1.
  destruct r1 as [|pr|pr]; [lia| |lia].
  destruct (Z.eq_dec (Zpos pr) (2 ^ 53)) as [Hcarry|Hnocarry].
  - unfold shr_fexp. cbn [Zdigits2].
    rewrite (digits2_pos_unique pr 54) by (change (54 - 1) with 53; lia).
    rewrite fexp_normal by lia.
    replace (54 + (ex + n) - 53 - (ex + n)) with 1 by lia.
    pose proof (shr_spec (shr_record_of_loc (Zpos pr) loc_Exact) (ex + n) 1)
      as Hshr.
    rewrite shr_record_of_loc_m in Hshr.
    destruct Hshr as (He2 & Hm2 & _); [lia|lia|].
    destruct (shr _ (ex + n) 1) as [mrs2 e2]. cbn [fst snd] in *. subst e2.
    rewrite Hm2, Hcarry. change (2 ^ 53 / 2 ^ 1) with (Zpos (2 ^ 52)).
    replace (Z.leb (ex + n + 1) (1024 - 53)) with true
      by (symmetry; apply Z.leb_le; lia).
    eexists _, _. split; [reflexivity|].
    replace (ex + n + 1 - ex) with (n + 1) by lia.
    rewrite Z.pow_add_r, Z.pow_1_r by lia.
    split_and!; [lia|lia|lia|lia|nia|nia|].
    intros Hl Hr. specialize (Hr1 Hl Hr). lia.
  - assert (Zpos pr < 2 ^ 53) as Hlt by lia.
    unfold shr_fexp. cbn [Zdigits2].
    rewrite (digits2_pos_unique pr 53) by (change (53 - 1) with 52; lia).
    rewrite fexp_normal by lia.
    replace (53 + (ex + n) - 53 - (ex + n)) with 0 by lia.
    cbn [shr_record_of_loc shr shr_m].
    replace (Z.leb (ex + n) (1024 - 53)) with true
      by (symmetry; apply Z.leb_le; lia).
    eexists _, _. split; [reflexivity|].
    replace (ex + n - ex) with n by lia.
    split_and!; [lia|lia|lia|lia|nia|nia|].
    intros Hl Hr. specialize (Hr1 Hl Hr). nia.
Qed.

Lemma shl_align_spec mx ex ex' :
  ex' <= ex ->
  (shl_align mx ex ex').2 = ex' /\
  Zpos (shl_align mx ex ex').1 = Zpos mx * 2 ^ (ex - ex').
Proof.
  intros Hle. unfold shl_align.
  destruct (ex' - ex) as [|d|d] eqn:E; [|lia|]; cbn [fst snd].
  - replace (ex - ex') with 0 by lia. split; lia.
  - rewrite pos_iter_xO. replace (ex - ex') with (Zpos d) by lia. done.
Qed.

Lemma pow2_lt_inv a b : 0 <= b -> 2 ^ a < 2 ^ b -> a < b.
Proof.
  intros Hb H. destruct (Z.lt_ge_cases a b) as [|Hge]; [done|].
  assert (2 ^ b <= 2 ^ a) by (apply Z.pow_le_mono_r; lia). lia.
Qed.

(** *** Floats that hold an integer *)

Lemma holds_range x n : holds x n -> 0 < n < 2 ^ 53.
Proof.
  intros (m & e & _ & Hm & He & Hv).
  assert (0 < 2 ^ (- e)) by (apply Z.pow_pos_nonneg; lia). nia.
Qed.

Lemma holds_unique x y n : holds x n -> holds y n -> x = y.
Proof.
  intros (m & e & -> & Hm & He & Hv) (m' & e' & -> & Hm' & He' & Hv').
  assert (0 < 2 ^ (- e)) by (apply Z.pow_pos_nonneg; lia).
  assert (0 < n) by nia.
  assert (e = e') as <-.
  { destruct (Z.lt_trichotomy e e') as [Hlt|[?|Hlt]]; [|done|]; exfalso.
    - replace (- e) with (- e' + (e' - e)) in Hv by lia.
      rewrite Z.pow_add_r in Hv by lia.
      assert (2 ^ 1 <= 2 ^ (e' - e)) by (apply Z.pow_le_mono_r; lia).
      assert (0 < 2 ^ (- e')) by (apply Z.pow_pos_nonneg; lia).
      change (2 ^ 1) with 2 in *. nia.
    - replace (- e') with (- e + (e - e')) in Hv' by lia.
      rewrite Z.pow_add_r in Hv' by lia.
      assert (2 ^ 1 <= 2 ^ (e - e')) by (apply Z.pow_le_mono_r; lia).
      assert (0 < 2 ^ (- e)) by (apply Z.pow_pos_nonneg; lia).
      change (2 ^ 1) with 2 in *. nia. }
  do 2 f_equal. lia.
Qed.

(** Rounding is exact on a mantissa that holds an integer below 2^53. *)
Lemma binary_round_aux_holds p ex n :
  2 ^ 52 <= Zpos p -> -1074 <= ex <= 0 -> 0 < n < 2 ^ 53 ->
  Zpos p = n * 2 ^ (- ex) ->
  holds (binary_round_aux 53 1024 false (Zpos p) ex loc_Exact) n.
Proof.
  intros Hp Hex Hn Hv.
  pose proof (digits2_pos_bounds p) as [Hlo Hhi].
  set (k := Zpos (digits2_pos p) - 53).
  assert (0 <= k).
  { unfold k. assert (52 < Zpos (digits2_pos p)); [|lia].
    apply pow2_lt_inv; lia. }
  replace (Zpos (digits2_pos p) - 1) with (52 + k) in Hlo by (unfold k; lia).
  replace (Zpos (digits2_pos p)) with (53 + k) in Hhi by (unfold k; lia).
  assert (k <= - ex).
  { assert (52 + k < 53 + - ex); [|lia]. apply pow2_lt_inv; [lia|].
    rewrite (Z.pow_add_r 2 53 (- ex)) by lia.
    assert (0 < 2 ^ (- ex)) by (apply Z.pow_pos_nonneg; lia). nia. }
  destruct (binary_round_aux_spec p ex loc_Exact)
    as (m' & e' & -> & Hm' & He' & _ & Hexact); [by fold k|fold k; lia|].
  fold k in He', Hexact.
  assert (Zpos p mod 2 ^ k = 0) as Hmod.
  { rewrite Hv. replace (- ex) with (- ex - k + k) by lia.
    rewrite Z.pow_add_r, Z.mul_assoc by lia. apply Z_mod_mult. }
  specialize (Hexact eq_refl Hmod).
  rewrite Z.pow_add_r in Hlo, Hhi by lia.
  assert (0 < 2 ^ k) by (apply Z.pow_pos_nonneg; lia).
  assert (e' = ex + k) as ->.
  { destruct (Z.eq_dec e' (ex + k)) as [|Hne]; [done|]. exfalso.
    replace e' with (ex + k + 1) in Hexact by lia.
    replace (ex + k + 1 - ex) with (k + 1) in Hexact by lia.
    rewrite Z.pow_add_r, Z.pow_1_r in Hexact by lia. nia. }
  exists m', (ex + k). split_and!; [done|lia|lia|lia|].
  replace (ex + k - ex) with k in Hexact by lia.
  rewrite Hv in Hexact. replace (- ex) with (- (ex + k) + k) in Hexact by lia.
  rewrite Z.pow_add_r in Hexact by lia. nia.
Qed.

Lemma binary_round_normal p ex :
  2 ^ 52 <= Zpos p -> -1074 <= ex ->
  binary_round 53 1024 false p ex =
  binary_round_aux 53 1024 false (Zpos p) ex loc_Exact.
Proof.
  intros Hp Hex. unfold binary_round.
  pose proof (digits2_pos_bounds p) as [_ Hhi].
  assert (52 < Zpos (digits2_pos p)) by (apply pow2_lt_inv; lia).
  rewrite fexp_normal by lia. unfold shl_align.
  by destruct (Zpos (digits2_pos p) + ex - 53 - ex) eqn:E; [| |lia].
Qed.

(** [float(n)] holds [n] below 2^53. *)
Lemma float_of_Z_holds n : 0 < n < 2 ^ 53 -> holds (float_of_Z n) n.
Proof.
  intros Hn. destruct n as [|p|p]; [lia| |lia].
  unfold float_of_Z, prec, emax. cbn [binary_normalize]. unfold binary_round.
  pose proof (digits2_pos_bounds p) as [Hlo Hhi].
  set (d := Zpos (digits2_pos p)) in *.
  assert (0 < d) by (unfold d; lia).
  assert (d <= 53).
  { assert (d - 1 < 53); [|lia]. apply pow2_lt_inv; lia. }
  rewrite Z.add_0_r, fexp_normal by lia.
  destruct (shl_align_spec p 0 (d - 53)) as [He Hm]; [lia|].
  destruct (shl_align p 0 (d - 53)) as [mz ez]. cbn [fst snd] in *. subst ez.
  replace (0 - (d - 53)) with (53 - d) in Hm by lia.
  assert (2 ^ 53 = 2 ^ (d - 1) * 2 ^ (53 - d) * 2) as Hsplit.
  { rewrite <- Z.pow_add_r by lia. replace (d - 1 + (53 - d)) with 52 by lia.
    done. }
  assert (0 < 2 ^ (53 - d)) by (apply Z.pow_pos_nonneg; lia).
  assert (2 ^ d = 2 * 2 ^ (d - 1)) as Hd.
  { replace d with (Z.succ (d - 1)) at 1 by lia. rewrite Z.pow_succ_r; lia. }
  apply binary_round_aux_holds.
  - nia.
  - lia.
  - lia.
  - rewrite Hm. f_equal. f_equal. lia.
Qed.

Lemma holds_exponent m e n :
  2 ^ 52 <= Zpos m < 2 ^ 53 -> e <= 0 -> Zpos m = n * 2 ^ (- e) ->
  -52 <= e /\ 0 < n.
Proof.
  intros Hm He Hv.
  assert (0 < 2 ^ (- e)) by (apply Z.pow_pos_nonneg; lia).
  assert (0 < n) by nia. split; [|done].
  assert (- e < 53); [|lia]. apply pow2_lt_inv; [lia|].
  pow_var (- e). nia.
Qed.

(** A product below 2^53 is exact. *)
Lemma fmul_holds x y a b :
  holds x a -> holds y b -> a * b < 2 ^ 53 -> holds (fmul x y) (a * b).
Proof.
  intros (mx & ex & -> & Hmx & Hex & Hvx) (my & ey & -> & Hmy & Hey & Hvy) Hab.
  destruct (holds_exponent _ _ _ Hmx Hex Hvx).
  destruct (holds_exponent _ _ _ Hmy Hey Hvy).
  unfold fmul, prec, emax. cbn [SFmul xorb].
  apply binary_round_aux_holds.
  - rewrite Pos2Z.inj_mul. nia.
  - lia.
  - nia.
  - rewrite Pos2Z.inj_mul, Hvx, Hvy.
    replace (- (ex + ey)) with (- ex + - ey) by lia.
    rewrite Z.pow_add_r by lia. ring.
Qed.

(** A sum below 2^53 is exact. *)
Lemma fadd_holds x y a b :
  holds x a -> holds y b -> a + b < 2 ^ 53 -> holds (fadd x y) (a + b).
Proof.
  intros (mx & ex & -> & Hmx & Hex & Hvx) (my & ey & -> & Hmy & Hey & Hvy) Hab.
  destruct (holds_exponent _ _ _ Hmx Hex Hvx).
  destruct (holds_exponent _ _ _ Hmy Hey Hvy).
  unfold fadd, prec, emax. cbn [SFadd cond_Zopp].
  set (ez := Z.min ex ey).
  destruct (shl_align_spec mx ex ez) as [_ Hx]; [unfold ez; lia|].
  destruct (shl_align_spec my ey ez) as [_ Hy]; [unfold ez; lia|].
  set (px := (shl_align mx ex ez).1) in *.
  set (py := (shl_align my ey ez).1) in *.
  change (Zpos px + Zpos py) with (Zpos (px + py)). cbn [binary_normalize].
  assert (0 < 2 ^ (ex - ez)) by (apply Z.pow_pos_nonneg; unfold ez; lia).
  assert (0 < 2 ^ (ey - ez)) by (apply Z.pow_pos_nonneg; unfold ez; lia).
  rewrite binary_round_normal; [|rewrite Pos2Z.inj_add; nia|unfold ez; lia].
  apply binary_round_aux_holds.
  - rewrite Pos2Z.inj_add. nia.
  - unfold ez. lia.
  - lia.
  - rewrite Pos2Z.inj_add, Hx, Hy, Hvx, Hvy, <- !Z.mul_assoc, <- !Z.pow_add_r
      by (unfold ez; lia).
    replace (- ex + (ex - ez)) with (- ez) by lia.
    replace (- ey + (ey - ez)) with (- ez) by lia. ring.
Qed.

(** *** Rounding to hundredths *)

Lemma div_half_even_near n d k :
  0 < d -> - d < 2 * (n - k * d) < d -> div_half_even n d = k.
Proof.
  intros Hd Hnear. unfold div_half_even.
  pose proof (Z.div_mod n d ltac:(lia)) as Hdm.
  pose proof (Z.mod_pos_bound n d Hd) as Hmb.
  set (q := n / d) in *. set (r := n mod d) in *.
  assert (k = q \/ k = q + 1) as [->| ->] by nia.
  - assert (2 * r < d) as Hlt by nia.
    apply Z.compare_lt_iff in Hlt. by rewrite Hlt.
  - assert (d < 2 * r) as Hgt by nia.
    apply Z.compare_gt_iff in Hgt. by rewrite Hgt.
Qed.

Lemma cents_of_near m e k :
  e < 0 -> - 2 ^ (- e) < 2 * (100 * Zpos m - k * 2 ^ (- e)) < 2 ^ (- e) ->
  cents_of m e = k.
Proof.
  intros He Hnear. destruct e as [|p|p]; [lia|lia|]. unfold cents_of.
  change (- Zneg p) with (Zpos p) in Hnear.
  apply div_half_even_near; [|done]. by apply Z.pow_pos_nonneg.
Qed.

Lemma lit_0_08_value : 100 * 5764607523034235 = 8 * 2 ^ 56 + 12.
Proof. reflexivity. Qed.

(** Eight percent of an integer amount, computed in binary64 and rounded
    to cents, is the exact number of cents. *)
Lemma taxes_cents x s :
  holds x s -> s < 2 ^ 40 ->
  exists m e, fmul x lit_0_08 = S754_finite false m e /\
              cents_of m e = 8 * s.
Proof.
  intros (mx & ex & -> & Hmx & Hex & Hvx) Hs.
  destruct (holds_exponent _ _ _ Hmx Hex Hvx) as [Hex' Hs0].
  unfold fmul, lit_0_08, prec, emax. cbn [SFmul xorb].
  set (M := 5764607523034235%positive).
  assert (100 * Zpos M = 8 * 2 ^ 56 + 12) as HM by exact lit_0_08_value.
  assert (2 ^ 52 <= Zpos M < 2 ^ 53) as HMb by (unfold M; lia).
  pose proof (digits2_pos_bounds (mx * M)) as [Hlo Hhi].
  set (n := Zpos (digits2_pos (mx * M)) - 53).
  replace (Zpos (digits2_pos (mx * M)) - 1) with (52 + n) in Hlo
    by (unfold n; lia).
  replace (Zpos (digits2_pos (mx * M))) with (53 + n) in Hhi
    by (unfold n; lia).
  rewrite Pos2Z.inj_mul in Hlo, Hhi.
  assert (52 <= n <= 53) as Hn.
  { split.
    - assert (104 < 53 + n); [|lia]. apply pow2_lt_inv; [unfold n; lia|]. nia.
    - assert (52 + n < 106); [|lia]. apply pow2_lt_inv; [lia|].
      eapply Z.le_lt_trans; [exact Hlo|]. nia. }
  destruct (binary_round_aux_spec (mx * M) (ex + -56) loc_Exact)
    as (m' & e' & -> & Hm' & He' & Hnear & _); [fold n; lia|fold n; lia|].
  fold n in He', Hnear. rewrite Pos2Z.inj_mul in Hnear.
  exists m', e'. split; [done|]. apply cents_of_near; [lia|].
  (* the scale of the result, of the argument, and of the product *)
  set (W := 2 ^ (- e')). set (A := 2 ^ (- ex)) in *.
  set (T := 2 ^ (e' - (ex + -56))) in *.
  assert (0 < W) by (apply Z.pow_pos_nonneg; lia).
  assert (0 < T) as HT by (apply Z.pow_pos_nonneg; lia).
  assert (W * T = 2 ^ 56 * A) as HWT.
  { unfold W, T, A. rewrite <- !Z.pow_add_r by lia. f_equal. lia. }
  assert (2 ^ n <= 2 ^ 53) as Hpn by (apply Z.pow_le_mono_r; lia).
  assert (2 ^ 12 < A) as HA by nia.
  set (X := Zpos m' * T) in *.
  assert (100 * X - 8 * s * (W * T)
          = 100 * (X - Zpos mx * Zpos M) + 12 * Zpos mx)
    as Hdiff by (rewrite HWT; nia).
  assert (- (W * T) < 2 * (100 * X - 8 * s * (W * T)) < W * T) as Hscaled.
  { rewrite Hdiff, HWT. lia. }
  unfold X in Hscaled. nia.
Qed.

(** The double nearest to a number of cents: its value is within three
    units of the last place of the exact quotient (a coarse bound, which
    is all that rounding the total needs). *)
Lemma float_of_cents_near k :
  Zpos k < 2 ^ 50 ->
  exists m e, float_of_cents false (Zpos k) = S754_finite false m e /\
              2 ^ 52 <= Zpos m < 2 ^ 53 /\ e <= -8 /\
              -300 <= 100 * Zpos m - Zpos k * 2 ^ (- e) <= 300.
Proof.
  intros Hk. unfold float_of_cents, prec, emax. cbn [SFdiv xorb].
  unfold SFdiv_core_binary. cbn [Zdigits2].
  change (Zpos (digits2_pos 100)) with 7.
  pose proof (digits2_pos_bounds k) as [Hlo Hhi].
  set (d := Zpos (digits2_pos k)) in *.
  assert (0 < d) by (unfold d; lia).
  assert (d <= 50).
  { assert (d - 1 < 50); [|lia]. apply pow2_lt_inv; lia. }
  replace (Z.min (fexp 53 1024 (d + 0 - (7 + 0))) (0 - 0)) with (d - 60)
    by (unfold fexp, emin; lia).
  replace (0 - 0 - (d - 60)) with (60 - d) by lia.
  destruct (60 - d) as [|sp|sp] eqn:Es; [lia| |lia].
  rewrite Z.shiftl_mul_pow2 by lia. rewrite <- Es. clear Es sp.
  assert (2 ^ 60 = 2 ^ (d - 1) * 2 ^ (60 - d) * 2) as Hsplit.
  { rewrite <- Z.pow_add_r by lia. replace (d - 1 + (60 - d)) with 59 by lia.
    done. }
  assert (2 ^ d = 2 * 2 ^ (d - 1)) as Hd.
  { replace d with (Z.succ (d - 1)) at 1 by lia. rewrite Z.pow_succ_r; lia. }
  assert (0 < 2 ^ (60 - d)) as Hs by (apply Z.pow_pos_nonneg; lia).
  set (Sc := 2 ^ (60 - d)) in *.
  pose proof (Z_div_mod (Zpos k * Sc) 100 eq_refl) as Hdm.
  destruct (Z.div_eucl (Zpos k * Sc) 100) as [q r]. destruct Hdm as [Hq Hr].
  assert (2 ^ 52 <= q < 2 ^ 54) as Hqb by nia.
  destruct q as [|pq|pq]; [lia| |lia].
  pose proof (digits2_pos_bounds pq) as [Hlo' Hhi'].
  set (n := Zpos (digits2_pos pq) - 53).
  replace (Zpos (digits2_pos pq) - 1) with (52 + n) in Hlo' by (unfold n; lia).
  replace (Zpos (digits2_pos pq)) with (53 + n) in Hhi' by (unfold n; lia).
  assert (0 <= n <= 1) as Hn.
  { split.
    - assert (52 < 53 + n); [|lia]. apply pow2_lt_inv; [unfold n; lia|]. lia.
    - assert (52 + n < 54); [|lia]. apply pow2_lt_inv; lia. }
  destruct (binary_round_aux_spec pq (d - 60) (new_location 100 r))
    as (m' & e' & -> & Hm' & He' & Hnear & _); [fold n; lia|fold n; lia|].
  fold n in He', Hnear.
  exists m', e'. split_and!; [done|lia|lia|lia| |].
  all: assert (2 ^ n <= 2 ^ 1) as Hpn by (apply Z.pow_le_mono_r; lia).
  all: change (2 ^ 1) with 2 in Hpn.
  all: set (T := 2 ^ (e' - (d - 60))) in *.
  all: assert (1 <= T) as HT
      by (change 1 with (2 ^ 0); apply Z.pow_le_mono_r; lia).
  all: assert (Sc = 2 ^ (- e') * T) as HS
      by (unfold Sc, T; rewrite <- Z.pow_add_r by lia; f_equal; lia).
  all: assert (0 < 2 ^ (- e')) by (apply Z.pow_pos_nonneg; lia).
  all: set (W := 2 ^ (- e')) in *; nia.
Qed.

(** An integer amount plus its taxes, computed in binary64 and rounded to
    cents, is the exact number of cents. *)
Lemma total_cents x s mt et :
  holds x s -> s < 2 ^ 40 ->
  2 ^ 52 <= Zpos mt < 2 ^ 53 -> et <= -8 ->
  -300 <= 100 * Zpos mt - 8 * s * 2 ^ (- et) <= 300 ->
  exists m e, fadd x (S754_finite false mt et) = S754_finite false m e /\
              cents_of m e = 108 * s.
Proof.
  intros (mx & ex & -> & Hmx & Hex & Hvx) Hs Hmt Het Htax.
  destruct (holds_exponent _ _ _ Hmx Hex Hvx) as [Hex' Hs0].
  set (A := 2 ^ (- ex)) in *. set (B := 2 ^ (- et)) in *.
  assert (0 < A) by (apply Z.pow_pos_nonneg; lia).
  assert (0 < B) by (apply Z.pow_pos_nonneg; lia).
  assert (et <= ex) as Hle.
  { destruct (Z.le_gt_cases et ex) as [|Hgt]; [done|]. exfalso.
    assert (A = B * 2 ^ (et - ex)) as HA
      by (unfold A, B; rewrite <- Z.pow_add_r by lia; f_equal; lia).
    assert (2 ^ 1 <= 2 ^ (et - ex)) by (apply Z.pow_le_mono_r; lia).
    change (2 ^ 1) with 2 in *. nia. }
  assert (-60 < et).
  { assert (- et < 60); [|lia]. apply pow2_lt_inv; [lia|]. fold B. nia. }
  set (D := 2 ^ (ex - et)).
  assert (0 < D) by (apply Z.pow_pos_nonneg; lia).
  assert (B = A * D) as HB
    by (unfold A, B, D; rewrite <- Z.pow_add_r by lia; f_equal; lia).
  assert (D <= 25) as HD by nia.
  assert (7000 < B) as HB' by nia.
  unfold fadd, prec, emax. cbn [SFadd cond_Zopp].
  replace (Z.min ex et) with et by lia.
  destruct (shl_align_spec mx ex et) as [_ Hx]; [lia|].
  destruct (shl_align_spec mt et et) as [_ Hy]; [lia|].
  rewrite Z.sub_diag, Z.mul_1_r in Hy. fold D in Hx.
  set (px := (shl_align mx ex et).1) in *.
  set (py := (shl_align mt et et).1) in *.
  change (Zpos px + Zpos py) with (Zpos (px + py)). cbn [binary_normalize].
  rewrite binary_round_normal; [|rewrite Pos2Z.inj_add; nia|lia].
  pose proof (digits2_pos_bounds (px + py)) as [Hlo Hhi].
  set (n := Zpos (digits2_pos (px + py)) - 53).
  replace (Zpos (digits2_pos (px + py)) - 1) with (52 + n) in Hlo
    by (unfold n; lia).
  replace (Zpos (digits2_pos (px + py))) with (53 + n) in Hhi
    by (unfold n; lia).
  rewrite Pos2Z.inj_add, Hx, Hy in Hlo, Hhi.
  assert (0 <= n <= 5) as Hn.
  { split.
    - assert (52 < 53 + n); [|lia]. apply pow2_lt_inv; [unfold n; lia|]. nia.
    - assert (52 + n < 58); [|lia]. apply pow2_lt_inv; [lia|].
      eapply Z.le_lt_trans; [exact Hlo|]. nia. }
  destruct (binary_round_aux_spec (px + py) et loc_Exact)
    as (m' & e' & -> & Hm' & He' & Hnear & _); [fold n; lia|fold n; lia|].
  fold n in He', Hnear. rewrite Pos2Z.inj_add, Hx, Hy in Hnear.
  exists m', e'. split; [done|]. apply cents_of_near; [lia|].
  set (W := 2 ^ (- e')). set (T := 2 ^ (e' - et)) in *.
  assert (0 < W) by (apply Z.pow_pos_nonneg; lia).
  assert (0 < T) as HT by (apply Z.pow_pos_nonneg; lia).
  assert (W * T = B) as HWT
    by (unfold W, T, B; rewrite <- Z.pow_add_r by lia; f_equal; lia).
  assert (2 ^ n <= 2 ^ 5) as Hpn by (apply Z.pow_le_mono_r; lia).
  change (2 ^ 5) with 32 in Hpn.
  set (X := Zpos m' * T) in *.
  assert (100 * X - 108 * s * (W * T) =
          100 * (X - (Zpos mx * D + Zpos mt)) + (100 * Zpos mt - 8 * s * B))
    as Hdiff by (rewrite HWT; nia).
  assert (- (W * T) < 2 * (100 * X - 108 * s * (W * T)) < W * T) as Hscaled.
  { rewrite Hdiff, HWT. lia. }
  unfold X in Hscaled. nia.
Qed.

Lemma fadd_zero_l x n : holds x n -> fadd (S754_zero false) x = x.
Proof. by intros (m & e & -> & _). Qed.

Lemma holds_to_Q x n : holds x n -> (to_Q x == inject_Z n)%Q.
Proof.
  intros (m & e & -> & _ & He & Hv). unfold to_Q, Qeq.
  destruct e as [|p|p]; [|lia|]; cbn [Qnum Qden inject_Z].
  - change (- 0) with 0 in Hv. cbn in Hv. lia.
  - change (- Zneg p) with (Zpos p) in Hv.
    by rewrite Pos2Z.inj_pow, Z.mul_1_r.
Qed.

Lemma Qfloor_half n : Qfloor (inject_Z n + (1 # 2)) = n.
Proof.
  unfold Qfloor, Qplus, inject_Z. cbn [Qnum Qden].
  rewrite Z.mul_1_r. cbn [Pos.mul].
  symmetry. apply (Z.div_unique _ _ _ 1); lia.
Qed.

Lemma round_half_up_2_cents x k :
  (x * 100 == inject_Z k)%Q ->
  (Decimal.round_half_up_2 x == k # 100)%Q.
Proof.
  intros H. unfold Decimal.round_half_up_2. by rewrite H, Qfloor_half.
Qed.
End Binary64.

Section Amounts.
Import Float64.

Lemma price_values :
  (to_Q (float_of_Z 25) == 25)%Q /\ (to_Q (float_of_Z 60) == 60)%Q /\
  (to_Q (float_of_Z 49) == 49)%Q.
Proof. by vm_compute. Qed.

(** The subtotal of the specification is the integer
    [25 * a + 60 * f + 49]. *)
Lemma decimal_subtotal a f :
  0 <= a -> 0 <= f ->
  (Decimal.subtotal (build_line_items (mkCounts a f))
   == inject_Z (25 * a + 60 * f + 49))%Q.
Proof.
  intros Ha Hf. destruct price_values as (H25 & H60 & H49).
  unfold build_line_items. cbn [attention fail].
  destruct (Z.eqb_spec a 0) as [->|Ha'], (Z.eqb_spec f 0) as [->|Hf'];
    cbn [negb app Decimal.subtotal fold_right LineItem.qty LineItem.price];
    rewrite ?H25, ?H60, ?H49, !inject_Z_plus, !inject_Z_mult; ring.
Qed.

(** The subtotal of the code holds that integer. *)
Lemma float_subtotal a f :
  0 <= a -> 0 <= f -> 25 * a + 60 * f + 49 < 2 ^ 40 ->
  holds
    (fsum ((λ li, int_mul_float (LineItem.qty li) (LineItem.price li))
             <$> build_line_items (mkCounts a f)))
    (25 * a + 60 * f + 49).
Proof.
  intros Ha Hf Hs.
  assert (holds (int_mul_float 1 (float_of_Z 49)) 49) as H49.
  { apply (fmul_holds _ _ 1 49); [apply float_of_Z_holds..|]; lia. }
  assert (0 < a -> holds (int_mul_float a (float_of_Z 25)) (25 * a)) as H25.
  { intros. replace (25 * a) with (a * 25) by lia.
    apply fmul_holds; [apply float_of_Z_holds..|]; lia. }
  assert (0 < f -> holds (int_mul_float f (float_of_Z 60)) (60 * f)) as H60.
  { intros. replace (60 * f) with (f * 60) by lia.
    apply fmul_holds; [apply float_of_Z_holds..|]; lia. }
  unfold build_line_items, fsum. cbn [attention fail].
  destruct (Z.eqb_spec a 0) as [->|Ha'], (Z.eqb_spec f 0) as [->|Hf'];
    cbn [negb app fmap list_fmap fold_left LineItem.qty LineItem.price].
  - by rewrite (fadd_zero_l _ _ H49).
  - rewrite (fadd_zero_l _ (60 * f)) by (apply H60; lia).
    replace (25 * 0 + 60 * f + 49) with (60 * f + 49) by lia.
    apply fadd_holds; [apply H60; lia|done|lia].
  - rewrite (fadd_zero_l _ (25 * a)) by (apply H25; lia).
    replace (25 * a + 60 * 0 + 49) with (25 * a + 49) by lia.
    apply fadd_holds; [apply H25; lia|done|lia].
  - rewrite (fadd_zero_l _ (25 * a)) by (apply H25; lia).
    apply fadd_holds; [|done|lia].
    apply fadd_holds; [apply H25; lia|apply H60; lia|lia].
Qed.
End Amounts.

(** The model on values known from Python: the literal [0.08] is the double
    nearest to 8/100; the quotient of two integers is the quotient of the
    doubles that hold them; [round(2.675, 2)] is 2.67 because the double
    written 2.675 lies below it; [round(0.125, 2)] is 0.12 and
    [round(0.375, 2)] is 0.38, the exact ties going to the even digit. *)
Example round2_known_values :
  let nearest (n d : positive) :=
    SFdiv Float64.prec Float64.emax (S754_finite false n 0)
      (S754_finite false d 0) in
  Float64.lit_0_08 = nearest 8%positive 100%positive /\
  Float64.float_of_cents false 392
  = SFdiv Float64.prec Float64.emax (Float64.float_of_Z 392)
      (Float64.float_of_Z 100) /\
  Float64.round2 (nearest 2675%positive 1000%positive)
  = nearest 267%positive 100%positive /\
  Float64.round2 (nearest 125%positive 1000%positive)
  = nearest 12%positive 100%positive /\
  Float64.round2 (nearest 375%positive 1000%positive)
  = nearest 38%positive 100%positive.
Proof. vm_compute. repeat split. Qed.

(** A checklist without [attention] and [fail]: the base fee alone, and a
    total of 52.92. *)
Example invoice_all_ok :
  let inv :=
    build_invoice "i" [("brakes", [("pads", "ok"); ("discs", "ok")])] in
  Invoice.line_items inv =
    [LineItem.mk "Base inspection fee" 1 (Float64.float_of_Z 49)] /\
  Invoice.subtotal inv = Float64.float_of_Z 49 /\
  Invoice.taxes inv = Float64.float_of_cents false 392 /\
  Invoice.total inv = Float64.float_of_cents false 5292.
Proof. vm_compute. repeat split. Qed.

(** C2, amended. The amounts are binary64 numbers, not exact decimals. For a
    checklist whose subtotal [s] stays below 2^40, the stored subtotal is
    exactly [s], the stored taxes are the double nearest to the exact
    decimal taxes [0.08 * s], the stored total is the double nearest to the
    exact decimal total [1.08 * s], and [paid] is false. *)
Theorem invoice_amounts (ins_id : string) (checks : Checks) :
  let s := 25 * occurrences "attention" (statuses checks)
           + 60 * occurrences "fail" (statuses checks) + 49 in
  let inv := build_invoice ins_id checks in
  let exact_subtotal := Decimal.subtotal (Invoice.line_items inv) in
  let exact_taxes := Decimal.taxes exact_subtotal in
  s < 2 ^ 40 ->
  (exact_subtotal == inject_Z s)%Q /\
  Invoice.subtotal inv = Float64.float_of_Z s /\
  (Float64.to_Q (Invoice.subtotal inv) == exact_subtotal)%Q /\
  (exact_taxes == 8 * s # 100)%Q /\
  Invoice.taxes inv = Float64.float_of_cents false (8 * s) /\
  (Decimal.total exact_subtotal exact_taxes == 108 * s # 100)%Q /\
  Invoice.total inv = Float64.float_of_cents false (108 * s) /\
  Invoice.paid inv = false.
Proof.
  intros s inv exact_subtotal exact_taxes Hs.
  pose proof (occurrences_nonneg "attention" (statuses checks)) as Ha.
  pose proof (occurrences_nonneg "fail" (statuses checks)) as Hf.
  unfold exact_taxes, exact_subtotal, inv, build_invoice.
  rewrite count_checks_occurrences.
  cbn [Invoice.line_items Invoice.subtotal Invoice.taxes Invoice.total
       Invoice.paid].
  pose proof (decimal_subtotal _ _ Ha Hf) as Hds.
  pose proof (float_subtotal _ _ Ha Hf Hs) as Hfs.
  fold s in Hds, Hfs.
  set (items := build_line_items _) in *.
  set (subtotal := Float64.fsum _) in *.
  assert ((Decimal.taxes (Decimal.subtotal items) == 8 * s # 100)%Q) as Hdt.
  { apply round_half_up_2_cents. rewrite Hds.
    unfold Qeq. cbn. lia. }
  destruct (taxes_cents _ _ Hfs Hs) as (m & e & Hmul & Hcents).
  assert (Float64.round2 (Float64.fmul subtotal Float64.lit_0_08) =
          Float64.float_of_cents false (8 * s)) as Htaxes.
  { rewrite Hmul. cbn [Float64.round2]. by rewrite Hcents. }
  split_and!; [done|..|done].
  - apply (holds_unique _ _ s); [done|]. apply float_of_Z_holds.
    pose proof (holds_range _ _ Hfs). lia.
  - rewrite Hds. by apply holds_to_Q.
  - done.
  - done.
  - apply round_half_up_2_cents. rewrite Hdt, Hds.
    unfold Qeq. cbn. lia.
  - rewrite Htaxes.
    destruct (8 * s) as [|k|k] eqn:Ek; [lia| |lia].
    destruct (float_of_cents_near k) as (mt & et & -> & Hmt & Het & Hnear);
      [lia|].
    destruct (total_cents subtotal s mt et Hfs Hs Hmt Het)
      as (m' & e' & -> & Hcents'); [rewrite <- Ek in Hnear; lia|].
    cbn [Float64.round2]. by rewrite Hcents'.
Qed.

(** C3. Two checklists that differ by the insertion order of their sections
    and of the items inside the sections give the same invoice: the same
    line items, subtotal, taxes and total. *)
Theorem build_invoice_order_independent (ins_id : string) (c1 c2 : Checks) :
  same_checks c1 c2 -> build_invoice ins_id c1 = build_invoice ins_id c2.
Proof.
  intros H. unfold build_invoice. rewrite !count_checks_occurrences.
  pose proof (same_checks_statuses _ _ H) as Hp.
  by rewrite (occurrences_perm "attention" _ _ Hp),
             (occurrences_perm "fail" _ _ Hp).
Qed.

(** ** [search] *)
Section SearchFacts.
Context `{bson : Driver.Bson} `{regex : Driver.Regex}.
Import Driver.

Lemma truthy_id_Some cid s : truthy_id cid = Some s <-> cid = Some s /\ s <> "".
Proof.
  destruct cid as [[|c t]|]; cbn; split; intros H; try discriminate.
  - by destruct H as [[= <-] ?].
  - by simplify_eq.
  - by destruct H as [[= <-] _].
  - by destruct H.
Qed.

Lemma truthy_id_None cid : truthy_id cid = None <-> cid = None \/ cid = Some "".
Proof.
  destruct cid as [[|c t]|]; cbn; split; intros H; try done; auto.
  by destruct H.
Qed.

Lemma to_obj_ids_raises cids e :
  to_obj_ids cids = inl e ->
  e = HTTPException 400 "Invalid ObjectId" /\
  exists s, Some s ∈ cids /\ s <> "" /\ ObjectId_of_str s = None.
Proof.
  induction cids as [|cid cids IH]; cbn; [done|].
  destruct (truthy_id cid) as [s|] eqn:Ht.
  - apply truthy_id_Some in Ht as [-> Hs]. unfold to_obj_id.
    destruct (ObjectId_of_str s) as [o|] eqn:Hp.
    + destruct (to_obj_ids cids) as [e'|os]; [|done].
      intros [= <-]. destruct IH as (He & s' & Hin & Hne & Hbad); [done|].
      split; [done|]. exists s'. split_and!; [by right|done|done].
    + intros [= <-]. split; [done|]. exists s. split_and!; [by left|done|done].
  - intros H. destruct (IH H) as (He & s' & Hin & Hne & Hbad).
    split; [done|]. exists s'. split_and!; [by right|done|done].
Qed.

Lemma to_obj_ids_malformed cids s :
  Some s ∈ cids -> s <> "" -> ObjectId_of_str s = None ->
  to_obj_ids cids = inl (HTTPException 400 "Invalid ObjectId").
Proof.
  intros Hin Hne Hbad.
  destruct (to_obj_ids cids) as [e|ids] eqn:E.
  - by apply to_obj_ids_raises in E as [-> _].
  - exfalso. revert ids E.
    induction cids as [|cid cids IH]; [by apply elem_of_nil in Hin|].
    intros ids. cbn.
    apply elem_of_cons in Hin as [<-|Hin].
    + assert (truthy_id (Some s) = Some s) as -> by by apply truthy_id_Some.
      unfold to_obj_id. by rewrite Hbad.
    + destruct (truthy_id cid); [|by eauto].
      destruct (to_obj_id s0); [done|].
      destruct (to_obj_ids cids); [done|]. by eauto.
Qed.

Lemma to_obj_ids_returns cids ids :
  to_obj_ids cids = inr ids ->
  forall s, Some s ∈ cids -> s <> "" ->
            exists o, ObjectId_of_str s = Some o /\ o ∈ ids.
Proof.
  revert ids. induction cids as [|cid cids IH]; intros ids; cbn.
  - intros _ s Hin. by apply elem_of_nil in Hin.
  - destruct (truthy_id cid) as [s0|] eqn:Ht.
    + apply truthy_id_Some in Ht as [-> Hs0]. unfold to_obj_id.
      destruct (ObjectId_of_str s0) as [o|] eqn:Hp; [|done].
      destruct (to_obj_ids cids) as [e'|os]; [done|].
      intros [= <-] s [[= ->]|Hin]%elem_of_cons Hne.
      * exists o. split; [done|by left].
      * destruct (IH os eq_refl s Hin Hne) as (o' & ? & ?).
        exists o'. split; [done|by right].
    + intros H s [<-|Hin]%elem_of_cons Hne.
      * apply truthy_id_None in Ht as [?|[= ?]]; [done|]. by subst.
      * by apply (IH ids).
Qed.

(** *** [cust_map] *)

Lemma add_customers_cons c cs (m : gmap string (Customer.doc ObjectId)) :
  add_customers (c :: cs) m =
  add_customers cs (<[str_of_ObjectId (Customer._id c) := c]> m).
Proof. reflexivity. Qed.

Lemma add_customers_lookup cs :
  forall (m : gmap string (Customer.doc ObjectId)) k d,
  add_customers cs m !! k = Some d ->
  (d ∈ cs /\ str_of_ObjectId (Customer._id d) = k) \/ m !! k = Some d.
Proof.
  induction cs as [|c cs IH]; intros m k d; cbn; [by auto|].
  intros [[Hin Hk]|Hm]%IH; [left; split; [by right|done]|].
  destruct (decide (str_of_ObjectId (Customer._id c) = k)) as [<-|Hne].
  - rewrite lookup_insert_eq in Hm. injection Hm as <-.
    left. split; [by left|done].
  - rewrite lookup_insert_ne in Hm by done. by right.
Qed.

Lemma add_customers_is_Some cs :
  forall (m : gmap string (Customer.doc ObjectId)) k,
  is_Some (add_customers cs m !! k) <->
  is_Some (m !! k) \/
  exists c, c ∈ cs /\ str_of_ObjectId (Customer._id c) = k.
Proof.
  induction cs as [|c cs IH]; intros m k.
  - split; [by auto|]. intros [?|(c & Hc & _)]; [done|].
    by apply elem_of_nil in Hc.
  - rewrite add_customers_cons, IH, lookup_insert_is_Some. split.
    + intros [[<-|[_ ?]]|(c' & ? & ?)].
      * right. exists c. split; [by left|done].
      * by left.
      * right. exists c'. split; [by right|done].
    + intros [?|(c' & [->|?]%elem_of_cons & Hk)].
      * destruct (decide (str_of_ObjectId (Customer._id c) = k)); by auto.
      * by auto.
      * right. by exists c'.
Qed.

Lemma elem_of_missing_ids vs (cm : gmap string (Customer.doc ObjectId)) cid :
  cid ∈ missing_ids vs cm <->
  (exists v, v ∈ vs /\ Vehicle.customer_id v = cid) /\
  (forall s, cid = Some s -> cm !! s = None).
Proof.
  unfold missing_ids.
  rewrite elem_of_difference, elem_of_list_to_set, list_elem_of_fmap,
    elem_of_map.
  split.
  - intros [(v & -> & Hv) Hnot]. split; [by exists v|].
    intros s Hs. apply eq_None_not_Some. intros Hsome.
    apply Hnot. exists s. split; [done|]. by apply elem_of_dom.
  - intros [(v & Hv & <-) Hnone]. split; [by exists v|].
    intros (s & Hs & Hdom). apply elem_of_dom in Hdom.
    rewrite (Hnone s Hs) in Hdom. by destruct Hdom.
Qed.

(** *** [grouped] *)

Lemma glookup_elem_of cid (grouped : Grouped) grp :
  glookup cid grouped = Some grp -> (cid, grp) ∈ grouped.
Proof.
  induction grouped as [|[k g] rest IH]; cbn; [done|].
  case_bool_decide as Hk; cbn in Hk.
  - intros [= <-]. subst k. apply elem_of_cons. by left.
  - intros H. apply elem_of_cons. right. by apply IH.
Qed.

Lemma has_key_glookup cid (grouped : Grouped) :
  has_key cid grouped = bool_decide (is_Some (glookup cid grouped)).
Proof.
  unfold has_key. induction grouped as [|[k g] rest IH]; cbn; [done|].
  destruct (decide (k = cid)) as [Hk|Hk].
  - by rewrite (bool_decide_eq_true_2 _ Hk).
  - rewrite (bool_decide_eq_false_2 _ Hk). exact IH.
Qed.

Lemma glookup_app cid (g1 g2 : Grouped) :
  glookup cid (g1 ++ g2) =
  match glookup cid g1 with Some grp => Some grp | None => glookup cid g2 end.
Proof.
  induction g1 as [|[k g] rest IH]; cbn; [done|]. by case_bool_decide.
Qed.

Lemma glookup_setdefault cid cid' default (grouped : Grouped) :
  glookup cid (setdefault cid' default grouped) =
  match glookup cid grouped with
  | Some grp => Some grp
  | None => if bool_decide (cid' = cid) then Some default else None
  end.
Proof.
  unfold setdefault. rewrite has_key_glookup.
  case_bool_decide as Hk.
  - destruct (glookup cid grouped) eqn:E; [done|].
    case_bool_decide; [|done]. subst. rewrite E in Hk. by destruct Hk.
  - rewrite glookup_app. by destruct (glookup cid grouped).
Qed.

Lemma glookup_append_vehicle cid cid' v (grouped : Grouped) :
  glookup cid (append_vehicle cid' v grouped) =
  (λ grp, if bool_decide (cid' = cid)
          then mkGroup (customer grp) (vehicles grp ++ [v]) else grp)
    <$> glookup cid grouped.
Proof.
  unfold append_vehicle. induction grouped as [|[k g] rest IH]; [done|].
  rewrite fmap_cons. cbn [fst snd].
  destruct (decide (k = cid')) as [Hk'|Hk'], (decide (k = cid)) as [Hk|Hk];
    rewrite ?(bool_decide_eq_true_2 _ Hk'), ?(bool_decide_eq_false_2 _ Hk');
    cbn [glookup fst snd];
    rewrite ?(bool_decide_eq_true_2 _ Hk), ?(bool_decide_eq_false_2 _ Hk);
    try exact IH; subst; cbn.
  - by rewrite bool_decide_eq_true_2.
  - by rewrite bool_decide_eq_false_2.
Qed.

Lemma with_cid_cons cid v vs :
  with_cid cid (v :: vs) =
  if bool_decide (Vehicle.customer_id v = cid)
  then v :: with_cid cid vs else with_cid cid vs.
Proof.
  unfold with_cid. rewrite filter_cons.
  case_decide as H.
  - by rewrite (bool_decide_eq_true_2 _ H).
  - by rewrite (bool_decide_eq_false_2 _ H).
Qed.

Lemma glookup_group_vehicles cm cid vs : forall grouped : Grouped,
  glookup cid (group_vehicles cm vs grouped) =
  match glookup cid grouped with
  | Some grp => Some (mkGroup (customer grp) (vehicles grp ++ with_cid cid vs))
  | None =>
      match with_cid cid vs with
      | [] => None
      | vs' => Some (mkGroup (cust_map_get cm cid) vs')
      end
  end.
Proof.
  induction vs as [|v vs IH]; intros grouped.
  - cbn. destruct (glookup cid grouped) as [[c l]|]; [|done].
    by rewrite app_nil_r.
  - change (group_vehicles cm (v :: vs) grouped) with
      (group_vehicles cm vs
         (append_vehicle (Vehicle.customer_id v) v
            (setdefault (Vehicle.customer_id v)
               (mkGroup (cust_map_get cm (Vehicle.customer_id v)) [])
               grouped))).
    rewrite IH, glookup_append_vehicle, glookup_setdefault, with_cid_cons.
    case_bool_decide as Hk.
    + subst cid. destruct (glookup _ grouped) as [grp|]; cbn.
      * by rewrite <- app_assoc.
      * done.
    + destruct (glookup cid grouped) as [grp|]; cbn; [|done].
      by destruct grp.
Qed.

Lemma group_customers_run customers : forall (grouped : Grouped) w,
  group_customers customers grouped w =
  (inr (group_customers_db (db w) customers grouped),
   mkWorld (db w)
     (ops w ++ ((λ c, FindEq "vehicle" "customer_id"
                        (str_of_ObjectId (Customer._id c))) <$> customers))).
Proof.
  induction customers as [|c cs IH]; intros grouped [d o].
  - cbn. by rewrite app_nil_r.
  - cbn [group_customers]. unfold bind at 1. cbn.
    rewrite IH. cbn. by rewrite <- app_assoc.
Qed.

Lemma group_customers_db_cons d c cs (grouped : Grouped) :
  group_customers_db d (c :: cs) grouped =
  group_customers_db d cs
    (setdefault (Some (str_of_ObjectId (Customer._id c)))
       (mkGroup (Some c) (vehicles_of d (str_of_ObjectId (Customer._id c))))
       grouped).
Proof. reflexivity. Qed.

Lemma glookup_group_customers_keep d customers cid grp :
  forall grouped : Grouped,
  glookup cid grouped = Some grp ->
  glookup cid (group_customers_db d customers grouped) = Some grp.
Proof.
  induction customers as [|c cs IH]; intros grouped H; [done|].
  rewrite group_customers_db_cons. apply IH.
  by rewrite glookup_setdefault, H.
Qed.

Lemma glookup_group_customers_new d customers cid :
  forall grouped : Grouped,
  glookup cid grouped = None ->
  forall grp, glookup cid (group_customers_db d customers grouped) = Some grp ->
  exists c, c ∈ customers /\
            cid = Some (str_of_ObjectId (Customer._id c)) /\
            grp = mkGroup (Some c)
                    (vehicles_of d (str_of_ObjectId (Customer._id c))).
Proof.
  induction customers as [|c cs IH]; intros grouped Hnone grp.
  - cbn. by rewrite Hnone.
  - rewrite group_customers_db_cons.
    destruct (decide (Some (str_of_ObjectId (Customer._id c)) = cid))
      as [<-|Hne].
    + erewrite glookup_group_customers_keep; last first.
      { by rewrite glookup_setdefault, Hnone, bool_decide_eq_true_2. }
      intros [= <-]. exists c. split_and!; [by left|done|done].
    + intros H. apply IH in H as (c' & ? & ? & ?).
      * exists c'. split_and!; [by right|done|done].
      * by rewrite glookup_setdefault, Hnone, bool_decide_eq_false_2.
Qed.

Lemma glookup_group_customers_is_Some d customers c :
  forall grouped : Grouped,
  c ∈ customers ->
  is_Some (glookup (Some (str_of_ObjectId (Customer._id c)))
             (group_customers_db d customers grouped)).
Proof.
  induction customers as [|c' cs IH]; intros grouped Hin.
  - by apply elem_of_nil in Hin.
  - rewrite group_customers_db_cons.
    apply elem_of_cons in Hin as [->|Hin]; [|by apply IH].
    set (g := setdefault _ _ grouped).
    assert (is_Some (glookup (Some (str_of_ObjectId (Customer._id c'))) g))
      as [grp Hg].
    { unfold g. rewrite glookup_setdefault.
      destruct (glookup _ grouped); [done|].
      by rewrite bool_decide_eq_true_2. }
    exists grp. by apply glookup_group_customers_keep.
Qed.

(** *** Running [search] *)

Lemma filter_in_nil (l : list (Customer.doc ObjectId)) :
  filter (λ c, Customer._id c ∈ []) l = [].
Proof.
  induction l as [|c l IH]; [done|]. rewrite filter_cons.
  rewrite decide_False; [done|]. apply not_elem_of_nil.
Qed.

Lemma search_group_run customers vehicles w :
  match to_obj_ids
          (elements (missing_ids vehicles (add_customers customers ∅))) with
  | inl e => search_group customers vehicles w = (inl e, w)
  | inr ids =>
      exists log,
      search_group customers vehicles w =
      (inr (results_of (final_grouped (db w) customers vehicles ids)),
       mkWorld (db w) (ops w ++ log))
  end.
Proof.
  unfold search_group, final_grouped, final_cust_map.
  set (cm0 := add_customers customers ∅).
  set (missing := missing_ids vehicles cm0).
  destruct w as [d o]. unfold bind at 1.
  case_bool_decide as Hm.
  - rewrite Hm, elements_empty. cbn [to_obj_ids ret].
    rewrite filter_in_nil. unfold bind, ret. rewrite group_customers_run.
    cbn. eexists. reflexivity.
  - destruct (to_obj_ids (elements missing)) as [e|ids]; [done|].
    unfold bind, lift, ret, find_customers_in, bind, call, get_db, ret.
    cbn [db ops]. rewrite group_customers_run. cbn [db ops].
    eexists. by rewrite <- app_assoc.
Qed.

Lemma search_text_run query m w :
  regex_i query = Some m ->
  search_text query w =
  (inr (filter (λ c, customer_matches m c) (db_customer (db w)),
        filter (λ v, vehicle_matches m v) (db_vehicle (db w))),
   mkWorld (db w)
     (ops w ++
      [FindRegex "customer" ["name"; "phone"; "email"] query;
       FindRegex "vehicle" ["vin"; "plate"; "make"; "model"] query])).
Proof.
  intros Hm. destruct w as [d o].
  unfold search_text, find_regex, bind, call, get_db, ret. cbn [db ops].
  rewrite Hm. cbn [db ops]. by rewrite <- app_assoc.
Qed.

Lemma search_run q m w :
  PyStr.strip q <> "" -> regex_i (PyStr.strip q) = Some m ->
  search q w =
  search_group
    (filter (λ c, customer_matches m c) (db_customer (db w)))
    (filter (λ v, vehicle_matches m v) (db_vehicle (db w)))
    (mkWorld (db w)
       (ops w ++
        [FindRegex "customer" ["name"; "phone"; "email"] (PyStr.strip q);
         FindRegex "vehicle" ["vin"; "plate"; "make"; "model"]
           (PyStr.strip q)])).
Proof.
  intros Hq Hm. unfold search.
  destruct (PyStr.strip q) as [|a s] eqn:E; [done|]. cbn [PyStr.truthy negb].
  unfold bind at 1. by rewrite (search_text_run _ m w Hm).
Qed.

(** *** The store as [search] finds it *)

Lemma str_of_ObjectId_inj o1 o2 :
  str_of_ObjectId o1 = str_of_ObjectId o2 -> o1 = o2.
Proof.
  intros H. apply (f_equal ObjectId_of_str) in H.
  rewrite !ObjectId_of_str_of in H. by injection H.
Qed.

Lemma NoDup_fmap_eq {A B} (f : A -> B) (l : list A) x y :
  NoDup (f <$> l) -> x ∈ l -> y ∈ l -> f x = f y -> x = y.
Proof.
  induction l as [|a l IH]; [by intros _ ?%elem_of_nil|].
  rewrite fmap_cons, NoDup_cons.
  intros [Ha Hl] [->|Hx]%elem_of_cons [->|Hy]%elem_of_cons Hf;
    [done| | |by auto].
  - destruct Ha. rewrite Hf. by apply list_elem_of_fmap_2.
  - destruct Ha. rewrite <- Hf. by apply list_elem_of_fmap_2.
Qed.

Lemma unique_customer d c c' :
  unique_ids d -> c ∈ db_customer d -> c' ∈ db_customer d ->
  str_of_ObjectId (Customer._id c) = str_of_ObjectId (Customer._id c') ->
  c = c'.
Proof.
  intros Hu Hc Hc' Hs. apply (NoDup_fmap_eq Customer._id _ _ _ Hu Hc Hc').
  by apply str_of_ObjectId_inj.
Qed.

Section Matched.
Variables (d : Db) (m : string -> bool).

Let cs := filter (λ c, customer_matches m c) (db_customer d).
Let vs := filter (λ v, vehicle_matches m v) (db_vehicle d).
Let cm0 := add_customers cs ∅.

Lemma owner_ids_no_raise :
  owner_ids_well_formed m d ->
  exists ids, to_obj_ids (elements (missing_ids vs cm0)) = inr ids.
Proof.
  intros Hwf. destruct (to_obj_ids _) as [e|ids] eqn:E; [|by eauto].
  apply to_obj_ids_raises in E as (_ & s & Hin & Hne & Hbad).
  apply elem_of_elements, elem_of_missing_ids in Hin as [(v & Hv & Hcid) _].
  apply list_elem_of_filter in Hv as [Hmv Hv].
  destruct (Hwf v s Hv Hmv Hcid Hne) as [o Ho]. congruence.
Qed.

Lemma final_cust_map_lookup ids k c :
  final_cust_map d cs ids !! k = Some c ->
  c ∈ db_customer d /\ str_of_ObjectId (Customer._id c) = k.
Proof.
  unfold final_cust_map.
  intros [[Hin Hk]|[[Hin Hk]|Hempty]%add_customers_lookup]%add_customers_lookup.
  - by apply list_elem_of_filter in Hin as [_ Hin].
  - by apply list_elem_of_filter in Hin as [_ Hin].
  - by rewrite lookup_empty in Hempty.
Qed.

Lemma final_cust_map_matched ids c :
  c ∈ cs ->
  is_Some (final_cust_map d cs ids
             !! str_of_ObjectId (Customer._id c)).
Proof.
  intros Hc. unfold final_cust_map. rewrite !add_customers_is_Some.
  left. right. by exists c.
Qed.

Lemma final_cust_map_owner ids v c :
  to_obj_ids (elements (missing_ids vs cm0)) = inr ids ->
  v ∈ vs -> c ∈ db_customer d ->
  Vehicle.customer_id v = Some (str_of_ObjectId (Customer._id c)) ->
  is_Some (final_cust_map d cs ids
             !! str_of_ObjectId (Customer._id c)).
Proof.
  intros Hids Hv Hc Hcid. unfold final_cust_map.
  rewrite add_customers_is_Some.
  destruct (cm0 !! str_of_ObjectId (Customer._id c)) as [c'|] eqn:E.
  - left. exists c'. exact E.
  - right. exists c. split; [|done].
    apply list_elem_of_filter. split; [|done].
    destruct (to_obj_ids_returns _ _ Hids (str_of_ObjectId (Customer._id c)))
      as (o & Ho & Hin).
    + apply elem_of_elements, elem_of_missing_ids. split; [by exists v|].
      by intros s [= <-].
    + apply str_of_ObjectId_nonempty.
    + rewrite ObjectId_of_str_of in Ho. by injection Ho as ->.
Qed.

(** The group of a key that some matched vehicle carries. *)
Lemma final_grouped_vehicle_key ids cid :
  with_cid cid vs <> [] ->
  glookup cid (final_grouped d cs vs ids) =
  Some (mkGroup (cust_map_get (final_cust_map d cs ids) cid)
          (with_cid cid vs)).
Proof.
  intros Hne. unfold final_grouped.
  apply glookup_group_customers_keep.
  rewrite glookup_group_vehicles. cbn [glookup].
  by destruct (with_cid cid vs).
Qed.

(** The group of a matched customer none of whose vs matched. *)
Lemma final_grouped_customer_key ids c :
  unique_ids d -> c ∈ cs ->
  with_cid (Some (str_of_ObjectId (Customer._id c))) vs = [] ->
  glookup (Some (str_of_ObjectId (Customer._id c)))
    (final_grouped d cs vs ids) =
  Some (mkGroup (Some c)
          (vehicles_of d (str_of_ObjectId (Customer._id c)))).
Proof.
  intros Hu Hc Hnil. unfold final_grouped.
  destruct (glookup_group_customers_is_Some d cs c
              (group_vehicles (final_cust_map d cs ids) vs [])
              Hc) as [grp Hgrp].
  rewrite Hgrp.
  apply glookup_group_customers_new in Hgrp as (c' & Hc' & Hk & ->).
  - injection Hk as Hk.
    assert (c = c') as <-; [|done].
    apply (unique_customer d); [done| | |done].
    + by apply list_elem_of_filter in Hc as [_ ?].
    + by apply list_elem_of_filter in Hc' as [_ ?].
  - rewrite glookup_group_vehicles. cbn [glookup]. by rewrite Hnil.
Qed.

Lemma results_of_elem_of cid grp (grouped : Grouped) :
  glookup cid grouped = Some grp ->
  mkGroup (serialize_customer <$> customer grp)
    (serialize_vehicle <$> vehicles grp) ∈ results_of grouped.
Proof.
  intros H%glookup_elem_of. unfold results_of.
  by apply (list_elem_of_fmap_2
              (λ kv : option string * Group ObjectId,
                 mkGroup (serialize_customer <$> customer kv.2)
                   (serialize_vehicle <$> vehicles kv.2)) _ (cid, grp)).
Qed.

End Matched.

Lemma lstrip_blank q : PyStr.blank q = true -> PyStr.lstrip q = "".
Proof.
  induction q as [|c q IH]; cbn; [done|].
  destruct (PyStr.isspace c); [exact IH|done].
Qed.

Lemma strip_blank q : PyStr.blank q = true -> PyStr.strip q = "".
Proof. intros H. unfold PyStr.strip. by rewrite (lstrip_blank q H). Qed.

(** C8. A query that is empty or made of white space only gives the empty
    result list, and the store is not called: the log of store operations
    and the collections are as before. *)
Theorem search_blank_query (q : string) (w : World) :
  PyStr.blank q = true -> search q w = (inr [], w).
Proof. intros H. unfold search. by rewrite (strip_blank q H). Qed.

(** C10. Once the two text queries have run, the request fails with the
    400 error "Invalid ObjectId" exactly when some matched vehicle has a
    non-empty [customer_id] that does not parse as an identifier (such a
    string is never the identifier of a customer, matched or not); an
    empty or absent [customer_id] does not make it fail. *)
Theorem search_invalid_owner_id (q : string) (m : string -> bool) (w : World) :
  PyStr.strip q <> "" -> regex_i (PyStr.strip q) = Some m ->
  (exists v s, v ∈ db_vehicle (db w) /\ vehicle_matches m v /\
               Vehicle.customer_id v = Some s /\ s <> "" /\
               ObjectId_of_str s = None)
  <-> (search q w).1 = inl (HTTPException 400 "Invalid ObjectId").
Proof.
  intros Hq Hm. rewrite (search_run q m w Hq Hm).
  pose proof (search_group_run
                (filter (λ c, customer_matches m c) (db_customer (db w)))
                (filter (λ v, vehicle_matches m v) (db_vehicle (db w)))
                (mkWorld (db w)
                   (ops w ++
                    [FindRegex "customer" ["name"; "phone"; "email"]
                       (PyStr.strip q);
                     FindRegex "vehicle" ["vin"; "plate"; "make"; "model"]
                       (PyStr.strip q)]))) as Hrun.
  split.
  - intros (v & s & Hv & Hmv & Hcid & Hne & Hbad).
    rewrite (to_obj_ids_malformed _ s) in Hrun; [by rewrite Hrun|..|done|done].
    apply elem_of_elements, elem_of_missing_ids. split.
    + exists v. split; [|done]. by apply list_elem_of_filter.
    + intros ? [= <-].
      destruct (add_customers _ ∅ !! s) as [c|] eqn:E; [|done].
      apply add_customers_lookup in E as [[_ <-]|E].
      * by rewrite ObjectId_of_str_of in Hbad.
      * by rewrite lookup_empty in E.
  - destruct (to_obj_ids _) as [e|ids] eqn:E.
    + intros _. apply to_obj_ids_raises in E as (_ & s & Hin & Hne & Hbad).
      apply elem_of_elements, elem_of_missing_ids in Hin
        as [(v & Hv & Hcid) _].
      apply list_elem_of_filter in Hv as [Hmv Hv]. by exists v, s.
    + destruct Hrun as [log ->]. done.
Qed.

(** C4, amended. When no matched vehicle carries a non-empty malformed
    [customer_id], the request returns, and a matched vehicle whose
    [customer_id] is the identifier of a stored customer appears in a
    group whose customer is that customer's record, whether or not the
    customer matched the query. *)
Theorem search_shows_owner (q : string) (m : string -> bool) (w : World)
    (v : Vehicle.doc ObjectId) (c : Customer.doc ObjectId) :
  PyStr.strip q <> "" -> regex_i (PyStr.strip q) = Some m ->
  unique_ids (db w) -> owner_ids_well_formed m (db w) ->
  v ∈ db_vehicle (db w) -> vehicle_matches m v ->
  c ∈ db_customer (db w) ->
  Vehicle.customer_id v = Some (str_of_ObjectId (Customer._id c)) ->
  exists results w',
    search q w = (inr results, w') /\
    exists g, g ∈ results /\
              customer g = Some (serialize_customer c) /\
              serialize_vehicle v ∈ vehicles g.
Proof.
  intros Hq Hm Hu Hwf Hv Hmv Hc Hcid. rewrite (search_run q m w Hq Hm).
  destruct (owner_ids_no_raise (db w) m Hwf) as [ids Hids].
  match goal with
  | |- context [search_group ?cs ?vs ?w1] =>
      pose proof (search_group_run cs vs w1) as Hrun
  end.
  rewrite Hids in Hrun. destruct Hrun as [log ->]. cbn [db ops].
  eexists _, _. split; [reflexivity|].
  set (k := str_of_ObjectId (Customer._id c)) in *.
  assert (v ∈ filter (λ v, vehicle_matches m v) (db_vehicle (db w))) as Hv'
    by by apply list_elem_of_filter.
  assert (v ∈ with_cid (Some k)
                (filter (λ v, vehicle_matches m v) (db_vehicle (db w))))
    as Hv'' by by apply list_elem_of_filter.
  eexists. split.
  - eapply results_of_elem_of, (final_grouped_vehicle_key _ _ _ (Some k)).
    intros Hnil. rewrite Hnil in Hv''. by apply elem_of_nil in Hv''.
  - cbn [customer vehicles cust_map_get]. split.
    + destruct (final_cust_map_owner (db w) m ids v c Hids Hv' Hc Hcid)
        as [c' Hc'].
      fold k in Hc'. rewrite Hc'. cbn. do 2 f_equal.
      apply final_cust_map_lookup in Hc' as [Hin Hk].
      by apply (unique_customer (db w)).
    + by apply list_elem_of_fmap_2.
Qed.

(** C5, amended. When no matched vehicle carries a non-empty malformed
    [customer_id], the request returns, and every matched customer has a
    group with its record: the group holds all the vehicles the store has
    for the customer when none of them matched the query, and the matched
    ones only otherwise. *)
Theorem search_customer_group (q : string) (m : string -> bool) (w : World)
    (c : Customer.doc ObjectId) :
  PyStr.strip q <> "" -> regex_i (PyStr.strip q) = Some m ->
  unique_ids (db w) -> owner_ids_well_formed m (db w) ->
  c ∈ db_customer (db w) -> customer_matches m c ->
  exists results w',
    search q w = (inr results, w') /\
    exists g, g ∈ results /\
      customer g = Some (serialize_customer c) /\
      let cid := str_of_ObjectId (Customer._id c) in
      let matched :=
        with_cid (Some cid)
          (filter (λ v, vehicle_matches m v) (db_vehicle (db w))) in
      vehicles g =
      serialize_vehicle <$>
        (match matched with
         | [] => vehicles_of (db w) cid
         | _ => matched
         end).
Proof.
  intros Hq Hm Hu Hwf Hc Hmc. rewrite (search_run q m w Hq Hm).
  destruct (owner_ids_no_raise (db w) m Hwf) as [ids Hids].
  match goal with
  | |- context [search_group ?cs ?vs ?w1] =>
      pose proof (search_group_run cs vs w1) as Hrun
  end.
  rewrite Hids in Hrun. destruct Hrun as [log ->]. cbn [db ops].
  eexists _, _. split; [reflexivity|].
  set (k := str_of_ObjectId (Customer._id c)) in *.
  assert (c ∈ filter (λ c, customer_matches m c) (db_customer (db w))) as Hc'
    by by apply list_elem_of_filter.
  cbv zeta.
  destruct (with_cid (Some k) _) as [|v0 l] eqn:E.
  - eexists. split.
    + eapply results_of_elem_of, (final_grouped_customer_key _ _ _ c); done.
    + done.
  - eexists. split.
    + eapply results_of_elem_of, (final_grouped_vehicle_key _ _ _ (Some k)).
      by rewrite E.
    + cbn [customer vehicles cust_map_get]. rewrite E. split; [|done].
      destruct (final_cust_map_matched (db w) m ids c Hc') as [c' Hc''].
      fold k in Hc''. rewrite Hc''. cbn. do 2 f_equal.
      apply final_cust_map_lookup in Hc'' as [Hin Hk].
      by apply (unique_customer (db w)).
Qed.

(** C6, amended. When no matched vehicle carries a non-empty malformed
    [customer_id], the request returns, and a matched vehicle whose
    [customer_id] (absent and empty included) is not the identifier of
    any stored customer is in a group without customer, made of the
    matched vehicles with that very [customer_id]. *)
Theorem search_unresolved_owner (q : string) (m : string -> bool) (w : World)
    (v : Vehicle.doc ObjectId) :
  PyStr.strip q <> "" -> regex_i (PyStr.strip q) = Some m ->
  owner_ids_well_formed m (db w) ->
  v ∈ db_vehicle (db w) -> vehicle_matches m v ->
  (forall c,
     c ∈ db_customer (db w) ->
     Vehicle.customer_id v <> Some (str_of_ObjectId (Customer._id c))) ->
  exists results w',
    search q w = (inr results, w') /\
    exists g, g ∈ results /\
      customer g = None /\
      serialize_vehicle v ∈ vehicles g /\
      vehicles g =
      serialize_vehicle <$>
        with_cid (Vehicle.customer_id v)
          (filter (λ v, vehicle_matches m v) (db_vehicle (db w))).
Proof.
  intros Hq Hm Hwf Hv Hmv Hun. rewrite (search_run q m w Hq Hm).
  destruct (owner_ids_no_raise (db w) m Hwf) as [ids Hids].
  match goal with
  | |- context [search_group ?cs ?vs ?w1] =>
      pose proof (search_group_run cs vs w1) as Hrun
  end.
  rewrite Hids in Hrun. destruct Hrun as [log ->]. cbn [db ops].
  eexists _, _. split; [reflexivity|].
  assert (v ∈ with_cid (Vehicle.customer_id v)
                (filter (λ v, vehicle_matches m v) (db_vehicle (db w))))
    as Hv'.
  { apply list_elem_of_filter. split; [done|]. by apply list_elem_of_filter. }
  eexists. split.
  - eapply results_of_elem_of,
      (final_grouped_vehicle_key _ _ _ (Vehicle.customer_id v)).
    intros Hnil. rewrite Hnil in Hv'. by apply elem_of_nil in Hv'.
  - cbn [customer vehicles]. split_and!; [|by apply list_elem_of_fmap_2|done].
    destruct (Vehicle.customer_id v) as [s|] eqn:Hcid; [|done].
    cbn [cust_map_get].
    destruct (final_cust_map _ _ _ !! s) as [c|] eqn:E; [|done].
    apply final_cust_map_lookup in E as [Hin Hk].
    destruct (Hun c Hin). by rewrite Hk.
Qed.

End SearchFacts.

Section SearchText.
Context `{bson : Driver.Bson} `{regex : Driver.Regex}.
Import Driver.

Lemma customer_matches_ext m1 m2 c :
  (forall s, m1 s = m2 s) -> customer_matches m1 c = customer_matches m2 c.
Proof. intros H. unfold customer_matches. by rewrite !H. Qed.

Lemma vehicle_matches_ext m1 m2 v :
  (forall s, m1 s = m2 s) -> vehicle_matches m1 v = vehicle_matches m2 v.
Proof. intros H. unfold vehicle_matches. by rewrite !H. Qed.

(** C7, amended. The query is stripped of surrounding white space and the
    result is handed to the store as a case-insensitive regular
    expression, in two separate calls: one returns the customers whose
    name, phone or email it matches, the other the vehicles whose vin,
    plate, make or model it matches. Where the expression means "contains
    the query, whatever the case", these are the customers and vehicles
    that contain the stripped query in one of these fields. *)
Theorem search_text_matches (q : string) (m : string -> bool) (w : World) :
  regex_i (PyStr.strip q) = Some m ->
  text_matches q w =
    inr (filter (λ c, customer_matches m c) (db_customer (db w)),
         filter (λ v, vehicle_matches m v) (db_vehicle (db w))) /\
  ops (search_text (PyStr.strip q) w).2 =
    ops w ++
    [FindRegex "customer" ["name"; "phone"; "email"] (PyStr.strip q);
     FindRegex "vehicle" ["vin"; "plate"; "make"; "model"] (PyStr.strip q)] /\
  ((forall s, m s = PyStr.contains_ci (PyStr.strip q) s) ->
   text_matches q w = substring_matches (PyStr.strip q) (db w)).
Proof.
  intros Hm. unfold text_matches, substring_matches.
  rewrite (search_text_run _ m w Hm). cbn [fst snd ops].
  split_and!; [done|done|]. intros Hlit. do 2 f_equal.
  - apply list_filter_iff. intros c.
    by rewrite (customer_matches_ext _ _ c Hlit).
  - apply list_filter_iff. intros v.
    by rewrite (vehicle_matches_ext _ _ v Hlit).
Qed.

End SearchText.

(** ** [pay_invoice] *)
Section Pay.
Context `{bson : Driver.Bson}.
Import Driver.

Lemma update_one_paid_absent o docs :
  o ∉ Invoice._id <$> docs -> update_one_paid o docs = (docs, 0).
Proof.
  induction docs as [|d docs IH]; [done|].
  rewrite fmap_cons, not_elem_of_cons. intros [Hne Hnot]. cbn.
  rewrite bool_decide_eq_false_2 by done. by rewrite (IH Hnot).
Qed.

Lemma update_one_paid_present o l1 inv l2 :
  o ∉ Invoice._id <$> l1 -> Invoice._id inv = o ->
  update_one_paid o (l1 ++ inv :: l2) = (l1 ++ set_paid inv :: l2, 1).
Proof.
  intros Hnot Hid. induction l1 as [|d l1 IH]; cbn.
  - by rewrite bool_decide_eq_true_2.
  - rewrite fmap_cons, not_elem_of_cons in Hnot. destruct Hnot as [Hne Hnot].
    rewrite bool_decide_eq_false_2 by done. by rewrite (IH Hnot).
Qed.

Lemma find_paid o l1 inv l2 :
  o ∉ Invoice._id <$> l1 -> Invoice._id inv = o ->
  List.find (fun i => bool_decide (Invoice._id i = o))
    (l1 ++ set_paid inv :: l2) = Some (set_paid inv).
Proof.
  intros Hnot Hid. induction l1 as [|d l1 IH]; cbn.
  - by rewrite bool_decide_eq_true_2.
  - rewrite fmap_cons, not_elem_of_cons in Hnot. destruct Hnot as [Hne Hnot].
    rewrite bool_decide_eq_false_2 by done. by apply IH.
Qed.

(** C9. With a well-formed identifier that no stored invoice has,
    [pay_invoice] fails with the 404 error and the collections are as
    before; with the identifier of a stored invoice it sets [paid] on that
    invoice, leaves every other document as it was, and returns the
    updated invoice. *)
Theorem pay_invoice_toggle (invoice_id : string) (o : ObjectId) (w : World) :
  ObjectId_of_str invoice_id = Some o ->
  (o ∉ Invoice._id <$> db_invoice (db w) ->
   exists log,
     pay_invoice invoice_id w =
     (inl (HTTPException 404 "Invoice not found"),
      mkWorld (db w) (ops w ++ log))) /\
  (forall l1 inv l2,
     db_invoice (db w) = l1 ++ inv :: l2 ->
     o ∉ Invoice._id <$> l1 -> Invoice._id inv = o ->
     Invoice.paid (Invoice.body (set_paid inv)) = true /\
     exists log,
       pay_invoice invoice_id w =
       (inr (Some (serialize_invoice (set_paid inv))),
        mkWorld (mkDb (db_customer (db w)) (db_vehicle (db w))
                   (l1 ++ set_paid inv :: l2))
          (ops w ++ log))).
Proof.
  intros Hparse. destruct w as [[cs vs invs] log0].
  unfold pay_invoice, to_obj_id. rewrite Hparse.
  unfold bind, lift, ret, update_invoice_paid, bind, call, get_db, put_db, ret.
  cbn [db ops db_customer db_vehicle db_invoice]. split.
  - intros Hnot. rewrite (update_one_paid_absent _ _ Hnot). cbn.
    by eexists.
  - intros l1 inv l2 -> Hnot Hid. split; [done|].
    rewrite (update_one_paid_present _ _ _ _ Hnot Hid).
    cbn [Z.eqb]. unfold find_one_invoice, bind, call, get_db, ret.
    cbn [db ops db_invoice]. rewrite (find_paid _ _ _ _ Hnot Hid).
    cbn. eexists. by rewrite <- app_assoc.
Qed.
End Pay.

(** ** More on [search] *)
Section Strip.

Lemma append_cons c s t :
  String.append (String c s) t = String c (String.append s t).
Proof. reflexivity. Qed.

Lemma append_nil t : String.append "" t = t.
Proof. reflexivity. Qed.

Lemma lstrip_app_blank pre s :
  PyStr.blank pre = true ->
  PyStr.lstrip (String.append pre s) = PyStr.lstrip s.
Proof.
  induction pre as [|c pre IH]; rewrite ?append_nil, ?append_cons;
    cbn [PyStr.blank PyStr.lstrip]; [done|].
  intros [Hc Hpre]%andb_true_iff. rewrite Hc. by apply IH.
Qed.

Lemma rstrip_blank s : PyStr.blank s = true -> PyStr.rstrip s = "".
Proof.
  induction s as [|c s IH]; cbn [PyStr.blank PyStr.rstrip]; [done|].
  intros [Hc Hs]%andb_true_iff. by rewrite (IH Hs), Hc.
Qed.

Lemma rstrip_app_blank s post :
  PyStr.blank post = true ->
  PyStr.rstrip (String.append s post) = PyStr.rstrip s.
Proof.
  intros Hpost.
  induction s as [|c s IH]; rewrite ?append_nil, ?append_cons;
    cbn [PyStr.rstrip].
  - by apply rstrip_blank.
  - by rewrite IH.
Qed.

Lemma strip_app_blank s post :
  PyStr.blank post = true ->
  PyStr.strip (String.append s post) = PyStr.strip s.
Proof.
  intros Hpost. unfold PyStr.strip.
  induction s as [|c s IH]; rewrite ?append_nil, ?append_cons;
    cbn [PyStr.lstrip].
  - by rewrite (lstrip_blank post Hpost).
  - destruct (PyStr.isspace c); [exact IH|].
    rewrite <- append_cons. by apply (rstrip_app_blank (String c s)).
Qed.

Lemma strip_pad pre s post :
  PyStr.blank pre = true -> PyStr.blank post = true ->
  PyStr.strip (String.append pre (String.append s post)) = PyStr.strip s.
Proof.
  intros Hpre Hpost. rewrite <- (strip_app_blank s post Hpost).
  unfold PyStr.strip. by rewrite lstrip_app_blank.
Qed.

End Strip.

Section SearchMore.
Context `{bson : Driver.Bson} `{regex : Driver.Regex}.
Import Driver.

(** *** The keys of [grouped] *)

Lemma glookup_None cid (grouped : Grouped) :
  glookup cid grouped = None <-> cid ∉ grouped.*1.
Proof.
  induction grouped as [|[k g] rest IH]; cbn.
  - split; [intros _; apply not_elem_of_nil|done].
  - rewrite not_elem_of_cons. case_bool_decide as Hk; cbn in Hk.
    + split; [done|]. by intros [? _].
    + rewrite IH. split; [by intros ?; split; [congruence|]|by intros [_ ?]].
Qed.

Lemma elem_of_glookup k g (grouped : Grouped) :
  NoDup grouped.*1 -> (k, g) ∈ grouped -> glookup k grouped = Some g.
Proof.
  induction grouped as [|[k' g'] rest IH]; [by intros _ ?%elem_of_nil|].
  rewrite fmap_cons, NoDup_cons. cbn [fst glookup snd].
  intros [Hk' Hnd] [[= -> ->]|Hin]%elem_of_cons.
  - by rewrite bool_decide_eq_true_2.
  - rewrite bool_decide_eq_false_2; [by apply IH|].
    intros ->. apply Hk'.
    by apply (list_elem_of_fmap_2 fst _ (k, g)).
Qed.

Lemma keys_setdefault cid default (grouped : Grouped) :
  NoDup grouped.*1 -> NoDup (setdefault cid default grouped).*1.
Proof.
  intros Hnd. unfold setdefault. rewrite has_key_glookup.
  case_bool_decide as Hk; [done|].
  rewrite fmap_app. apply NoDup_app. split_and!; [done| |apply NoDup_singleton].
  intros k Hin [->|[]%elem_of_nil]%elem_of_cons. apply Hk.
  destruct (glookup cid grouped) eqn:E; [done|].
  by apply glookup_None in E.
Qed.

Lemma keys_append_vehicle cid v (grouped : Grouped) :
  (append_vehicle cid v grouped).*1 = grouped.*1.
Proof.
  unfold append_vehicle. rewrite <- list_fmap_compose.
  apply list_fmap_ext. intros i [k g] _. cbn. by case_bool_decide.
Qed.

Lemma keys_group_vehicles cm vs : forall grouped : Grouped,
  NoDup grouped.*1 -> NoDup (group_vehicles cm vs grouped).*1.
Proof.
  induction vs as [|v vs IH]; intros grouped Hnd; [done|].
  change (group_vehicles cm (v :: vs) grouped) with
    (group_vehicles cm vs
       (append_vehicle (Vehicle.customer_id v) v
          (setdefault (Vehicle.customer_id v)
             (mkGroup (cust_map_get cm (Vehicle.customer_id v)) [])
             grouped))).
  apply IH. rewrite keys_append_vehicle. by apply keys_setdefault.
Qed.

Lemma keys_group_customers_db d cs : forall grouped : Grouped,
  NoDup grouped.*1 -> NoDup (group_customers_db d cs grouped).*1.
Proof.
  induction cs as [|c cs IH]; intros grouped Hnd; [done|].
  rewrite group_customers_db_cons. by apply IH, keys_setdefault.
Qed.

Lemma keys_final_grouped d cs vs ids :
  NoDup (final_grouped d cs vs ids).*1.
Proof.
  unfold final_grouped.
  apply keys_group_customers_db, keys_group_vehicles, NoDup_nil_2.
Qed.

(** Every group of [grouped] once both loops have run: it was made by the
    first loop for a key that some matched vehicle carries, or by the
    second for a matched customer none of whose vehicles matched. *)
Lemma final_grouped_elem d cs vs ids k g :
  (k, g) ∈ final_grouped d cs vs ids ->
  (with_cid k vs <> [] /\
   g = mkGroup (cust_map_get (final_cust_map d cs ids) k) (with_cid k vs)) \/
  (with_cid k vs = [] /\
   exists c, c ∈ cs /\ k = Some (str_of_ObjectId (Customer._id c)) /\
             g = mkGroup (Some c)
                   (vehicles_of d (str_of_ObjectId (Customer._id c)))).
Proof.
  intros Hin. apply elem_of_glookup in Hin; [|apply keys_final_grouped].
  unfold final_grouped in Hin.
  destruct (with_cid k vs) as [|v0 l] eqn:E.
  - right. split; [done|].
    apply glookup_group_customers_new in Hin; [done|].
    rewrite glookup_group_vehicles. cbn [glookup]. by rewrite E.
  - left. split; [done|].
    erewrite glookup_group_customers_keep in Hin; last first.
    { rewrite glookup_group_vehicles. cbn [glookup]. by rewrite E. }
    by injection Hin as <-.
Qed.

Lemma elem_of_results_of (grouped : Grouped) g :
  g ∈ results_of grouped ->
  exists k grp, (k, grp) ∈ grouped /\
    g = mkGroup (serialize_customer <$> customer grp)
          (serialize_vehicle <$> vehicles grp).
Proof.
  unfold results_of. intros ([k grp] & -> & Hin)%list_elem_of_fmap.
  by exists k, grp.
Qed.

(** What a request that returns has computed. *)
Lemma search_returns_inv q w results w' :
  search q w = (inr results, w') ->
  (PyStr.strip q = "" /\ results = []) \/
  exists m ids,
    PyStr.strip q <> "" /\ regex_i (PyStr.strip q) = Some m /\
    to_obj_ids
      (elements
         (missing_ids
            (filter (λ v, vehicle_matches m v) (db_vehicle (db w)))
            (add_customers
               (filter (λ c, customer_matches m c) (db_customer (db w)))
               ∅))) = inr ids /\
    results =
      results_of
        (final_grouped (db w)
           (filter (λ c, customer_matches m c) (db_customer (db w)))
           (filter (λ v, vehicle_matches m v) (db_vehicle (db w))) ids).
Proof.
  intros Hs.
  destruct (decide (PyStr.strip q = "")) as [Hq|Hq].
  { left. split; [done|]. unfold search in Hs. rewrite Hq in Hs. cbn in Hs.
    by injection Hs as <-. }
  destruct (regex_i (PyStr.strip q)) as [m|] eqn:Hm.
  - right. exists m. rewrite (search_run q m w Hq Hm) in Hs.
    match type of Hs with
    | search_group ?cs ?vs ?w1 = _ =>
        pose proof (search_group_run cs vs w1) as Hrun
    end.
    cbn [db] in Hrun.
    destruct (to_obj_ids _) as [e|ids] eqn:E.
    + rewrite Hrun in Hs. discriminate Hs.
    + destruct Hrun as [log Hrun]. rewrite Hrun in Hs.
      injection Hs as <- _. by exists ids.
  - exfalso. unfold search in Hs.
    destruct (PyStr.strip q) as [|a s] eqn:E; [done|].
    cbn [PyStr.truthy negb] in Hs.
    unfold bind at 1 in Hs. unfold search_text, find_regex in Hs.
    unfold bind, call in Hs. rewrite Hm in Hs. cbn in Hs. discriminate Hs.
Qed.

(** The key of a group is the [customer_id] of each of its vehicles, and
    the identifier of its customer when it has one. *)
Lemma final_grouped_key d m ids k grp :
  (k, grp) ∈ final_grouped d
               (filter (λ c, customer_matches m c) (db_customer d))
               (filter (λ v, vehicle_matches m v) (db_vehicle d)) ids ->
  (forall v, v ∈ vehicles grp -> Vehicle.customer_id v = k) /\
  (forall c, customer grp = Some c ->
             k = Some (str_of_ObjectId (Customer._id c))).
Proof.
  intros [[Hne ->]|[Hnil (c & Hc & -> & ->)]]%final_grouped_elem;
    cbn [customer vehicles].
  - split.
    + by intros v [? _]%list_elem_of_filter.
    + intros c Hc. destruct k as [s|]; [|done]. cbn in Hc.
      by apply final_cust_map_lookup in Hc as [_ <-].
  - split.
    + by intros v [? _]%list_elem_of_filter.
    + by intros c' [= <-].
Qed.

Lemma serialize_vehicle_inj (v1 v2 : Vehicle.doc ObjectId) :
  serialize_vehicle v1 = serialize_vehicle v2 -> v1 = v2.
Proof.
  destruct v1, v2. unfold serialize_vehicle. cbn.
  intros [= Hid%str_of_ObjectId_inj]. by subst.
Qed.

Lemma elem_of_concat_groups (grouped : Grouped) v :
  v ∈ concat ((λ kv, vehicles kv.2) <$> grouped) ->
  exists k grp, (k, grp) ∈ grouped /\ v ∈ vehicles grp.
Proof.
  induction grouped as [|[k grp] rest IH]; [by intros ?%elem_of_nil|].
  rewrite fmap_cons. cbn [concat snd].
  intros [Hv|Hv]%elem_of_app.
  - exists k, grp. split; [by left|done].
  - destruct (IH Hv) as (k' & grp' & Hin & Hv').
    exists k', grp'. split; [by right|done].
Qed.

Lemma NoDup_concat_groups (grouped : Grouped) :
  NoDup grouped.*1 ->
  (forall k grp, (k, grp) ∈ grouped ->
     NoDup (vehicles grp) /\
     forall v, v ∈ vehicles grp -> Vehicle.customer_id v = k) ->
  NoDup (concat ((λ kv, vehicles kv.2) <$> grouped)).
Proof.
  induction grouped as [|[k grp] rest IH]; [intros; apply NoDup_nil_2|].
  rewrite !fmap_cons, NoDup_cons. cbn [fst snd concat].
  intros [Hk Hnd] Hall. apply NoDup_app. split_and!.
  - apply (Hall k grp). by left.
  - intros v Hv (k' & grp' & Hin & Hv')%elem_of_concat_groups.
    apply Hk.
    assert (Vehicle.customer_id v = k) as <-.
    { apply (Hall k grp); [by left|done]. }
    assert (Vehicle.customer_id v = k') as ->.
    { apply (Hall k' grp'); [by right|done]. }
    by apply (list_elem_of_fmap_2 fst _ (k', grp')).
  - apply IH; [done|]. intros k' grp' Hin. apply Hall. by right.
Qed.

Lemma concat_results_of (grouped : Grouped) :
  concat (vehicles <$> results_of grouped) =
  serialize_vehicle <$> concat ((λ kv, vehicles kv.2) <$> grouped).
Proof.
  unfold results_of. induction grouped as [|[k grp] rest IH]; [done|].
  rewrite !fmap_cons. cbn [concat vehicles snd]. by rewrite IH, fmap_app.
Qed.

(** The calls of [search_group] on the store. *)
Lemma search_group_calls customers vehicles w ids :
  to_obj_ids
    (elements (missing_ids vehicles (add_customers customers ∅))) = inr ids ->
  ops (search_group customers vehicles w).2 =
  ops w
  ++ (if bool_decide (missing_ids vehicles (add_customers customers ∅) = ∅)
      then [] else [FindIdIn "customer" ids])
  ++ ((λ c, FindEq "vehicle" "customer_id"
              (str_of_ObjectId (Customer._id c))) <$> customers).
Proof.
  intros Hids. unfold search_group.
  set (cm0 := add_customers customers ∅) in *.
  set (missing := missing_ids vehicles cm0) in *.
  destruct w as [d o]. unfold bind at 1.
  case_bool_decide as Hm.
  - unfold bind, ret. rewrite group_customers_run. done.
  - rewrite Hids.
    unfold bind, lift, ret, find_customers_in, bind, call, get_db, ret.
    cbn [db ops]. rewrite group_customers_run. cbn [db ops snd].
    by rewrite <- app_assoc.
Qed.

(** X7. [search] only reads: whatever the query and whether the request
    returns or fails, the collections are as before, and the log of store
    calls has only grown. *)
Theorem search_read_only (q : string) (w : World) :
  db (search q w).2 = db w /\
  exists log, ops (search q w).2 = ops w ++ log.
Proof.
  destruct (decide (PyStr.strip q = "")) as [Hq|Hq].
  { unfold search. rewrite Hq. cbn. split; [done|].
    exists []. by rewrite app_nil_r. }
  destruct (regex_i (PyStr.strip q)) as [m|] eqn:Hm.
  - rewrite (search_run q m w Hq Hm).
    match goal with
    | |- context [search_group ?cs ?vs ?w1] =>
        pose proof (search_group_run cs vs w1) as Hrun
    end.
    destruct (to_obj_ids _) as [e|ids].
    + rewrite Hrun. cbn. split; [done|]. by eexists.
    + destruct Hrun as [log ->]. cbn. split; [done|].
      eexists. by rewrite <- app_assoc.
  - unfold search. destruct (PyStr.strip q) as [|a s] eqn:E; [done|].
    cbn [PyStr.truthy negb]. unfold bind at 1.
    unfold search_text, find_regex. unfold bind, call. rewrite Hm. cbn.
    split; [done|]. by eexists.
Qed.

(** X8. A query that the store rejects as a pattern makes the request fail
    with the store's error, after the first text query has been sent;
    nothing is returned, whatever the collections hold. *)
Theorem search_rejected_pattern (q : string) (w : World) :
  PyStr.strip q <> "" -> regex_i (PyStr.strip q) = None ->
  search q w =
  (inl OperationFailure,
   mkWorld (db w)
     (ops w ++ [FindRegex "customer" ["name"; "phone"; "email"]
                  (PyStr.strip q)])).
Proof.
  intros Hq Hm. unfold search.
  destruct (PyStr.strip q) as [|a s] eqn:E; [done|].
  cbn [PyStr.truthy negb]. unfold bind at 1.
  unfold search_text, find_regex. unfold bind, call. by rewrite Hm.
Qed.

(** X10. In every group that [search] returns, all vehicles carry the same
    [customer_id], and when the group has a customer this is the customer's
    identifier; a group without customer has at least one vehicle. *)
Theorem search_group_owner (q : string) (w w' : World)
    (results : list (Group string)) (g : Group string) :
  search q w = (inr results, w') -> g ∈ results ->
  (forall v1 v2, v1 ∈ vehicles g -> v2 ∈ vehicles g ->
                 Vehicle.customer_id v1 = Vehicle.customer_id v2) /\
  (forall c v, customer g = Some c -> v ∈ vehicles g ->
               Vehicle.customer_id v = Some (Customer._id c)) /\
  (customer g = None -> vehicles g <> []).
Proof.
  intros [[_ ->]|(m & ids & _ & _ & _ & ->)]%search_returns_inv Hg;
    [by apply elem_of_nil in Hg|].
  apply elem_of_results_of in Hg as (k & grp & Hin & ->).
  pose proof (final_grouped_key _ _ _ _ _ Hin) as [Hvs Hc].
  cbn [customer vehicles]. split_and!.
  - intros v1 v2 (v1' & -> & H1)%list_elem_of_fmap
      (v2' & -> & H2)%list_elem_of_fmap. cbn.
    by rewrite (Hvs v1' H1), (Hvs v2' H2).
  - intros c v Hcust (v' & -> & Hv)%list_elem_of_fmap. cbn.
    rewrite (Hvs v' Hv).
    destruct (customer grp) as [c0|]; [|done].
    injection Hcust as <-. by rewrite (Hc c0 eq_refl).
  - intros Hnone Hnil%fmap_nil_inv.
    apply final_grouped_elem in Hin
      as [[Hne ->]|[_ (c & _ & _ & ->)]]; [done|done].
Qed.

(** X11. [search] returns nothing unrelated to the query. A returned vehicle
    is a stored vehicle that matches the query or belongs to the matched
    customer of its group; a returned customer is a stored customer who
    matches the query or owns a matched vehicle of the group. *)
Theorem search_returns_only_matches (q : string) (m : string -> bool)
    (w w' : World) (results : list (Group string)) (g : Group string) :
  regex_i (PyStr.strip q) = Some m ->
  search q w = (inr results, w') -> g ∈ results ->
  (forall v, v ∈ vehicles g ->
     exists v0, v0 ∈ db_vehicle (db w) /\ v = serialize_vehicle v0 /\
       (vehicle_matches m v0 \/
        exists c0, c0 ∈ db_customer (db w) /\ customer_matches m c0 /\
                   customer g = Some (serialize_customer c0) /\
                   Vehicle.customer_id v0 =
                   Some (str_of_ObjectId (Customer._id c0)))) /\
  (forall c, customer g = Some c ->
     exists c0, c0 ∈ db_customer (db w) /\ c = serialize_customer c0 /\
       (customer_matches m c0 \/
        exists v0, v0 ∈ db_vehicle (db w) /\ vehicle_matches m v0 /\
                   Vehicle.customer_id v0 =
                   Some (str_of_ObjectId (Customer._id c0)) /\
                   serialize_vehicle v0 ∈ vehicles g)).
Proof.
  intros Hm [[_ ->]|(m' & ids & _ & Hm' & _ & ->)]%search_returns_inv Hg;
    [by apply elem_of_nil in Hg|].
  rewrite Hm in Hm'. injection Hm' as <-.
  apply elem_of_results_of in Hg as (k & grp & Hin & ->).
  pose proof (final_grouped_key _ _ _ _ _ Hin) as [Hkey Hcust].
  apply final_grouped_elem in Hin
    as [[Hne ->]|[Hnil (c & Hc & -> & ->)]]; cbn [customer vehicles] in *.
  - split.
    + intros v (v0 & -> & Hv0)%list_elem_of_fmap.
      apply list_elem_of_filter in Hv0 as [_ Hv0].
      apply list_elem_of_filter in Hv0 as [Hmv Hv0].
      exists v0. split_and!; [done|done|by left].
    + intros c Hc. destruct (cust_map_get _ k) as [c0|] eqn:E; [|done].
      injection Hc as <-. exists c0.
      pose proof (Hcust c0 eq_refl) as ->. cbn in E.
      apply final_cust_map_lookup in E as [Hc0 _].
      split_and!; [done|done|]. right.
      destruct (with_cid _ _) as [|v0 l] eqn:Ew; [done|].
      assert (v0 ∈ with_cid (Some (str_of_ObjectId (Customer._id c0)))
                     (filter (λ v, vehicle_matches m v) (db_vehicle (db w))))
        as Hv0 by (rewrite Ew; by left).
      exists v0. pose proof Hv0 as Hv0'.
      apply list_elem_of_filter in Hv0 as [Hcid Hv0].
      apply list_elem_of_filter in Hv0 as [Hmv Hv0].
      split_and!; [done|done|done|].
      apply list_elem_of_fmap_2. by rewrite <- Ew.
  - apply list_elem_of_filter in Hc as [Hmc Hc]. split.
    + intros v (v0 & -> & Hv0)%list_elem_of_fmap.
      apply list_elem_of_filter in Hv0 as [Hcid Hv0].
      exists v0. split_and!; [done|done|]. right.
      exists c. by split_and!.
    + intros c' [= <-]. exists c. split_and!; [done|done|by left].
Qed.

(** The set of owners to fetch is empty when every matched vehicle names a
    matched customer. *)
Lemma missing_ids_empty vs cs :
  missing_ids vs (add_customers cs ∅) = ∅ <->
  forall v, v ∈ vs ->
    exists c, c ∈ cs /\
              Vehicle.customer_id v
              = Some (str_of_ObjectId (Customer._id c)).
Proof.
  split.
  - intros Hempty v Hv.
    assert (Vehicle.customer_id v ∉ missing_ids vs (add_customers cs ∅))
      as Hnot by (rewrite Hempty; apply not_elem_of_empty).
    rewrite elem_of_missing_ids in Hnot.
    destruct (Vehicle.customer_id v) as [s|] eqn:Hcid.
    + destruct (add_customers cs ∅ !! s) as [c|] eqn:E.
      * apply add_customers_lookup in E as [[Hc <-]|E]; [by exists c|].
        by rewrite lookup_empty in E.
      * destruct Hnot. split; [by exists v|]. by intros ? [= <-].
    + destruct Hnot. split; [by exists v|]. by intros ? [=].
  - intros Hall. apply elem_of_equiv_empty_L. intros cid.
    rewrite elem_of_missing_ids. intros [(v & Hv & <-) Hnone].
    destruct (Hall v Hv) as (c & Hc & Hcid).
    specialize (Hnone _ Hcid).
    assert (is_Some (add_customers cs ∅
                       !! str_of_ObjectId (Customer._id c))) as [c' Hc'].
    { apply add_customers_is_Some. right. by exists c. }
    by rewrite Hnone in Hc'.
Qed.

(** X14. The store calls of a request that returns. After the two text
    queries, the owners that the matched vehicles name are fetched in one
    call, unless every matched vehicle names a customer that the text query
    found; then the store is asked for the vehicles of every matched
    customer, one call per customer, whether or not the customer already
    has a group. *)
Theorem search_store_calls (q : string) (m : string -> bool) (w w' : World)
    (results : list (Group string)) :
  PyStr.strip q <> "" -> regex_i (PyStr.strip q) = Some m ->
  search q w = (inr results, w') ->
  let cs := filter (λ c, customer_matches m c) (db_customer (db w)) in
  let vs := filter (λ v, vehicle_matches m v) (db_vehicle (db w)) in
  let all_found :=
    forall v, v ∈ vs ->
      exists c, c ∈ cs /\
                Vehicle.customer_id v
                = Some (str_of_ObjectId (Customer._id c)) in
  exists fetch,
    ops w' =
    ops w
    ++ [FindRegex "customer" ["name"; "phone"; "email"] (PyStr.strip q);
        FindRegex "vehicle" ["vin"; "plate"; "make"; "model"] (PyStr.strip q)]
    ++ fetch
    ++ ((λ c, FindEq "vehicle" "customer_id"
                (str_of_ObjectId (Customer._id c))) <$> cs) /\
    (all_found -> fetch = []) /\
    (~ all_found ->
     exists ids,
       to_obj_ids (elements (missing_ids vs (add_customers cs ∅))) = inr ids /\
       fetch = [FindIdIn "customer" ids]).
Proof.
  intros Hq Hm Hs cs vs all_found.
  rewrite (search_run q m w Hq Hm) in Hs. fold cs vs in Hs.
  match type of Hs with
  | search_group _ _ ?w1 = _ =>
      pose proof (search_group_run cs vs w1) as Hrun;
      pose proof (search_group_calls cs vs w1) as Hcalls
  end.
  set (missing := missing_ids vs (add_customers cs ∅)) in *.
  destruct (to_obj_ids (elements missing)) as [e|ids] eqn:E.
  { rewrite Hrun in Hs. discriminate Hs. }
  specialize (Hcalls ids eq_refl). rewrite Hs in Hcalls.
  cbn [snd ops] in Hcalls.
  exists (if bool_decide (missing = ∅) then [] else [FindIdIn "customer" ids]).
  split_and!.
  - by rewrite Hcalls, <- app_assoc.
  - intros Hall%missing_ids_empty. fold missing in Hall.
    by rewrite (bool_decide_eq_true_2 _ Hall).
  - intros Hnot. exists ids. split; [done|].
    rewrite bool_decide_eq_false_2; [done|].
    intros Hall. apply Hnot. unfold all_found. by apply missing_ids_empty.
Qed.

(** X13. Nothing is returned twice. No two groups of a result show the same
    customer, and when the stored vehicles are pairwise different no
    vehicle appears twice in the result, in one group or in two. *)
Theorem search_no_duplicates (q : string) (w w' : World)
    (results : list (Group string)) :
  search q w = (inr results, w') ->
  (forall i j g1 g2 c,
     results !! i = Some g1 -> results !! j = Some g2 ->
     customer g1 = Some c -> customer g2 = Some c -> i = j) /\
  (NoDup (db_vehicle (db w)) -> NoDup (concat (vehicles <$> results))).
Proof.
  intros [[_ ->]|(m & ids & _ & _ & _ & ->)]%search_returns_inv.
  { split; [by intros i j g1 g2 c ?|intros; apply NoDup_nil_2]. }
  set (G := final_grouped _ _ _ _).
  assert (NoDup G.*1) as Hnd by apply keys_final_grouped.
  split.
  - intros i j g1 g2 c H1 H2 Hc1 Hc2. unfold results_of in H1, H2.
    rewrite list_lookup_fmap in H1, H2.
    destruct (G !! i) as [[k1 grp1]|] eqn:E1; [|done].
    destruct (G !! j) as [[k2 grp2]|] eqn:E2; [|done].
    injection H1 as <-. injection H2 as <-. cbn [customer snd] in Hc1, Hc2.
    destruct (customer grp1) as [c1|] eqn:Ec1; [|done].
    destruct (customer grp2) as [c2|] eqn:Ec2; [|done].
    injection Hc1 as <-. injection Hc2 as Hc2 _ _ _.
    pose proof (list_elem_of_lookup_2 _ _ _ E1) as Hin1.
    pose proof (list_elem_of_lookup_2 _ _ _ E2) as Hin2.
    apply final_grouped_key in Hin1 as [_ Hk1].
    apply final_grouped_key in Hin2 as [_ Hk2].
    specialize (Hk1 c1 Ec1). specialize (Hk2 c2 Ec2).
    apply (NoDup_lookup G.*1 i j k1 Hnd).
    + by rewrite list_lookup_fmap, E1.
    + rewrite list_lookup_fmap, E2. cbn. by rewrite Hk1, Hk2, Hc2.
  - intros Hvs. rewrite concat_results_of.
    apply NoDup_fmap_2; [intros ? ?; apply serialize_vehicle_inj|].
    apply NoDup_concat_groups; [done|].
    intros k grp Hin. split; [|by apply (final_grouped_key _ _ _ _ _ Hin)].
    apply final_grouped_elem in Hin
      as [[Hne ->]|[Hnil (c & Hc & -> & ->)]]; cbn [vehicles].
    + by apply NoDup_filter, NoDup_filter.
    + by apply NoDup_filter.
Qed.

(** X12. A request that returns leaves out nothing that matches. Every
    stored vehicle that matches the query is in a group of the result, and
    every stored customer who matches it is the customer of a group (the
    customer with that identifier). *)
Theorem search_returns_every_match (q : string) (m : string -> bool)
    (w w' : World) (results : list (Group string)) :
  PyStr.strip q <> "" -> regex_i (PyStr.strip q) = Some m ->
  search q w = (inr results, w') ->
  (forall v0, v0 ∈ db_vehicle (db w) -> vehicle_matches m v0 ->
     exists g, g ∈ results /\ serialize_vehicle v0 ∈ vehicles g) /\
  (forall c0, c0 ∈ db_customer (db w) -> customer_matches m c0 ->
     exists g c, g ∈ results /\ customer g = Some c /\
                 Customer._id c = str_of_ObjectId (Customer._id c0)).
Proof.
  intros Hq Hm [[? _]|(m' & ids & _ & Hm' & Hids & ->)]%search_returns_inv;
    [done|].
  rewrite Hm in Hm'. injection Hm' as <-. split.
  - intros v0 Hv0 Hmv.
    assert (v0 ∈ filter (λ v, vehicle_matches m v) (db_vehicle (db w)))
      as Hv0' by by apply list_elem_of_filter.
    assert (v0 ∈ with_cid (Vehicle.customer_id v0)
                   (filter (λ v, vehicle_matches m v) (db_vehicle (db w))))
      as Hv0'' by by apply list_elem_of_filter.
    eexists. split.
    + eapply results_of_elem_of,
        (final_grouped_vehicle_key _ _ _ (Vehicle.customer_id v0)).
      intros Hnil. rewrite Hnil in Hv0''. by apply elem_of_nil in Hv0''.
    + cbn [vehicles]. by apply list_elem_of_fmap_2.
  - intros c0 Hc0 Hmc.
    assert (c0 ∈ filter (λ c, customer_matches m c) (db_customer (db w)))
      as Hc0' by by apply list_elem_of_filter.
    destruct (glookup_group_customers_is_Some (db w) _ c0
                (group_vehicles
                   (final_cust_map (db w)
                      (filter (λ c, customer_matches m c)
                         (db_customer (db w))) ids)
                   (filter (λ v, vehicle_matches m v) (db_vehicle (db w)))
                   []) Hc0') as [grp Hgrp].
    fold (final_grouped (db w)
            (filter (λ c, customer_matches m c) (db_customer (db w)))
            (filter (λ v, vehicle_matches m v) (db_vehicle (db w))) ids)
      in Hgrp.
    pose proof (glookup_elem_of _ _ _ Hgrp) as Hin.
    pose proof (results_of_elem_of _ _ _ Hgrp) as Hres.
    apply final_grouped_elem in Hin
      as [[Hne ->]|[Hnil (c & Hc & Hk & ->)]]; cbn [customer] in Hres.
    + destruct (final_cust_map_matched (db w) m ids c0 Hc0') as [c' Hc'].
      cbn [cust_map_get] in Hres. rewrite Hc' in Hres.
      eexists _, _. split; [exact Hres|]. split; [reflexivity|]. cbn.
      by apply final_cust_map_lookup in Hc' as [_ ?].
    + eexists _, _. split; [exact Hres|]. split; [reflexivity|]. cbn.
      by injection Hk as <-.
Qed.

(** X24. The identifiers of a result read back. Every [_id] that [search]
    returns is the string of the identifier of the stored document that it
    shows, and [to_obj_id] turns it back into that identifier: a result can
    be used as it is to name a customer and a vehicle in a later
    request. *)
Theorem search_ids_round_trip (q : string) (w w' : World)
    (results : list (Group string)) (g : Group string) :
  search q w = (inr results, w') -> g ∈ results ->
  (forall c, customer g = Some c ->
     exists c0, c0 ∈ db_customer (db w) /\ c = serialize_customer c0 /\
                to_obj_id (Customer._id c) = inr (Customer._id c0)) /\
  (forall v, v ∈ vehicles g ->
     exists v0, v0 ∈ db_vehicle (db w) /\ v = serialize_vehicle v0 /\
                to_obj_id (Vehicle._id v) = inr (Vehicle._id v0)).
Proof.
  intros [[_ ->]|(m & ids & _ & _ & _ & ->)]%search_returns_inv Hg;
    [by apply elem_of_nil in Hg|].
  apply elem_of_results_of in Hg as (k & grp & Hin & ->).
  cbn [customer vehicles].
  assert (forall v0, v0 ∈ vehicles grp -> v0 ∈ db_vehicle (db w)) as Hvs.
  { apply final_grouped_elem in Hin
      as [[Hne ->]|[Hnil (c & Hc & -> & ->)]]; cbn [vehicles]; intros v0 Hv0.
    - apply list_elem_of_filter in Hv0 as [_ Hv0].
      by apply list_elem_of_filter in Hv0 as [_ Hv0].
    - by apply list_elem_of_filter in Hv0 as [_ Hv0]. }
  assert (forall c0, customer grp = Some c0 -> c0 ∈ db_customer (db w))
    as Hcs.
  { apply final_grouped_elem in Hin
      as [[Hne ->]|[Hnil (c & Hc & -> & ->)]]; cbn [customer]; intros c0 Hc0.
    - destruct k as [s|]; [|done]. cbn in Hc0.
      by apply final_cust_map_lookup in Hc0 as [? _].
    - injection Hc0 as <-. by apply list_elem_of_filter in Hc as [_ ?]. }
  split.
  - intros c Hc. destruct (customer grp) as [c0|]; [|done].
    injection Hc as <-. exists c0. split_and!; [by apply Hcs|done|].
    unfold to_obj_id. cbn. by rewrite ObjectId_of_str_of.
  - intros v (v0 & -> & Hv0)%list_elem_of_fmap.
    exists v0. split_and!; [by apply Hvs|done|].
    unfold to_obj_id. cbn. by rewrite ObjectId_of_str_of.
Qed.

(** The identifiers that the comprehension yields. *)
Lemma to_obj_ids_elem cids ids :
  to_obj_ids cids = inr ids ->
  forall o, o ∈ ids <->
    exists s, Some s ∈ cids /\ s <> "" /\ ObjectId_of_str s = Some o.
Proof.
  intros Hids o. split.
  - revert ids Hids. induction cids as [|cid cids IH]; intros ids; cbn.
    + intros [= <-] Ho. by apply elem_of_nil in Ho.
    + destruct (truthy_id cid) as [s0|] eqn:Ht.
      * apply truthy_id_Some in Ht as [-> Hs0]. unfold to_obj_id.
        destruct (ObjectId_of_str s0) as [o0|] eqn:Hp; [|done].
        destruct (to_obj_ids cids) as [e'|os]; [done|].
        intros [= <-] [->|Ho]%elem_of_cons.
        -- exists s0. split_and!; [by left|done|done].
        -- destruct (IH os eq_refl Ho) as (s & Hin & Hne & Hs).
           exists s. split_and!; [by right|done|done].
      * intros Hids Ho. destruct (IH ids Hids Ho) as (s & Hin & Hne & Hs).
        exists s. split_and!; [by right|done|done].
  - intros (s & Hin & Hne & Hs).
    destruct (to_obj_ids_returns _ _ Hids s Hin Hne) as (o' & Ho' & Hin').
    rewrite Hs in Ho'. by injection Ho' as <-.
Qed.

(** X25. The order in which the set of owners to fetch is visited does not
    show. Taken in two orders, the identifiers are refused with the same
    error in both, or they are accepted in both and the store returns the
    same customers for them. *)
Theorem owner_fetch_order_independent (l1 l2 : list (option string)) :
  l1 ≡ₚ l2 ->
  (forall e, to_obj_ids l1 = inl e <-> to_obj_ids l2 = inl e) /\
  (forall ids1 ids2,
     to_obj_ids l1 = inr ids1 -> to_obj_ids l2 = inr ids2 ->
     forall w, (find_customers_in ids1 w).1 = (find_customers_in ids2 w).1).
Proof.
  intros Hp.
  assert (forall l l' : list (option string), l ≡ₚ l' ->
            forall e, to_obj_ids l = inl e -> to_obj_ids l' = inl e) as Hfail.
  { intros l l' Hl e (-> & s & Hin & Hne & Hbad)%to_obj_ids_raises.
    apply (to_obj_ids_malformed _ s); [by rewrite <- Hl|done|done]. }
  split.
  - intros e. split; apply Hfail; [done|by symmetry].
  - intros ids1 ids2 H1 H2 w.
    unfold find_customers_in, bind, call, get_db, ret. cbn. f_equal.
    apply list_filter_iff. intros c.
    rewrite (to_obj_ids_elem _ _ H1), (to_obj_ids_elem _ _ H2).
    by setoid_rewrite Hp.
Qed.

Lemma filter_none {A} (P : A -> Prop) `{forall x, Decision (P x)}
    (l : list A) :
  (forall x, x ∈ l -> ~ P x) -> filter P l = [].
Proof.
  induction l as [|x l IH]; intros Hall; [done|].
  rewrite filter_cons, decide_False; [|apply Hall; by left].
  apply IH. intros y Hy. apply Hall. by right.
Qed.

(** X26. A query that matches nothing. When no stored customer and no
    stored vehicle matches, the request returns the empty list after the
    two text queries; nothing is fetched and nothing fails. *)
Theorem search_no_match (q : string) (m : string -> bool) (w : World) :
  PyStr.strip q <> "" -> regex_i (PyStr.strip q) = Some m ->
  (forall c, c ∈ db_customer (db w) -> ~ customer_matches m c) ->
  (forall v, v ∈ db_vehicle (db w) -> ~ vehicle_matches m v) ->
  search q w =
  (inr [],
   mkWorld (db w)
     (ops w ++
      [FindRegex "customer" ["name"; "phone"; "email"] (PyStr.strip q);
       FindRegex "vehicle" ["vin"; "plate"; "make"; "model"]
         (PyStr.strip q)])).
Proof.
  intros Hq Hm Hcs Hvs. rewrite (search_run q m w Hq Hm).
  assert (filter (λ c, customer_matches m c) (db_customer (db w)) = [])
    as ->.
  { by apply filter_none. }
  assert (filter (λ v, vehicle_matches m v) (db_vehicle (db w)) = []) as ->.
  { by apply filter_none. }
  assert (missing_ids [] (add_customers [] ∅) = ∅) as Hmiss.
  { apply missing_ids_empty. by intros v ?%elem_of_nil. }
  unfold search_group. rewrite Hmiss.
  rewrite (bool_decide_eq_true_2 _ eq_refl). reflexivity.
Qed.

(** X27. [search] reads the customers and the vehicles and nothing else:
    on two stores with the same customers and the same vehicles, whatever
    their invoices and whatever was called before, a query has the same
    outcome, response or error. *)
Theorem search_reads_customers_and_vehicles (q : string) (w1 w2 : World) :
  db_customer (db w1) = db_customer (db w2) ->
  db_vehicle (db w1) = db_vehicle (db w2) ->
  (search q w1).1 = (search q w2).1.
Proof.
  destruct w1 as [[cs vs i1] o1], w2 as [[cs' vs' i2] o2]. cbn.
  intros <- <-.
  destruct (decide (PyStr.strip q = "")) as [Hq|Hq].
  { unfold search. by rewrite Hq. }
  destruct (regex_i (PyStr.strip q)) as [m|] eqn:Hm.
  - rewrite !(search_run q m _ Hq Hm). cbn [db db_customer db_vehicle ops].
    match goal with
    | |- (search_group ?c ?v ?wa).1 = (search_group _ _ ?wb).1 =>
        pose proof (search_group_run c v wa) as Ha;
        pose proof (search_group_run c v wb) as Hb
    end.
    destruct (to_obj_ids _) as [e|ids].
    + by rewrite Ha, Hb.
    + destruct Ha as [la ->], Hb as [lb ->]. reflexivity.
  - unfold search. destruct (PyStr.strip q) as [|a s] eqn:E; [done|].
    cbn [PyStr.truthy negb].
    unfold bind, search_text, find_regex, bind, call. by rewrite Hm.
Qed.

(** X9. White space around the query is without effect: a query with white
    space added in front of it or after it gives the same response, the
    same store calls and the same errors. *)
Theorem search_ignores_padding (pre q post : string) (w : World) :
  PyStr.blank pre = true -> PyStr.blank post = true ->
  search (String.append pre (String.append q post)) w = search q w.
Proof.
  intros Hpre Hpost. unfold search. by rewrite (strip_pad pre q post).
Qed.

End SearchMore.

(** ** More on [pay_invoice] *)
Section PayMore.
Context `{bson : Driver.Bson}.
Import Driver.

(** An identifier is absent from a collection, or has a first document. *)
Lemma first_with_id o (docs : list (Invoice.doc ObjectId)) :
  (o ∉ Invoice._id <$> docs) \/
  exists l1 inv l2, docs = l1 ++ inv :: l2 /\
                    (o ∉ Invoice._id <$> l1) /\ Invoice._id inv = o.
Proof.
  induction docs as [|d docs IH].
  - left. apply not_elem_of_nil.
  - destruct (decide (Invoice._id d = o)) as [Hd|Hd].
    + right. exists [], d, docs. split_and!; [done|apply not_elem_of_nil|done].
    + destruct IH as [Hnot|(l1 & inv & l2 & -> & Hnot & Hid)].
      * left. rewrite fmap_cons, not_elem_of_cons. by split.
      * right. exists (d :: l1), inv, l2. split_and!; [done| |done].
        rewrite fmap_cons, not_elem_of_cons. by split.
Qed.

Lemma set_paid_set_paid (inv : Invoice.doc ObjectId) :
  set_paid (set_paid inv) = set_paid inv.
Proof. reflexivity. Qed.

Lemma paid_only_refl target inv : paid_only target inv inv.
Proof. repeat split. by left. Qed.

Lemma paid_only_set_paid inv :
  paid_only (Some (Invoice._id inv)) inv (set_paid inv).
Proof. repeat split. by right. Qed.

Lemma Forall2_paid_only_refl target (docs : list (Invoice.doc ObjectId)) :
  Forall2 (paid_only target) docs docs.
Proof.
  induction docs as [|d docs IH]; constructor; [apply paid_only_refl|done].
Qed.

Lemma update_one_paid_only o docs :
  Forall2 (paid_only (Some o)) docs (update_one_paid o docs).1.
Proof.
  induction docs as [|d docs IH]; cbn; [constructor|].
  case_bool_decide as Hd.
  - constructor; [|apply Forall2_paid_only_refl].
    rewrite <- Hd. apply paid_only_set_paid.
  - destruct (update_one_paid o docs) as [rest n]. cbn in *.
    constructor; [apply paid_only_refl|done].
Qed.

(** X18. An [invoice_id] that is not a well-formed identifier is refused
    with the 400 error before the store is called: the collections and the
    log of store calls are as before. *)
Theorem pay_invoice_malformed_id (invoice_id : string) (w : World) :
  ObjectId_of_str invoice_id = None ->
  pay_invoice invoice_id w = (inl (HTTPException 400 "Invalid ObjectId"), w).
Proof. intros H. unfold pay_invoice, to_obj_id. by rewrite H. Qed.

(** X19. Paying is idempotent. A payment that succeeds returns an invoice
    that is paid and whose [_id] reads as the identifier asked for, and
    paying the same invoice again succeeds with the same response and
    leaves the collections as the first payment left them. *)
Theorem pay_invoice_twice (invoice_id : string) (w w1 : World)
    (r : option (Invoice.doc string)) :
  pay_invoice invoice_id w = (inr r, w1) ->
  (exists doc, r = Some doc /\ Invoice.paid (Invoice.body doc) = true /\
               ObjectId_of_str (Invoice._id doc)
               = ObjectId_of_str invoice_id) /\
  exists log,
    pay_invoice invoice_id w1 = (inr r, mkWorld (db w1) (ops w1 ++ log)).
Proof.
  destruct w as [[cs vs invs] log0].
  unfold pay_invoice, to_obj_id.
  destruct (ObjectId_of_str invoice_id) as [o|] eqn:Hparse; [|done].
  unfold bind, lift, ret, update_invoice_paid, bind, call, get_db, put_db, ret.
  cbn [db ops db_customer db_vehicle db_invoice].
  destruct (first_with_id o invs) as [Hnot|(l1 & inv & l2 & -> & Hnot & Hid)].
  - rewrite (update_one_paid_absent _ _ Hnot). cbn. done.
  - rewrite (update_one_paid_present _ _ _ _ Hnot Hid).
    cbn [Z.eqb]. unfold find_one_invoice, bind, call, get_db, ret.
    cbn [db ops db_invoice]. rewrite (find_paid _ _ _ _ Hnot Hid).
    cbn [fmap option_fmap option_map]. intros [= <- <-]. split.
    + eexists. split_and!; [done|done|]. cbn.
      by rewrite Hid, ObjectId_of_str_of.
    + cbn [db ops db_customer db_vehicle db_invoice].
      rewrite (update_one_paid_present o l1 (set_paid inv) l2 Hnot Hid).
      rewrite set_paid_set_paid. cbn [Z.eqb db ops db_invoice].
      rewrite (find_paid _ _ _ _ Hnot Hid). cbn.
      eexists. by rewrite <- !app_assoc.
Qed.

(** X20. Whatever the request and its outcome, [pay_invoice] leaves the
    customers and the vehicles as they are, and the invoices are the same
    documents in the same order with the same identifiers, line items and
    amounts; [paid] differs at most in an invoice that has the identifier
    asked for, where it is set: no other invoice is touched and no paid
    invoice becomes unpaid. *)
Theorem pay_invoice_frame (invoice_id : string) (w : World) :
  let d' := db (pay_invoice invoice_id w).2 in
  db_customer d' = db_customer (db w) /\
  db_vehicle d' = db_vehicle (db w) /\
  Forall2 (paid_only (ObjectId_of_str invoice_id))
    (db_invoice (db w)) (db_invoice d').
Proof.
  destruct w as [[cs vs invs] log0].
  unfold pay_invoice, to_obj_id.
  pose proof (Forall2_paid_only_refl (ObjectId_of_str invoice_id) invs)
    as Hrefl.
  destruct (ObjectId_of_str invoice_id) as [o|] eqn:Hparse; [|by cbn].
  unfold bind, lift, ret, update_invoice_paid, bind, call, get_db, put_db, ret.
  cbn [db ops db_customer db_vehicle db_invoice].
  pose proof (update_one_paid_only o invs) as Hupd.
  destruct (update_one_paid o invs) as [docs n]. cbn [fst] in Hupd.
  destruct (Z.eqb n 0); [by cbn|].
  unfold find_one_invoice, bind, call, get_db, ret. by cbn.
Qed.

End PayMore.

(** ** [serialize] *)
Section SerializeFacts.
Context `{bson : Driver.Bson} {Other : Type} (str_other : Other -> string).
Import Driver Dict.

Lemma size_insert_ne_0 (d : gmap string (value Other)) k v :
  (size (<[k := v]> d) =? 0)%nat = false.
Proof.
  apply Nat.eqb_neq. rewrite map_size_insert.
  destruct (d !! k) eqn:E; cbn; [|lia].
  intros H. apply map_size_empty_inv in H. subst. by rewrite lookup_empty in E.
Qed.

(** X1. [serialize] is idempotent: a document that went through it once is
    returned unchanged by a second pass, so a dictionary that is reached
    twice is not damaged by the assignment. *)
Theorem serialize_idempotent (doc : option (gmap string (value Other))) :
  serialize str_other (serialize str_other doc) = serialize str_other doc.
Proof.
  destruct doc as [d|]; [|done]. unfold serialize.
  destruct (size d =? 0)%nat eqn:E.
  - by rewrite E.
  - rewrite size_insert_ne_0. unfold get.
    rewrite lookup_insert_eq. cbn [default str]. by rewrite insert_insert_eq.
Qed.

(** X2. [serialize] changes the field [_id] and nothing else. The falsy
    documents ([None], the empty dictionary) come back as they are; in any
    other document [_id] becomes a string, the [str] of its former value
    and ["None"] when there was none, and every other field keeps its
    value. *)
Theorem serialize_id_only (doc : option (gmap string (value Other)))
    (k : string) :
  (doc = None -> serialize str_other doc = None) /\
  (doc = Some ∅ -> serialize str_other doc = Some ∅) /\
  (forall d, doc = Some d -> d <> ∅ ->
     exists d', serialize str_other doc = Some d' /\
       d' !! "_id" =
         Some (VStr (match d !! "_id" with
                     | Some v => str str_other v
                     | None => "None"
                     end)) /\
       (k <> "_id" -> d' !! k = d !! k)).
Proof.
  split_and!; [by intros ->|by intros ->|].
  intros d -> Hne. unfold serialize.
  destruct (size d =? 0)%nat eqn:E.
  { apply Nat.eqb_eq, map_size_empty_inv in E. done. }
  eexists. split; [done|]. split.
  - rewrite lookup_insert_eq. unfold get. by destruct (d !! "_id").
  - intros Hk. by rewrite lookup_insert_ne.
Qed.

(** X3. On the documents of the three collections [serialize] is the
    function that the typed handlers use: the [_id] that the store holds as
    an identifier is replaced by the string that prints it, and the other
    fields are kept. *)
Theorem serialize_stored_document
    (c : Customer.doc ObjectId) (v : Vehicle.doc ObjectId)
    (i : Invoice.doc ObjectId)
    (fields : Invoice.t -> gmap string (value Other)) :
  serialize str_other (Some (of_customer VOid c))
  = Some (of_customer VStr (serialize_customer c)) /\
  serialize str_other (Some (of_vehicle VOid v))
  = Some (of_vehicle VStr (serialize_vehicle v)) /\
  serialize str_other (Some (of_invoice fields VOid i))
  = Some (of_invoice fields VStr (serialize_invoice i)).
Proof.
  split_and!.
  - unfold serialize, of_customer. rewrite size_insert_ne_0. unfold get.
    rewrite lookup_insert_eq, insert_insert_eq. done.
  - unfold serialize, of_vehicle.
    destruct v as [o [cid|] vin plate make model year color];
      cbn [Vehicle._id Vehicle.customer_id serialize_vehicle].
    + rewrite size_insert_ne_0. unfold get.
      rewrite lookup_insert_ne by done. rewrite lookup_insert_eq.
      cbn [default str]. rewrite insert_insert_ne by done.
      by rewrite insert_insert_eq.
    + rewrite size_insert_ne_0. unfold get.
      rewrite lookup_insert_eq, insert_insert_eq. done.
  - unfold serialize, of_invoice. rewrite size_insert_ne_0. unfold get.
    rewrite lookup_insert_eq, insert_insert_eq. done.
Qed.

End SerializeFacts.

(** ** [seed_demo] *)
Section SeedFacts.
Context `{bson : Driver.Bson} `{regex : Driver.Regex}.
Import Driver.

Lemma seed_demo_empty ids d :
  db_customer d = [] ->
  seed_demo ids d =
  (SeedResponse.mk "ok" "Seeded",
   mkDb (seeded_customers ids) (db_vehicle d ++ seeded_vehicles ids)
     (db_invoice d)).
Proof. destruct d as [cs vs invs]. cbn. by intros ->. Qed.

Lemma seed_demo_nonempty ids d :
  db_customer d <> [] ->
  seed_demo ids d = (SeedResponse.mk "ok" "Already seeded", d).
Proof.
  intros H. unfold seed_demo. by destruct (db_customer d).
Qed.

(** X4. Seeding is idempotent. Whatever the store holds, a second call
    (with whatever identifiers the driver would have generated) inserts
    nothing and answers "Already seeded". *)
Theorem seed_demo_idempotent (ids ids' : Fresh) (d : Db) :
  seed_demo ids' (seed_demo ids d).2 =
  (SeedResponse.mk "ok" "Already seeded", (seed_demo ids d).2).
Proof.
  apply seed_demo_nonempty.
  destruct (db_customer d) as [|c cs] eqn:E.
  - by rewrite (seed_demo_empty ids d E).
  - rewrite seed_demo_nonempty; [|by rewrite E]. cbn. by rewrite E.
Qed.

(** X5. The guard looks at the customers only. Where there is no customer,
    two customers are inserted and three vehicles are added after the
    vehicles that the store may already hold; each new vehicle names one of
    the new customers as its owner, by the string of the identifier that
    the store gave that customer, and its year is within the bounds of the
    [Vehicle] model. The invoices are not touched, and the customers have
    identifiers of their own when the two generated ones differ. *)
Theorem seed_demo_inserts (ids : Fresh) (d : Db) :
  db_customer d = [] ->
  let d' := (seed_demo ids d).2 in
  Customer._id <$> db_customer d' = [fresh_alex ids; fresh_maria ids] /\
  db_invoice d' = db_invoice d /\
  (fresh_alex ids <> fresh_maria ids -> unique_ids d') /\
  exists new,
    db_vehicle d' = db_vehicle d ++ new /\
    Vehicle._id <$> new = [fresh_civic ids; fresh_f150 ids; fresh_legend ids] /\
    forall v, v ∈ new ->
      1900 <= Vehicle.year v <= 2100 /\
      exists c, c ∈ db_customer d' /\
                Vehicle.customer_id v
                = Some (str_of_ObjectId (Customer._id c)).
Proof.
  intros H d'. unfold d'. rewrite (seed_demo_empty ids d H).
  cbn [snd db_customer db_vehicle db_invoice].
  split_and!; [done|done| |].
  { intros Hne. unfold unique_ids. cbn.
    apply NoDup_cons. split; [|apply NoDup_singleton].
    by intros [?|[]%elem_of_nil]%elem_of_cons. }
  exists (seeded_vehicles ids).
  split_and!; [done|done|]. unfold seeded_vehicles, seeded_customers.
  intros v Hv. repeat (apply elem_of_cons in Hv as [->|Hv]);
    [..|by apply elem_of_nil in Hv]; cbn; (split; [lia|]); eexists;
    first [split; [by left|reflexivity]
          |split; [right; by left|reflexivity]].
Qed.

(** A store in which every matched vehicle names a stored customer. *)
Lemma search_all_owners_stored q m w :
  PyStr.strip q <> "" -> regex_i (PyStr.strip q) = Some m ->
  (forall v, v ∈ db_vehicle (db w) -> vehicle_matches m v ->
     exists c, c ∈ db_customer (db w) /\
               Vehicle.customer_id v
               = Some (str_of_ObjectId (Customer._id c))) ->
  exists results w',
    search q w = (inr results, w') /\
    forall g, g ∈ results ->
      exists c, c ∈ db_customer (db w) /\
                customer g = Some (serialize_customer c).
Proof.
  intros Hq Hm Hown.
  assert (owner_ids_well_formed m (db w)) as Hwf.
  { intros v s Hv Hmv Hcid _. destruct (Hown v Hv Hmv) as (c & _ & Hc).
    rewrite Hcid in Hc. injection Hc as ->.
    rewrite ObjectId_of_str_of. by eexists. }
  rewrite (search_run q m w Hq Hm).
  destruct (owner_ids_no_raise (db w) m Hwf) as [ids Hids].
  match goal with
  | |- context [search_group ?cs ?vs ?w1] =>
      pose proof (search_group_run cs vs w1) as Hrun
  end.
  rewrite Hids in Hrun. destruct Hrun as [log ->]. cbn [db ops].
  eexists _, _. split; [reflexivity|].
  intros g (k & grp & Hin & ->)%elem_of_results_of. cbn [customer].
  apply final_grouped_elem in Hin
    as [[Hne ->]|[Hnil (c & Hc & -> & ->)]]; cbn [customer].
  - destruct (with_cid k _) as [|v0 l] eqn:Ew; [done|].
    assert (v0 ∈ with_cid k
                   (filter (λ v, vehicle_matches m v) (db_vehicle (db w))))
      as Hv0 by (rewrite Ew; by left).
    apply list_elem_of_filter in Hv0 as [Hcid Hv0].
    pose proof Hv0 as Hv0'.
    apply list_elem_of_filter in Hv0 as [Hmv Hv0].
    destruct (Hown v0 Hv0 Hmv) as (c & Hc & Hcid').
    rewrite Hcid' in Hcid. subst k. cbn [cust_map_get].
    destruct (final_cust_map_owner (db w) m ids v0 c Hids Hv0' Hc Hcid')
      as [c' Hc'].
    rewrite Hc'. exists c'. split; [|done].
    by apply final_cust_map_lookup in Hc' as [? _].
  - apply list_elem_of_filter in Hc as [_ Hc]. by exists c.
Qed.

(** X6. A search on a freshly seeded store. When [seed_demo] has run on a
    store without customers and vehicles, every query that is not blank and
    that the store accepts as a pattern returns normally, and every group
    of the result has a customer of the store and at least one vehicle: no
    group is without customer and no request fails on an owner
    identifier. *)
Theorem search_after_seed (ids : Fresh) (d0 : Db) (log : list StoreOp)
    (q : string) (m : string -> bool) :
  db_customer d0 = [] -> db_vehicle d0 = [] ->
  PyStr.strip q <> "" -> regex_i (PyStr.strip q) = Some m ->
  let w := mkWorld (seed_demo ids d0).2 log in
  exists results w',
    search q w = (inr results, w') /\
    forall g, g ∈ results ->
      vehicles g <> [] /\
      exists c, c ∈ db_customer (db w) /\
                customer g = Some (serialize_customer c).
Proof.
  intros Hc Hv Hq Hm w.
  assert (db w = mkDb (seeded_customers ids) (seeded_vehicles ids)
                   (db_invoice d0)) as Hdb.
  { unfold w. rewrite (seed_demo_empty ids d0 Hc). cbn. by rewrite Hv. }
  destruct (search_all_owners_stored q m w Hq Hm) as (results & w' & Hs & Hg).
  { rewrite Hdb. cbn [db_vehicle db_customer].
    unfold seeded_vehicles, seeded_customers.
    intros v Hin _. repeat (apply elem_of_cons in Hin as [->|Hin]);
      [..|by apply elem_of_nil in Hin]; cbn; eexists;
      first [split; [by left|reflexivity]
            |split; [right; by left|reflexivity]]. }
  exists results, w'. split; [done|]. intros g Hin. split; [|by apply Hg].
  apply search_returns_inv in Hs
    as [[? _]|(m' & ids' & _ & Hm' & _ & ->)]; [done|].
  apply elem_of_results_of in Hin as (k & grp & Hin & ->). cbn [vehicles].
  intros Hnil%fmap_nil_inv.
  apply final_grouped_elem in Hin
    as [[Hne ->]|[_ (c & Hcin & -> & ->)]]; cbn [vehicles] in Hnil; [done|].
  apply list_elem_of_filter in Hcin as [_ Hcin].
  rewrite Hdb in Hcin, Hnil. cbn [db_customer] in Hcin.
  unfold seeded_customers in Hcin.
  assert (forall v, v ∈ seeded_vehicles ids ->
            Vehicle.customer_id v
            = Some (str_of_ObjectId (Customer._id c)) -> False) as Hno.
  { intros v Hvin Hcid.
    assert (v ∈ vehicles_of
                  (mkDb (seeded_customers ids) (seeded_vehicles ids)
                     (db_invoice d0))
                  (str_of_ObjectId (Customer._id c))) as Hin'
      by by apply list_elem_of_filter.
    rewrite Hnil in Hin'. by apply elem_of_nil in Hin'. }
  unfold seeded_vehicles in Hno.
  repeat (apply elem_of_cons in Hcin as [->|Hcin]);
    [..|by apply elem_of_nil in Hcin].
  - eapply Hno; [by left|reflexivity].
  - eapply Hno; [right; right; by left|reflexivity].
Qed.

End SeedFacts.

(** ** [create_inspection] *)
Section CreateInspectionFacts.
Context `{bson : Driver.Bson}.
Import Driver.
Variable create_document : string -> Document -> M string.

Lemma create_inspection_run payload w :
  is_Some (ObjectId_of_str (InspectionPayload.customer_id payload)) ->
  is_Some (ObjectId_of_str (InspectionPayload.vehicle_id payload)) ->
  create_inspection create_document payload w =
  match create_document "inspection" (DInspection (inspection_of payload)) w
  with
  | (inl e, w1) => (inl e, w1)
  | (inr ins_id, w1) =>
      let invoice :=
        build_invoice ins_id (InspectionPayload.checks payload) in
      match create_document "invoice" (DInvoice invoice) w1 with
      | (inl e, w2) => (inl e, w2)
      | (inr inv_id, w2) =>
          (inr (InspectionResponse.mk ins_id inv_id invoice), w2)
      end
  end.
Proof.
  intros [o1 H1] [o2 H2]. unfold create_inspection, to_obj_id.
  rewrite H1, H2. unfold bind, lift, ret. cbn.
  destruct (create_document "inspection" _ w) as [[e|ins_id] w1]; [done|].
  by destruct (create_document "invoice" _ w1) as [[e|inv_id] w2].
Qed.

(** X15. The identifiers are checked before anything is written. When
    [customer_id] or [vehicle_id] is not a well-formed identifier the
    request fails with the 400 error and [create_document] has not run:
    the store is as before, whatever [create_document] does. *)
Theorem create_inspection_malformed_id (payload : InspectionPayload.t)
    (w : World) :
  ObjectId_of_str (InspectionPayload.customer_id payload) = None \/
  ObjectId_of_str (InspectionPayload.vehicle_id payload) = None ->
  create_inspection create_document payload w =
  (inl (HTTPException 400 "Invalid ObjectId"), w).
Proof.
  intros H. unfold create_inspection, to_obj_id, bind, lift, ret, raise.
  destruct (ObjectId_of_str (InspectionPayload.customer_id payload));
    [|done].
  destruct H as [H|H]; [done|]. by rewrite H.
Qed.

(** X16. With well-formed identifiers the inspection is stored first, with
    status "inspection_complete" and the photos of the payload (none when
    the payload has none), and then the invoice derived from the checks,
    which refers to the inspection by the string that storing it returned.
    The identifiers are not looked up: no customer or vehicle needs to
    exist. When storing the invoice fails, the request fails in the state
    that storing the inspection left: the inspection is not taken back. *)
Theorem create_inspection_steps (payload : InspectionPayload.t)
    (w w1 : World) (ins_id : string) :
  is_Some (ObjectId_of_str (InspectionPayload.customer_id payload)) ->
  is_Some (ObjectId_of_str (InspectionPayload.vehicle_id payload)) ->
  create_document "inspection" (DInspection (inspection_of payload)) w
  = (inr ins_id, w1) ->
  let invoice := build_invoice ins_id (InspectionPayload.checks payload) in
  Inspection.status (inspection_of payload) = "inspection_complete" /\
  Inspection.photos (inspection_of payload)
  = default [] (InspectionPayload.photos payload) /\
  Invoice.inspection_id invoice = ins_id /\ Invoice.paid invoice = false /\
  (forall inv_id w2,
     create_document "invoice" (DInvoice invoice) w1 = (inr inv_id, w2) ->
     create_inspection create_document payload w =
     (inr (InspectionResponse.mk ins_id inv_id invoice), w2)) /\
  (forall e w2,
     create_document "invoice" (DInvoice invoice) w1 = (inl e, w2) ->
     create_inspection create_document payload w = (inl e, w2)).
Proof.
  intros H1 H2 Hins invoice. subst invoice.
  rewrite (create_inspection_run payload w H1 H2), Hins. cbv zeta.
  split_and!.
  - reflexivity.
  - unfold inspection_of. cbn [Inspection.photos].
    by destruct (InspectionPayload.photos payload) as [[|ph phs]|].
  - reflexivity.
  - reflexivity.
  - intros inv_id w2 H. by rewrite H.
  - intros e w2 H. by rewrite H.
Qed.

(** X17. An invoice that has just been created can be paid. Provided that
    [create_document] (which is not among the sources) filed the invoice
    it was given under an identifier [o] that no stored invoice had, after
    the stored invoices, and returned the string of [o]: paying the
    [invoice_id] of the response of [create_inspection] succeeds and
    returns that invoice, with the amounts of the response and [paid]
    set. *)
Theorem create_then_pay (payload : InspectionPayload.t) (w w1 w' : World)
    (ins_id : string) (o : ObjectId) :
  is_Some (ObjectId_of_str (InspectionPayload.customer_id payload)) ->
  is_Some (ObjectId_of_str (InspectionPayload.vehicle_id payload)) ->
  create_document "inspection" (DInspection (inspection_of payload)) w
  = (inr ins_id, w1) ->
  let invoice := build_invoice ins_id (InspectionPayload.checks payload) in
  create_document "invoice" (DInvoice invoice) w1
  = (inr (str_of_ObjectId o), w') ->
  o ∉ Invoice._id <$> db_invoice (db w1) ->
  db_invoice (db w') = db_invoice (db w1) ++ [Invoice.mkdoc o invoice] ->
  exists response w'',
    create_inspection create_document payload w = (inr response, w') /\
    InspectionResponse.invoice response = invoice /\
    pay_invoice (InspectionResponse.invoice_id response) w' =
    (inr (Some (Invoice.mkdoc (str_of_ObjectId o)
                  (Invoice.mk ins_id (Invoice.line_items invoice)
                     (Invoice.subtotal invoice) (Invoice.taxes invoice)
                     (Invoice.total invoice) true))),
     w'').
Proof.
  intros H1 H2 Hins invoice Hinv Hfresh Hdb. subst invoice.
  destruct w' as [[cs vs invs] log']. cbn [db db_invoice] in Hdb. subst invs.
  rewrite (create_inspection_run payload w H1 H2), Hins.
  cbv zeta. rewrite Hinv. eexists _, _. split; [reflexivity|].
  split; [reflexivity|]. cbn [InspectionResponse.invoice_id].
  unfold pay_invoice, to_obj_id. rewrite ObjectId_of_str_of.
  unfold bind, lift, ret, update_invoice_paid, bind, call, get_db, put_db, ret.
  cbn [db ops db_customer db_vehicle db_invoice].
  rewrite (update_one_paid_present o _ (Invoice.mkdoc o _) [] Hfresh eq_refl).
  cbn [Z.eqb]. unfold find_one_invoice, bind, call, get_db, ret.
  cbn [db ops db_invoice].
  rewrite (find_paid o _ (Invoice.mkdoc o _) [] Hfresh eq_refl).
  reflexivity.
Qed.

End CreateInspectionFacts.

(** ** [test_database] *)
Section TestDatabaseFacts.
Import TestResponse.

Lemma working_Some name lst :
  working (Some (DbHandle.mk name lst)) <->
  (exists cs, lst = inr cs) /\ forall e, name <> DbHandle.Raises e.
Proof.
  unfold working. split.
  - intros (name' & cs & [= <- ->] & Hn). split; [by exists cs|done].
  - intros [[cs ->] Hn]. by exists name, cs.
Qed.

Lemma readable_Some (h : DbHandle.t) :
  (exists h', Some h = Some h' /\
              forall e, DbHandle.name h' <> DbHandle.Raises e) <->
  forall e, DbHandle.name h <> DbHandle.Raises e.
Proof. split; [by intros (h' & [= <-] & ?)|by exists h]. Qed.

(** The response but for the two fields that the environment decides. *)
Lemma test_database_cases (db : option DbHandle.t) (env : gmap string string) :
  let r := test_database db env in
  match db with
  | None =>
      database r = "⚠️  Available but not initialized" /\
      connection_status r = "Not Connected" /\ collections r = []
  | Some h =>
      match DbHandle.name h, DbHandle.list_collection_names h with
      | DbHandle.Raises e, _ =>
          database r = ("❌ Error: " ++ slice_to 50 e)%string /\
          connection_status r = "Not Connected" /\ collections r = []
      | _, inl e =>
          database r
          = ("⚠️  Connected but Error: " ++ slice_to 50 e)%string /\
          connection_status r = "Connected" /\ collections r = []
      | _, inr cs =>
          database r = "✅ Connected & Working" /\
          connection_status r = "Connected" /\ collections r = take 10 cs
      end
  end.
Proof. by destruct db as [[[|v|e] [e'|cs]]|]. Qed.

(** X21. What the response says about the configuration comes from the
    environment alone. [database_url] and [database_name] are "Set" or "Not
    Set" as the two variables are set to a non-empty value or not; the
    values that the handler first writes there (a fixed text, the name of
    the database) never reach the response. *)
Theorem test_database_environment (db : option DbHandle.t)
    (env : gmap string string) :
  let r := test_database db env in
  backend r = "✅ Running" /\
  database_url r =
    Some (if getenv_truthy env "DATABASE_URL"
          then "✅ Set" else "❌ Not Set") /\
  database_name r =
    Some (if getenv_truthy env "DATABASE_NAME"
          then "✅ Set" else "❌ Not Set").
Proof.
  unfold test_database.
  destruct db as [[[|v|e] [e'|cs]]|]; by cbn.
Qed.

(** X22. The collections of the response are the first ten names that the
    store lists, and they are listed only in a response whose [database]
    says "Connected & Working". *)
Theorem test_database_collections (db : option DbHandle.t)
    (env : gmap string string) :
  let r := test_database db env in
  (length (collections r) <= 10)%nat /\
  (collections r <> [] -> database r = "✅ Connected & Working") /\
  (forall name cs,
     db = Some (DbHandle.mk name (inr cs)) ->
     (forall e, name <> DbHandle.Raises e) ->
     collections r = take 10 cs).
Proof.
  intros r. pose proof (test_database_cases db env) as H. fold r in H.
  destruct db as [[name lst]|];
    [cbn [DbHandle.name DbHandle.list_collection_names] in H;
     destruct name as [|v|e], lst as [e'|cs]|];
    destruct H as (-> & _ & ->); split_and!; try done; cbn [length]; try lia.
  all: try (rewrite length_take; lia).
  all: try (by intros name cs' [= <- <-] _).
  all: by intros name cs' [= <- ?] Hn; destruct (Hn e).
Qed.

(** X23. The status that the response gives. [database] is "Connected &
    Working" exactly when the handle answers, and [connection_status] is
    "Connected" exactly when there is a handle whose [name] can be read;
    otherwise it is "Not Connected". The text "Not Available" that the
    response starts with is never returned: without a handle the response
    says "Available but not initialized". *)
Theorem test_database_status (db : option DbHandle.t)
    (env : gmap string string) :
  let r := test_database db env in
  (database r = "✅ Connected & Working" <-> working db) /\
  (connection_status r = "Connected" <->
   exists h, db = Some h /\ forall e, DbHandle.name h <> DbHandle.Raises e) /\
  (connection_status r = "Connected"
   \/ connection_status r = "Not Connected") /\
  database r <> "❌ Not Available" /\
  (db = None -> database r = "⚠️  Available but not initialized").
Proof.
  intros r. pose proof (test_database_cases db env) as H. fold r in H.
  destruct db as [[name lst]|].
  - rewrite working_Some, readable_Some. cbn [DbHandle.name] in *.
    cbn [DbHandle.list_collection_names] in H.
    destruct name as [|v|e], lst as [e'|cs]; destruct H as (-> & -> & _).
    all: cbv [String.append]; split_and!; try done; try (by left);
      try (by right).
    all: first [ by split; [|intros [[? [=]] _]]
               | by split; [|intros [_ Hn]; destruct (Hn e)]
               | by split; [|intros Hn; destruct (Hn e)]
               | by split; [split; [eexists|]|] ].
  - destruct H as (-> & -> & _). split_and!; try done; [| |by right].
    + split; [done|]. by intros (? & ? & ? & ?).
    + split; [done|]. by intros (? & ? & ?).
Qed.

End TestDatabaseFacts.

(** ** The results on sample data *)
Module LiteralRegexFacts.
Import LiteralRegex.

(** A pattern without [.] is searched as a substring, whatever the case. *)
Lemma match_here_literal p :
  forallb (fun c => negb (Ascii.eqb c ".")) (list_ascii_of_string p) = true ->
  forall s, match_here p s = PyStr.prefix_ci p s.
Proof.
  induction p as [|a p IH]; cbn; [done|].
  intros [Ha Hp]%andb_true_iff [|b s]; [done|].
  unfold match_char. apply negb_true_iff in Ha. by rewrite Ha, (IH Hp).
Qed.

Lemma search_in_literal p :
  forallb (fun c => negb (Ascii.eqb c ".")) (list_ascii_of_string p) = true ->
  forall s, search_in p s = PyStr.contains_ci p s.
Proof.
  intros Hp s. induction s as [|b s IH]; cbn.
  - by rewrite (match_here_literal p Hp).
  - by rewrite (match_here_literal p Hp), IH.
Qed.
End LiteralRegexFacts.

Section Witnesses.
Import Hex24 LiteralRegex Sample.

Ltac in_list :=
  repeat first [apply list_elem_of_here | apply list_elem_of_further].
Ltac each_of H :=
  repeat (apply elem_of_cons in H as [->|H]); [..|by apply elem_of_nil in H].

(** A query of three spaces on the seeded store. *)
Lemma search_blank_query_witness :
  PyStr.blank "   " = true /\ search "   " seeded = (inr [], seeded).
Proof. split; [reflexivity|]. apply search_blank_query. reflexivity. Defined.

(** The query "j" matches the walk-in vehicle, whose [customer_id] is not
    an identifier. *)
Lemma search_invalid_owner_id_witness :
  (search "j" with_walk_in).1 = inl (HTTPException 400 "Invalid ObjectId").
Proof.
  apply (search_invalid_owner_id "j" (search_in "j") with_walk_in).
  - intros H. vm_compute in H. discriminate H.
  - reflexivity.
  - exists walk_in, "walk-in".
    split_and!; [in_list|by vm_compute|reflexivity|discriminate|reflexivity].
Defined.

(** The query "j" matches the Legend by its VIN and not its owner Maria,
    who is fetched by identifier. *)
Lemma search_shows_owner_witness :
  exists results w',
    search "j" seeded = (inr results, w') /\
    exists g, g ∈ results /\
              customer g = Some (serialize_customer maria) /\
              serialize_vehicle legend ∈ vehicles g.
Proof.
  apply (search_shows_owner "j" (search_in "j") seeded legend maria).
  - intros H. vm_compute in H. discriminate H.
  - reflexivity.
  - apply (bool_decide_unpack _). by vm_compute.
  - intros v s Hv. cbn in Hv. each_of Hv; intros Hm [= <-] _;
      first [by vm_compute in Hm | by eexists].
  - in_list.
  - by vm_compute.
  - in_list.
  - reflexivity.
Defined.

(** The query "j" matches Alex, and the Civic among his vehicles. *)
Lemma search_customer_group_witness :
  exists results w',
    search "j" seeded = (inr results, w') /\
    exists g, g ∈ results /\
      customer g = Some (serialize_customer alex) /\
      let cid := print alex_id in
      let matched :=
        with_cid (Some cid)
          (filter (λ v, vehicle_matches (search_in "j") v)
             (db_vehicle (db seeded))) in
      vehicles g =
      serialize_vehicle <$>
        (match matched with
         | [] => vehicles_of (db seeded) cid
         | _ => matched
         end).
Proof.
  apply (search_customer_group "j" (search_in "j") seeded alex).
  - intros H. vm_compute in H. discriminate H.
  - reflexivity.
  - apply (bool_decide_unpack _). by vm_compute.
  - intros v s Hv. cbn in Hv. each_of Hv; intros Hm [= <-] _;
      first [by vm_compute in Hm | by eexists].
  - in_list.
  - by vm_compute.
Defined.

(** The query "j" matches a vehicle whose [customer_id] is empty. *)
Lemma search_unresolved_owner_witness :
  exists results w',
    search "j" with_unowned = (inr results, w') /\
    exists g, g ∈ results /\
      customer g = None /\
      serialize_vehicle unowned ∈ vehicles g /\
      vehicles g =
      serialize_vehicle <$>
        with_cid (Vehicle.customer_id unowned)
          (filter (λ v, vehicle_matches (search_in "j") v)
             (db_vehicle (db with_unowned))).
Proof.
  apply (search_unresolved_owner "j" (search_in "j") with_unowned unowned).
  - intros H. vm_compute in H. discriminate H.
  - reflexivity.
  - intros v s Hv. cbn in Hv. each_of Hv; intros Hm [= <-] Hne;
      first [by vm_compute in Hm | by eexists | by destruct Hne].
  - in_list.
  - by vm_compute.
  - intros c Hc. cbn in Hc. each_of Hc; discriminate.
Defined.

(** The query " alex" is matched as "alex". *)
Lemma search_text_matches_witness :
  text_matches " alex" seeded = inr ([alex], []) /\
  text_matches " alex" seeded = substring_matches "alex" (db seeded).
Proof.
  destruct (search_text_matches " alex" (search_in "alex") seeded)
    as (H1 & _ & H2); [reflexivity|].
  split; [exact H1|]. apply H2.
  apply LiteralRegexFacts.search_in_literal. reflexivity.
Defined.

(** Paying the stored invoice, and paying with an identifier that no
    invoice has. *)
Lemma pay_invoice_toggle_witness :
  (pay_invoice (print invoice_id) billed).1 =
  inr (Some (serialize_invoice (set_paid invoice))) /\
  (exists log,
     pay_invoice (print maria_id) billed =
     (inl (HTTPException 404 "Invoice not found"),
      mkWorld (db billed) (ops billed ++ log))).
Proof.
  split.
  - destruct (pay_invoice_toggle (bson := bson) (print invoice_id) invoice_id
                billed)
      as [_ H]; [reflexivity|].
    destruct (H [] invoice []) as [_ [log ->]];
      [reflexivity|apply not_elem_of_nil|reflexivity|reflexivity].
  - apply (pay_invoice_toggle (bson := bson) (print maria_id) maria_id billed);
      [reflexivity|].
    cbn. intros H. apply elem_of_cons in H as [H|H];
      [discriminate H|by apply elem_of_nil in H].
Defined.

(** The sample checklist and a reordering of it. *)
Lemma build_invoice_order_independent_witness :
  same_checks checks checks' /\
  build_invoice "i" checks = build_invoice "i" checks'.
Proof.
  assert (same_checks checks checks') as H.
  { exists [("brakes", [("fluid", "fail"); ("pads", "attention");
                        ("discs", "ok")]);
            ("lights", [("horn", "n/a"); ("low beam", "attention")])].
    split.
    - repeat constructor; cbn.
      etrans; [apply perm_skip, perm_swap|apply perm_swap].
    - apply perm_swap. }
  split; [exact H|]. apply build_invoice_order_independent, H.
Defined.

(** Two [attention] and one [fail]: 159.00, 12.72 and 171.72. *)
Lemma invoice_amounts_witness :
  let inv := build_invoice "i" checks in
  Invoice.subtotal inv = Float64.float_of_Z 159 /\
  Invoice.taxes inv = Float64.float_of_cents false 1272 /\
  Invoice.total inv = Float64.float_of_cents false 17172.
Proof.
  destruct (invoice_amounts "i" checks) as (_ & H1 & _ & _ & H2 & _ & H3 & _).
  - by vm_compute.
  - split_and!; [exact H1|exact H2|exact H3].
Defined.

(** *** Where the claims fail as they are stated *)

(** C2 as stated fails: already for the empty checklist the stored taxes,
    the double written 3.92, are not the decimal 3.92. *)
Lemma amounts_not_exact_decimals : ~ Decimal.exact (build_invoice "" []).
Proof.
  intros (_ & H & _). vm_compute in H. discriminate H.
Qed.

(** What the query "j" returns on two of the sample stores. *)
Lemma search_j_with_walk_in :
  (search "j" with_walk_in).1 = inl (HTTPException 400 "Invalid ObjectId").
Proof. reflexivity. Qed.

Lemma search_j_seeded :
  (search "j" seeded).1 =
  inr [mkGroup (Some (serialize_customer alex)) [serialize_vehicle civic];
       mkGroup (Some (serialize_customer maria)) [serialize_vehicle legend]].
Proof. reflexivity. Qed.

(** C4 as stated: the Civic matches "j" and its owner is in the store, but
    another matched vehicle has a malformed [customer_id] and the request
    fails: no group shows the owner. *)
Lemma owner_not_shown_when_request_fails :
  civic ∈ db_vehicle (db with_walk_in) /\
  vehicle_matches (search_in "j") civic /\
  alex ∈ db_customer (db with_walk_in) /\
  Vehicle.customer_id civic = Some (print (Customer._id alex)) /\
  ~ exists results w',
      search "j" with_walk_in = (inr results, w') /\
      exists g, g ∈ results /\
                customer g = Some (serialize_customer alex).
Proof.
  split_and!; [in_list|by vm_compute|in_list|reflexivity|].
  intros (results & w' & H & _).
  pose proof search_j_with_walk_in as E. rewrite H in E. discriminate E.
Qed.

(** C5 as stated: Alex matches "j" and so does one of his two vehicles;
    his group holds that vehicle only, not both. *)
Lemma matched_customer_without_all_vehicles :
  alex ∈ db_customer (db seeded) /\
  customer_matches (search_in "j") alex /\
  vehicles_of (db seeded) (print alex_id) = [civic; f150] /\
  ~ exists results w',
      search "j" seeded = (inr results, w') /\
      exists g, g ∈ results /\
        customer g = Some (serialize_customer alex) /\
        vehicles g =
        serialize_vehicle <$> vehicles_of (db seeded) (print alex_id).
Proof.
  split_and!; [in_list|by vm_compute|reflexivity|].
  intros (results & w' & H & g & Hg & Hc & Hv).
  pose proof search_j_seeded as E. rewrite H in E. injection E as ->.
  each_of Hg; discriminate Hv.
Qed.

(** C6 as stated: the owner of the walk-in vehicle is not in the store,
    and the request fails instead of returning a group without customer. *)
Lemma unresolved_owner_fails_request :
  walk_in ∈ db_vehicle (db with_walk_in) /\
  vehicle_matches (search_in "j") walk_in /\
  (forall c, c ∈ db_customer (db with_walk_in) ->
             Vehicle.customer_id walk_in
             <> Some (print (Customer._id c))) /\
  ~ exists results w', search "j" with_walk_in = (inr results, w').
Proof.
  split_and!; [in_list|by vm_compute| |].
  - intros c Hc. cbn in Hc. each_of Hc; discriminate.
  - intros (results & w' & H).
    pose proof search_j_with_walk_in as E. rewrite H in E. discriminate E.
Qed.

(** C7 as stated: the query " alex" is stripped before it is matched, and
    the query "civ.c" is a pattern whose [.] matches any character;
    neither query occurs in a field of what is found. *)
Lemma matching_is_not_substring_of_query :
  text_matches " alex" seeded <> substring_matches " alex" (db seeded) /\
  text_matches "civ.c" seeded <> substring_matches "civ.c" (db seeded).
Proof.
  assert (text_matches " alex" seeded = inr ([alex], [])) as E1
    by reflexivity.
  assert (substring_matches " alex" (db seeded) = inr ([], [])) as E2
    by reflexivity.
  assert (text_matches "civ.c" seeded = inr ([], [civic])) as E3
    by reflexivity.
  assert (substring_matches "civ.c" (db seeded) = inr ([], [])) as E4
    by reflexivity.
  rewrite E1, E2, E3, E4. split; discriminate.
Qed.
End Witnesses.

(** *** The further properties on the sample data *)
Section MoreWitnesses.
Import Hex24 LiteralRegex Sample Demo.

Ltac in_list :=
  repeat first [apply list_elem_of_here | apply list_elem_of_further].
Ltac each_of H :=
  repeat (apply elem_of_cons in H as [->|H]); [..|by apply elem_of_nil in H].

(** Seeding the empty store with the sample identifiers gives the seeded
    store. *)
Example seed_demo_sample :
  seed_demo fresh (mkDb [] [] []) =
  (SeedResponse.mk "ok" "Seeded", db seeded).
Proof. reflexivity. Qed.

(** The sample payload on the seeded store gives the store with the sample
    invoice. *)
Example create_inspection_sample :
  create_inspection create_document payload seeded =
  (inr (InspectionResponse.mk (print inspection_id) (print invoice_id)
          (Invoice.body invoice)),
   billed).
Proof. reflexivity. Qed.

(** What the query "j" returns on the seeded store, with the state it
    leaves. *)
Lemma search_j_seeded_run :
  exists w',
    search "j" seeded =
    (inr [mkGroup (Some (serialize_customer alex)) [serialize_vehicle civic];
          mkGroup (Some (serialize_customer maria))
            [serialize_vehicle legend]], w').
Proof.
  exists (search "j" seeded).2. reflexivity.
Qed.

(** A query with a sign that the patterns reserve. *)
Lemma search_rejected_pattern_witness :
  search "+1 555" seeded =
  (inl OperationFailure,
   mkWorld (db seeded)
     [FindRegex "customer" ["name"; "phone"; "email"] "+1 555"]).
Proof.
  apply (search_rejected_pattern "+1 555" seeded).
  - intros H. vm_compute in H. discriminate H.
  - reflexivity.
Defined.

(** The group of Maria in the result of the query "j". *)
Lemma search_group_owner_witness :
  let g := mkGroup (Some (serialize_customer maria))
             [serialize_vehicle legend] in
  (forall v1 v2, v1 ∈ vehicles g -> v2 ∈ vehicles g ->
                 Vehicle.customer_id v1 = Vehicle.customer_id v2) /\
  (forall c v, customer g = Some c -> v ∈ vehicles g ->
               Vehicle.customer_id v = Some (Customer._id c)) /\
  (customer g = None -> vehicles g <> []).
Proof.
  destruct search_j_seeded_run as [w' Hs].
  apply (search_group_owner "j" seeded w' _ _ Hs). in_list.
Defined.

(** The same group: the Legend matches "j", and Maria owns it. *)
Lemma search_returns_only_matches_witness :
  let g := mkGroup (Some (serialize_customer maria))
             [serialize_vehicle legend] in
  let m := search_in "j" in
  let w := seeded in
  (forall v, v ∈ vehicles g ->
     exists v0, v0 ∈ db_vehicle (db w) /\ v = serialize_vehicle v0 /\
       (vehicle_matches m v0 \/
        exists c0, c0 ∈ db_customer (db w) /\ customer_matches m c0 /\
                   customer g = Some (serialize_customer c0) /\
                   Vehicle.customer_id v0 =
                   Some (print (Customer._id c0)))) /\
  (forall c, customer g = Some c ->
     exists c0, c0 ∈ db_customer (db w) /\ c = serialize_customer c0 /\
       (customer_matches m c0 \/
        exists v0, v0 ∈ db_vehicle (db w) /\ vehicle_matches m v0 /\
                   Vehicle.customer_id v0 =
                   Some (print (Customer._id c0)) /\
                   serialize_vehicle v0 ∈ vehicles g)).
Proof.
  destruct search_j_seeded_run as [w' Hs].
  eapply (search_returns_only_matches "j" (search_in "j") seeded w');
    [reflexivity|exact Hs|in_list].
Defined.

(** The query "j" matches the Civic, the Legend and Alex. *)
Lemma search_returns_every_match_witness :
  let m := search_in "j" in
  let results :=
    [mkGroup (Some (serialize_customer alex)) [serialize_vehicle civic];
     mkGroup (Some (serialize_customer maria)) [serialize_vehicle legend]] in
  (forall v0, v0 ∈ db_vehicle (db seeded) -> vehicle_matches m v0 ->
     exists g, g ∈ results /\ serialize_vehicle v0 ∈ vehicles g) /\
  (forall c0, c0 ∈ db_customer (db seeded) -> customer_matches m c0 ->
     exists g c, g ∈ results /\ customer g = Some c /\
                 Customer._id c = print (Customer._id c0)).
Proof.
  destruct search_j_seeded_run as [w' Hs].
  eapply (search_returns_every_match "j" (search_in "j") seeded w');
    [|reflexivity|exact Hs].
  intros H. vm_compute in H. discriminate H.
Defined.

(** The owners that the query "j" makes [search] fetch on the seeded
    store. *)
Lemma owners_fetched_j_seeded :
  to_obj_ids
    (elements
       (missing_ids
          (filter (λ v, vehicle_matches (search_in "j") v)
             (db_vehicle (db seeded)))
          (add_customers
             (filter (λ c, customer_matches (search_in "j") c)
                (db_customer (db seeded))) ∅)))
  = inr [maria_id].
Proof. reflexivity. Qed.

(** The query "j" on the seeded store: two text queries, the fetch of
    Maria, whom the Legend names, and the vehicles of Alex, the one
    customer that the text query found. *)
Lemma search_store_calls_witness :
  exists w',
    search "j" seeded =
    (inr [mkGroup (Some (serialize_customer alex)) [serialize_vehicle civic];
          mkGroup (Some (serialize_customer maria))
            [serialize_vehicle legend]], w') /\
    ops w' =
    [FindRegex "customer" ["name"; "phone"; "email"] "j";
     FindRegex "vehicle" ["vin"; "plate"; "make"; "model"] "j";
     FindIdIn "customer" [maria_id];
     FindEq "vehicle" "customer_id" (print alex_id)].
Proof.
  destruct search_j_seeded_run as [w' Hs]. exists w'. split; [exact Hs|].
  edestruct (search_store_calls "j" (search_in "j") seeded w')
    as (fetch & Hops & _ & Hfetch);
    [intros H; vm_compute in H; discriminate H|reflexivity|exact Hs|].
  destruct Hfetch as (ids & Hids & ->).
  { intros Hall. destruct (Hall legend) as (c & Hc & Hcid); [in_list|].
    apply list_elem_of_filter in Hc as [Hm Hc]. cbn in Hc.
    each_of Hc; [vm_compute in Hcid; discriminate Hcid|by vm_compute in Hm]. }
  rewrite owners_fetched_j_seeded in Hids. injection Hids as <-.
  exact Hops.
Defined.

(** The three seeded vehicles differ. *)
Lemma vehicles_seeded_NoDup : NoDup (db_vehicle (db seeded)).
Proof.
  cbn. repeat (apply NoDup_cons; split);
    rewrite ?not_elem_of_cons; repeat split;
    try apply not_elem_of_nil; try discriminate. apply NoDup_nil_2.
Qed.

(** The result of the query "j" on the seeded store. *)
Lemma search_no_duplicates_witness :
  let results :=
    [mkGroup (Some (serialize_customer alex)) [serialize_vehicle civic];
     mkGroup (Some (serialize_customer maria)) [serialize_vehicle legend]] in
  (forall i j g1 g2 c,
     results !! i = Some g1 -> results !! j = Some g2 ->
     customer g1 = Some c -> customer g2 = Some c -> i = j) /\
  NoDup (concat (vehicles <$> results)).
Proof.
  destruct search_j_seeded_run as [w' Hs].
  destruct (search_no_duplicates "j" seeded w' _ Hs) as [H1 H2].
  split; [exact H1|]. apply H2, vehicles_seeded_NoDup.
Defined.

(** An [invoice_id] that is no identifier. *)
Lemma pay_invoice_malformed_id_witness :
  pay_invoice "walk-in" billed
  = (inl (HTTPException 400 "Invalid ObjectId"), billed).
Proof. apply (pay_invoice_malformed_id "walk-in" billed). reflexivity. Defined.

(** Paying the sample invoice. *)
Lemma pay_billed_run :
  exists w1,
    pay_invoice (print invoice_id) billed =
    (inr (Some (serialize_invoice (set_paid invoice))), w1).
Proof.
  exists (pay_invoice (print invoice_id) billed).2. reflexivity.
Qed.

(** Paying the sample invoice, twice. *)
Lemma pay_invoice_twice_witness :
  exists w1,
    pay_invoice (print invoice_id) billed =
    (inr (Some (serialize_invoice (set_paid invoice))), w1) /\
    exists log,
      pay_invoice (print invoice_id) w1 =
      (inr (Some (serialize_invoice (set_paid invoice))),
       mkWorld (db w1) (ops w1 ++ log)).
Proof.
  destruct pay_billed_run as [w1 Hs]. exists w1. split; [exact Hs|].
  apply (pay_invoice_twice (print invoice_id) billed w1 _ Hs).
Defined.

(** Seeding the empty store with the sample identifiers. *)
Lemma seed_demo_inserts_witness :
  let d := mkDb [] [] [] in
  let d' := (seed_demo fresh d).2 in
  Customer._id <$> db_customer d' = [alex_id; maria_id] /\
  db_invoice d' = [] /\
  (alex_id <> maria_id -> unique_ids d') /\
  exists new,
    db_vehicle d' = new /\
    Vehicle._id <$> new =
      [Vehicle._id civic; Vehicle._id f150; Vehicle._id legend] /\
    forall v, v ∈ new ->
      1900 <= Vehicle.year v <= 2100 /\
      exists c, c ∈ db_customer d' /\
                Vehicle.customer_id v = Some (print (Customer._id c)).
Proof. apply (seed_demo_inserts fresh (mkDb [] [] [])). reflexivity. Defined.

(** The query "honda" after seeding the empty store. *)
Lemma search_after_seed_witness :
  exists results w',
    search "honda" (mkWorld (seed_demo fresh (mkDb [] [] [])).2 []) =
    (inr results, w') /\
    forall g, g ∈ results ->
      vehicles g <> [] /\
      exists c, c ∈ db_customer (seed_demo fresh (mkDb [] [] [])).2 /\
                customer g = Some (serialize_customer c).
Proof.
  apply (search_after_seed fresh (mkDb [] [] []) [] "honda"
           (search_in "honda"));
    [reflexivity|reflexivity| |reflexivity].
  intros H. vm_compute in H. discriminate H.
Defined.

(** A payload whose [customer_id] is no identifier. *)
Lemma create_inspection_malformed_id_witness :
  create_inspection create_document
    (InspectionPayload.mk "walk-in" (print (Vehicle._id civic)) checks
       None None) seeded
  = (inl (HTTPException 400 "Invalid ObjectId"), seeded).
Proof.
  apply (create_inspection_malformed_id create_document). by left.
Defined.

(** The sample payload on the seeded store. *)
Lemma create_inspection_steps_witness :
  let invoice := build_invoice (print inspection_id) checks in
  Inspection.status (inspection_of payload) = "inspection_complete" /\
  Inspection.photos (inspection_of payload) = [] /\
  Invoice.inspection_id invoice = print inspection_id /\
  Invoice.paid invoice = false /\
  (forall inv_id w2,
     create_document "invoice" (DInvoice invoice) seeded = (inr inv_id, w2) ->
     create_inspection create_document payload seeded =
     (inr (InspectionResponse.mk (print inspection_id) inv_id invoice), w2)) /\
  (forall e w2,
     create_document "invoice" (DInvoice invoice) seeded = (inl e, w2) ->
     create_inspection create_document payload seeded = (inl e, w2)).
Proof.
  apply (create_inspection_steps create_document payload seeded seeded
           (print inspection_id)); [by eexists|by eexists|reflexivity].
Defined.

(** The query "alex" between spaces. *)
Lemma search_ignores_padding_witness :
  search "  alex " seeded = search "alex" seeded.
Proof.
  apply (search_ignores_padding "  " "alex" " " seeded); reflexivity.
Defined.

(** The sample inspection on the seeded store, then the payment of its
    invoice. *)
Lemma create_then_pay_witness :
  exists response w'',
    create_inspection create_document payload seeded = (inr response, billed) /\
    InspectionResponse.invoice response = Invoice.body invoice /\
    pay_invoice (InspectionResponse.invoice_id response) billed =
    (inr (Some (serialize_invoice (set_paid invoice))), w'').
Proof.
  apply (create_then_pay create_document payload seeded seeded billed
           (print inspection_id) invoice_id);
    [by eexists|by eexists|reflexivity|reflexivity|apply not_elem_of_nil
    |reflexivity].
Defined.

(** The group of Maria in the result of the query "j". *)
Lemma search_ids_round_trip_witness :
  let g := mkGroup (Some (serialize_customer maria))
             [serialize_vehicle legend] in
  (forall c, customer g = Some c ->
     exists c0, c0 ∈ db_customer (db seeded) /\ c = serialize_customer c0 /\
                to_obj_id (Customer._id c) = inr (Customer._id c0)) /\
  (forall v, v ∈ vehicles g ->
     exists v0, v0 ∈ db_vehicle (db seeded) /\ v = serialize_vehicle v0 /\
                to_obj_id (Vehicle._id v) = inr (Vehicle._id v0)).
Proof.
  destruct search_j_seeded_run as [w' Hs].
  apply (search_ids_round_trip "j" seeded w' _ _ Hs). in_list.
Defined.

(** The owners of the seeded vehicles and a missing [customer_id], in two
    orders. *)
Lemma owner_fetch_order_independent_witness :
  [Some (print alex_id); None; Some (print maria_id)]
  ≡ₚ [None; Some (print maria_id); Some (print alex_id)] /\
  (find_customers_in [alex_id; maria_id] seeded).1
  = (find_customers_in [maria_id; alex_id] seeded).1.
Proof.
  assert ([Some (print alex_id); None; Some (print maria_id)]
          ≡ₚ [None; Some (print maria_id); Some (print alex_id)]) as Hp.
  { etrans; [apply perm_swap|]. apply perm_skip, perm_swap. }
  split; [exact Hp|].
  by apply (owner_fetch_order_independent _ _ Hp).
Defined.

(** The query "zz" on the seeded store. *)
Lemma search_no_match_witness :
  search "zz" seeded =
  (inr [],
   mkWorld (db seeded)
     [FindRegex "customer" ["name"; "phone"; "email"] "zz";
      FindRegex "vehicle" ["vin"; "plate"; "make"; "model"] "zz"]).
Proof.
  apply (search_no_match "zz" (search_in "zz") seeded).
  - intros H. vm_compute in H. discriminate H.
  - reflexivity.
  - intros c Hc Hm. cbn in Hc. each_of Hc; by vm_compute in Hm.
  - intros v Hv Hm. cbn in Hv. each_of Hv; by vm_compute in Hm.
Defined.

(** The seeded store, with and without the sample invoice. *)
Lemma search_reads_customers_and_vehicles_witness :
  (search "j" seeded).1 = (search "j" billed).1.
Proof.
  apply (search_reads_customers_and_vehicles "j" seeded billed); reflexivity.
Defined.

End MoreWitnesses.
